(** * Minesweeper knowledge base: a shallow embedding of [minesweeper.py]

    The development follows the three classes of the source file:
    [Minesweeper] (the board that answers probes), [Sentence] (a set of
    cells together with a mine count) and [MinesweeperAI] (the knowledge
    base and its inference loop).

    Python sets of cells are finite sets [gset (Z * Z)], Python integers are
    [Z], and the list [knowledge] is a list of sentence values.  Every
    [Sentence] object owns a private copy of its cell set ([set(cells)] in
    the constructor) and no sentence object is stored twice, so in-place
    mutation of the stored sentences is a [map] over the list. *)

From stdpp Require Import gmap sets list list_numbers.
From Stdlib Require Import ZArith Lia Ascii.

Local Open Scope Z_scope.
Set Warnings "-clear-no-such-hyp".

(** ** The board *)

Module Minesweeper.

(** [board[i][j]] is read as membership of [(i, j)] in the set of mined
    cells; the class keeps its [mines] set equal to the [True] entries of
    [board]. *)
Record t := mk {
  height : Z;
  width : Z;
  mines : gset (Z * Z)
}.

Definition is_mine (g : t) (cell : Z * Z) : bool :=
  bool_decide (cell ∈ mines g).

(** The two nested [range(c - 1, c + 2)] loops of [nearby_mines]. *)
Definition nearby_mines (g : t) (cell : Z * Z) : Z :=
  foldl (λ count i,
    foldl (λ count j,
      if bool_decide ((i, j) = cell) then count
      else if bool_decide (0 ≤ i < height g ∧ 0 ≤ j < width g) then
        if is_mine g (i, j) then count + 1 else count
      else count) count (seqZ (cell.2 - 1) 3))
    0 (seqZ (cell.1 - 1) 3).

(** [random.randrange(n)]: [ValueError] (here [None]) when the range is
    empty, otherwise a value below [n], picked by the draw [r] of the
    random source. *)
Definition randrange (n : Z) (r : nat) : option Z :=
  if bool_decide (0 < n) then Some (Z.of_nat r `mod` n) else None.

(** How a call of the constructor ends: with a board, with the
    [ValueError] of [randrange], or still looping when the draws given to
    the model are used up. *)
Inductive built :=
  | Built (g : t)
  | ValueError
  | Unfinished.

(** The [while len(self.mines) < mines] loop of [__init__]; every round
    takes one draw for [i] and one for [j]. *)
Fixpoint place_mines (height width mines : Z) (draws : list (nat * nat))
    (placed : gset (Z * Z)) : built :=
  if bool_decide (Z.of_nat (size placed) < mines) then
    match draws with
    | [] => Unfinished
    | (r1, r2) :: draws =>
        match randrange height r1 with
        | None => ValueError
        | Some i =>
            match randrange width r2 with
            | None => ValueError
            | Some j =>
                if bool_decide ((i, j) ∉ placed)
                then place_mines height width mines draws ({[(i, j)]} ∪ placed)
                else place_mines height width mines draws placed
            end
        end
    end
  else Built (mk height width placed).

(** [__init__], from the empty board. *)
Definition init (height width mines : Z) (draws : list (nat * nat)) : built :=
  place_mines height width mines draws ∅.




End Minesweeper.

(** ** Sentences *)

Module Sentence.

Record t := mk {
  cells : gset (Z * Z);
  count : Z
}.

(** [__eq__]: equal cell sets and equal counts. *)
#[global] Instance eq_dec : EqDecision t.
Proof. solve_decision. Defined.

Definition known_mines (s : t) : gset (Z * Z) :=
  if bool_decide (Z.of_nat (size (cells s)) = count s) && bool_decide (count s ≠ 0)
  then cells s else ∅.

Definition known_safes (s : t) : gset (Z * Z) :=
  if bool_decide (count s = 0) then cells s else ∅.

Definition mark_mine (cell : Z * Z) (s : t) : t :=
  if bool_decide (cell ∈ cells s)
  then mk (cells s ∖ {[cell]}) (count s - 1)
  else s.

Definition mark_safe (cell : Z * Z) (s : t) : t :=
  if bool_decide (cell ∈ cells s)
  then mk (cells s ∖ {[cell]}) (count s)
  else s.

End Sentence.

(** ** The agent *)

Module MinesweeperAI.

Record t := mk {
  height : Z;
  width : Z;
  moves_made : gset (Z * Z);
  mines : gset (Z * Z);
  safes : gset (Z * Z);
  knowledge : list Sentence.t
}.

(** [__init__] *)
Definition init (h w : Z) : t := mk h w ∅ ∅ ∅ [].

Definition set_knowledge (k : list Sentence.t) (a : t) : t :=
  mk (height a) (width a) (moves_made a) (mines a) (safes a) k.

Definition mark_mine (cell : Z * Z) (a : t) : t :=
  mk (height a) (width a) (moves_made a) ({[cell]} ∪ mines a) (safes a)
     (Sentence.mark_mine cell <$> knowledge a).

Definition mark_safe (cell : Z * Z) (a : t) : t :=
  mk (height a) (width a) (moves_made a) (mines a) ({[cell]} ∪ safes a)
     (Sentence.mark_safe cell <$> knowledge a).

(** *** [update_knowledge] *)

(** First loop of a round: the unions of the known safes and of the known
    mines over the stored sentences. *)
Definition extract_facts (k : list Sentence.t) : gset (Z * Z) * gset (Z * Z) :=
  foldl (λ acc sentence,
           (acc.1 ∪ Sentence.known_safes sentence,
            acc.2 ∪ Sentence.known_mines sentence))
        (∅, ∅) k.

(** [for cell in safes: self.mark_safe(cell)], in the iteration order of
    the set. *)
Definition mark_all_safe (cs : gset (Z * Z)) (a : t) : t :=
  set_fold mark_safe a cs.

Definition mark_all_mine (cs : gset (Z * Z)) (a : t) : t :=
  set_fold mark_mine a cs.

(** Body of the inner loop of the subset inference, for one pair
    [(s1, s2)]; [inf] is [new_inferences]. *)
Definition infer_pair (k : list Sentence.t) (s1 s2 : Sentence.t)
    (inf : list Sentence.t) : list Sentence.t :=
  if bool_decide (s1 = s2)
     || bool_decide (Sentence.cells s1 = ∅)
     || bool_decide (Sentence.cells s2 = ∅)
  then inf
  else if bool_decide (Sentence.cells s1 ⊆ Sentence.cells s2) then
    let new_sentence :=
      Sentence.mk (Sentence.cells s2 ∖ Sentence.cells s1)
                  (Sentence.count s2 - Sentence.count s1) in
    if bool_decide (new_sentence ∉ k) && bool_decide (new_sentence ∉ inf)
    then inf ++ [new_sentence]
    else inf
  else inf.

(** The two nested loops over [self.knowledge]. *)
Definition subset_inference (k : list Sentence.t) : list Sentence.t :=
  foldl (λ inf s1, foldl (λ inf s2, infer_pair k s1 s2 inf) inf k) [] k.

Definition nonempty (s : Sentence.t) : bool :=
  negb (bool_decide (Sentence.cells s = ∅)).

(** The agent after the fact extraction of a round (the first loop and the
    two [if] blocks), which is when the subset inference reads
    [self.knowledge]. *)
Definition mark_facts (a : t) : t :=
  let '(safes, mines) := extract_facts (knowledge a) in
  let a1 := if bool_decide (safes ≠ ∅) then mark_all_safe safes a else a in
  if bool_decide (mines ≠ ∅) then mark_all_mine mines a1 else a1.

(** One iteration of the [while] loop; the boolean is [updated], which the
    source sets when either fact set is non-empty and whenever a candidate
    is appended to [new_inferences]. *)
Definition update_round (a : t) : t * bool :=
  let '(safes, mines) := extract_facts (knowledge a) in
  let a1 := if bool_decide (safes ≠ ∅) then mark_all_safe safes a else a in
  let a2 := if bool_decide (mines ≠ ∅) then mark_all_mine mines a1 else a1 in
  let new_inferences := subset_inference (knowledge a2) in
  let updated :=
    bool_decide (safes ≠ ∅) || bool_decide (mines ≠ ∅)
    || negb (bool_decide (new_inferences = [])) in
  (set_knowledge (filter (λ s, nonempty s) (knowledge a2 ++ new_inferences)) a2,
   updated).

(** The [while updated] loop, with a bound on the number of rounds:
    [None] when the bound is reached before a round leaves [updated]
    false. *)
Fixpoint update_knowledge (fuel : nat) (a : t) : option t :=
  match fuel with
  | O => None
  | S fuel =>
      let '(a', updated) := update_round a in
      if updated then update_knowledge fuel a' else Some a'
  end.

(** Number of rounds the loop runs, when it stops within [fuel] rounds. *)
Fixpoint rounds (fuel : nat) (a : t) : option nat :=
  match fuel with
  | O => None
  | S fuel =>
      let '(a', updated) := update_round a in
      if updated then S <$> rounds fuel a' else Some 1%nat
  end.

(** *** [add_knowledge] *)

Definition offsets : list Z := [-1; 0; 1].

(** Step 2 of [add_knowledge]: the loops over [di] and [dj]; the
    accumulator is the pair [(neighbors, count)]. *)
Definition scan_neighbors (a : t) (cell : Z * Z) (count : Z)
    : gset (Z * Z) * Z :=
  foldl (λ acc di,
    foldl (λ acc dj,
      if bool_decide ((di, dj) = (0, 0)) then acc
      else
        let ni := cell.1 + di in
        let nj := cell.2 + dj in
        if bool_decide (0 ≤ ni < height a ∧ 0 ≤ nj < width a) then
          if bool_decide ((ni, nj) ∈ mines a) then (acc.1, acc.2 - 1)
          else if bool_decide ((ni, nj) ∉ safes a) then ({[(ni, nj)]} ∪ acc.1, acc.2)
          else acc
        else acc) acc offsets)
    (∅, count) offsets.

Definition with_move (cell : Z * Z) (a : t) : t :=
  mk (height a) (width a) ({[cell]} ∪ moves_made a) (mines a) (safes a)
     (knowledge a).

(** The sentence built by steps 1 and 2. *)
Definition new_sentence (a : t) (cell : Z * Z) (count : Z) : Sentence.t :=
  let a1 := mark_safe cell (with_move cell a) in
  let '(neighbors, count) := scan_neighbors a1 cell count in
  Sentence.mk neighbors count.

(** Step 3: append unless an equal sentence is stored. *)
Definition add_sentence (s : Sentence.t) (a : t) : t :=
  if bool_decide (s ∉ knowledge a)
  then set_knowledge (knowledge a ++ [s]) a
  else a.

(** Steps 1 to 3, the state on which [update_knowledge] is called. *)
Definition ingest (a : t) (cell : Z * Z) (count : Z) : t :=
  add_sentence (new_sentence a cell count) (mark_safe cell (with_move cell a)).

Definition add_knowledge (fuel : nat) (a : t) (cell : Z * Z) (count : Z)
    : option t :=
  update_knowledge fuel (ingest a cell count).

(** *** Move selection *)

(** Both queries are methods on the agent; they return the move together
    with the agent state they leave behind.  [make_safe_move] walks
    [self.safes] in the iteration order of the set, here the order of
    [elements]. *)
Definition make_safe_move (a : t) : option (Z * Z) * t :=
  (List.find (λ move, bool_decide (move ∉ moves_made a)) (elements (safes a)), a).

Definition choices (a : t) : list (Z * Z) :=
  i ← seqZ 0 (height a);
  j ← seqZ 0 (width a);
  if bool_decide ((i, j) ∉ moves_made a) && bool_decide ((i, j) ∉ mines a)
  then [(i, j)] else [].

(** [random.choice(seq)] returns [seq[k]] for a random index [k] below
    [len(seq)]; [r] is the draw of the random source. *)
Definition random_choice {A} (r : nat) (l : list A) : option A :=
  l !! (r `mod` length l)%nat.

Definition make_random_move (r : nat) (a : t) : option (Z * Z) * t :=
  (match choices a with
   | [] => None
   | _ :: _ => random_choice r (choices a)
   end, a).

End MinesweeperAI.

(** * Vocabulary of the properties

    Closed forms of what the loops compute, the reading of the agent's
    beliefs on a board, and the states reachable under the driver's
    contract. *)

Section vocabulary.

Implicit Types (s : Sentence.t) (a : MinesweeperAI.t) (g : Minesweeper.t)
               (k inf : list Sentence.t) (X : gset (Z * Z)) (c n : Z * Z).

(** What [Sentence.mark_safe] has done to a sentence once it was called
    for every cell of [X]. *)
Definition remove_safes X s : Sentence.t :=
  Sentence.mk (Sentence.cells s ∖ X) (Sentence.count s).

(** Likewise for [Sentence.mark_mine]: one decrement per removed cell. *)
Definition remove_mines X s : Sentence.t :=
  Sentence.mk (Sentence.cells s ∖ X)
              (Sentence.count s - Z.of_nat (size (Sentence.cells s ∩ X))).

(** The sentence derived from a pair, and the guard of the inner loop. *)
Definition candidate s1 s2 : Sentence.t :=
  Sentence.mk (Sentence.cells s2 ∖ Sentence.cells s1)
              (Sentence.count s2 - Sentence.count s1).

Definition derivable s1 s2 : Prop :=
  s1 ≠ s2 ∧ Sentence.cells s1 ≠ ∅ ∧ Sentence.cells s2 ≠ ∅
  ∧ Sentence.cells s1 ⊆ Sentence.cells s2.

(** The nested loops visit the pairs of [k × k] in order. *)
Definition pairs k : list (Sentence.t * Sentence.t) :=
  s1 ← k; s2 ← k; [(s1, s2)].

Definition infer_step k inf (p : Sentence.t * Sentence.t) :=
  MinesweeperAI.infer_pair k p.1 p.2 inf.

Definition facts_safes k : gset (Z * Z) := ⋃ (Sentence.known_safes <$> k).
Definition facts_mines k : gset (Z * Z) := ⋃ (Sentence.known_mines <$> k).

(** The stored sentences after the two marking loops of a round. *)
Definition reduced k : list Sentence.t :=
  remove_mines (facts_mines k) <$> (remove_safes (facts_safes k) <$> k).

Definition round_knowledge k : list Sentence.t :=
  filter (λ s, MinesweeperAI.nonempty s)
         (reduced k ++ MinesweeperAI.subset_inference (reduced k)).

Definition round_updated k : bool :=
  bool_decide (facts_safes k ≠ ∅) || bool_decide (facts_mines k ≠ ∅)
  || negb (bool_decide (MinesweeperAI.subset_inference (reduced k) = [])).

(** A sentence is true of the board whose mined cells are [B]. *)
Definition holds (B : gset (Z * Z)) s : Prop :=
  Z.of_nat (size (Sentence.cells s ∩ B)) = Sentence.count s.

(** The agent's beliefs are all true of the board. *)
Definition sound (B : gset (Z * Z)) a : Prop :=
  Forall (holds B) (MinesweeperAI.knowledge a)
  ∧ MinesweeperAI.safes a ## B
  ∧ MinesweeperAI.mines a ⊆ B.

Definition in_bounds (h w : Z) n : Prop := 0 ≤ n.1 < h ∧ 0 ≤ n.2 < w.

(** [n] is one of the eight cells around [c]. *)
Definition adjacent c n : Prop :=
  n ≠ c ∧ c.1 - 1 ≤ n.1 ≤ c.1 + 1 ∧ c.2 - 1 ≤ n.2 ≤ c.2 + 1.

Definition around c : list (Z * Z) :=
  [(c.1 - 1, c.2 - 1); (c.1 - 1, c.2); (c.1 - 1, c.2 + 1);
   (c.1, c.2 - 1); (c.1, c.2 + 1);
   (c.1 + 1, c.2 - 1); (c.1 + 1, c.2); (c.1 + 1, c.2 + 1)].

(** The in-bounds 8-neighbours of [c] on an [h × w] grid. *)
Definition neighbors8 (h w : Z) c : gset (Z * Z) :=
  list_to_set (filter (λ n, in_bounds h w n) (around c)).

#[global] Instance in_bounds_dec h w n : Decision (in_bounds h w n).
Proof. unfold in_bounds. apply _. Defined.

(** Body of the [di], [dj] loops for the neighbour [n]. *)
Definition scan_step a (acc : gset (Z * Z) * Z) n : gset (Z * Z) * Z :=
  if bool_decide (0 ≤ n.1 < MinesweeperAI.height a
                  ∧ 0 ≤ n.2 < MinesweeperAI.width a) then
    if bool_decide (n ∈ MinesweeperAI.mines a) then (acc.1, acc.2 - 1)
    else if bool_decide (n ∉ MinesweeperAI.safes a) then ({[n]} ∪ acc.1, acc.2)
    else acc
  else acc.

Definition nearby_step g (count : Z) n : Z :=
  if bool_decide (0 ≤ n.1 < Minesweeper.height g ∧ 0 ≤ n.2 < Minesweeper.width g)
  then if Minesweeper.is_mine g n then count + 1 else count
  else count.

(** The states an agent can be in when every observation it is given is
    the answer of the board [g] for a cell that is not mined. *)
Inductive reachable (g : Minesweeper.t) : MinesweeperAI.t → Prop :=
  | reach_init :
      reachable g (MinesweeperAI.init (Minesweeper.height g) (Minesweeper.width g))
  | reach_observe a fuel c a' :
      reachable g a →
      c ∉ Minesweeper.mines g →
      MinesweeperAI.add_knowledge fuel a c (Minesweeper.nearby_mines g c) = Some a' →
      reachable g a'
  | reach_propagate a fuel a' :
      reachable g a →
      MinesweeperAI.update_knowledge fuel a = Some a' →
      reachable g a'.

(** The cells mentioned by the stored sentences, and the distinct non-empty
    cell sets among them. *)
Definition cells_of k : gset (Z * Z) := ⋃ (Sentence.cells <$> k).

Definition shapes k : gset (gset (Z * Z)) :=
  list_to_set (Sentence.cells <$> filter (λ s, MinesweeperAI.nonempty s) k).

Definition measure k : nat :=
  (4 * 2 ^ size (cells_of k) - size (shapes k))%nat.

(** No two stored sentences have the same non-empty cell set and different
    counts. *)
Definition conflict_free k : Prop :=
  ∀ s s', s ∈ k → s' ∈ k →
          Sentence.cells s = Sentence.cells s' → Sentence.cells s ≠ ∅ → s = s'.

(** The states an agent can be in after any calls of [add_knowledge] and
    [update_knowledge] that returned, whatever cells and counts it was
    given. *)
Inductive played (h w : Z) : MinesweeperAI.t → Prop :=
  | played_init : played h w (MinesweeperAI.init h w)
  | played_observe a fuel c count a' :
      played h w a →
      MinesweeperAI.add_knowledge fuel a c count = Some a' →
      played h w a'
  | played_propagate a fuel a' :
      played h w a →
      MinesweeperAI.update_knowledge fuel a = Some a' →
      played h w a'.

(** [c] is one of the in-bounds cells around a cell that was played. *)
Definition near_played a c : Prop :=
  ∃ p, p ∈ MinesweeperAI.moves_made a
       ∧ c ∈ neighbors8 (MinesweeperAI.height a) (MinesweeperAI.width a) p.

(** Book-keeping that every such state satisfies. *)
Definition tidy a : Prop :=
  MinesweeperAI.moves_made a ⊆ MinesweeperAI.safes a
  ∧ (∀ c, c ∈ MinesweeperAI.mines a → near_played a c)
  ∧ (∀ c, c ∈ MinesweeperAI.safes a →
          c ∈ MinesweeperAI.moves_made a ∨ near_played a c)
  ∧ ∀ s, s ∈ MinesweeperAI.knowledge a →
         Sentence.cells s ## MinesweeperAI.safes a
         ∧ Sentence.cells s ## MinesweeperAI.mines a
         ∧ ∃ p, p ∈ MinesweeperAI.moves_made a
                ∧ Sentence.cells s
                  ⊆ neighbors8 (MinesweeperAI.height a) (MinesweeperAI.width a) p.

(** The agent after [n] rounds of the loop of [update_knowledge]. *)
Definition after_rounds (n : nat) a : MinesweeperAI.t :=
  Nat.iter n (λ b, (MinesweeperAI.update_round b).1) a.

End vocabulary.

(** Closed decidable statements are settled by evaluation. *)
Ltac by_compute :=
  match goal with |- ?P => apply (bool_decide_unpack P) end;
  vm_compute; exact I.

(** * Properties of the loops *)

(** ** Closed forms of the marking loops *)

Section marking.

Implicit Types (s : Sentence.t) (a : MinesweeperAI.t) (X : gset (Z * Z)).

Lemma remove_safes_empty s : remove_safes ∅ s = s.
Proof.
  destruct s as [cs n]. unfold remove_safes; simpl. f_equal. set_solver.
Qed.

Lemma remove_mines_empty s : remove_mines ∅ s = s.
Proof.
  destruct s as [cs n]. unfold remove_mines; simpl.
  rewrite intersection_empty_r_L, difference_empty_L, size_empty.
  f_equal. lia.
Qed.

Lemma mark_safe_remove_safes x X s :
  Sentence.mark_safe x (remove_safes X s) = remove_safes ({[x]} ∪ X) s.
Proof.
  unfold Sentence.mark_safe, remove_safes.
  cbn [Sentence.cells Sentence.count].
  case_bool_decide; f_equal; set_solver.
Qed.

Lemma mark_mine_remove_mines x X s :
  x ∉ X →
  Sentence.mark_mine x (remove_mines X s) = remove_mines ({[x]} ∪ X) s.
Proof.
  intros Hx. unfold Sentence.mark_mine, remove_mines.
  cbn [Sentence.cells Sentence.count].
  case_bool_decide as Hin.
  - f_equal; [set_solver|].
    replace (Sentence.cells s ∩ ({[x]} ∪ X))
      with ({[x]} ∪ Sentence.cells s ∩ X) by set_solver.
    rewrite (size_union {[x]} (Sentence.cells s ∩ X)) by set_solver.
    rewrite size_singleton. lia.
  - f_equal; [set_solver|].
    replace (Sentence.cells s ∩ ({[x]} ∪ X))
      with (Sentence.cells s ∩ X) by set_solver.
    done.
Qed.

Lemma mark_all_safe_closed X a :
  MinesweeperAI.mark_all_safe X a =
  MinesweeperAI.mk (MinesweeperAI.height a) (MinesweeperAI.width a)
    (MinesweeperAI.moves_made a) (MinesweeperAI.mines a)
    (X ∪ MinesweeperAI.safes a)
    (remove_safes X <$> MinesweeperAI.knowledge a).
Proof.
  unfold MinesweeperAI.mark_all_safe.
  apply (set_fold_ind_L (λ r Y, r =
    MinesweeperAI.mk (MinesweeperAI.height a) (MinesweeperAI.width a)
      (MinesweeperAI.moves_made a) (MinesweeperAI.mines a)
      (Y ∪ MinesweeperAI.safes a)
      (remove_safes Y <$> MinesweeperAI.knowledge a))).
  - destruct a as [h w mv mi sa k]; simpl. f_equal; [set_solver|].
    rewrite <- (list_fmap_id k) at 1. apply list_fmap_ext.
    intros _ s _. by rewrite remove_safes_empty.
  - intros x Y r _ ->. unfold MinesweeperAI.mark_safe; simpl.
    f_equal; [set_solver|].
    rewrite <- list_fmap_compose. apply list_fmap_ext.
    intros _ s _. simpl. apply mark_safe_remove_safes.
Qed.

Lemma mark_all_mine_closed X a :
  MinesweeperAI.mark_all_mine X a =
  MinesweeperAI.mk (MinesweeperAI.height a) (MinesweeperAI.width a)
    (MinesweeperAI.moves_made a) (X ∪ MinesweeperAI.mines a)
    (MinesweeperAI.safes a)
    (remove_mines X <$> MinesweeperAI.knowledge a).
Proof.
  unfold MinesweeperAI.mark_all_mine.
  apply (set_fold_ind_L (λ r Y, r =
    MinesweeperAI.mk (MinesweeperAI.height a) (MinesweeperAI.width a)
      (MinesweeperAI.moves_made a) (Y ∪ MinesweeperAI.mines a)
      (MinesweeperAI.safes a)
      (remove_mines Y <$> MinesweeperAI.knowledge a))).
  - destruct a as [h w mv mi sa k]; simpl. f_equal; [set_solver|].
    rewrite <- (list_fmap_id k) at 1. apply list_fmap_ext.
    intros _ s _. by rewrite remove_mines_empty.
  - intros x Y r Hx ->. unfold MinesweeperAI.mark_mine; simpl.
    f_equal; [set_solver|].
    rewrite <- list_fmap_compose. apply list_fmap_ext.
    intros _ s _. simpl. by apply mark_mine_remove_mines.
Qed.

(** The sets gathered by the first loop of a round. *)
Lemma extract_facts_spec (k : list Sentence.t) :
  MinesweeperAI.extract_facts k =
  (⋃ (Sentence.known_safes <$> k), ⋃ (Sentence.known_mines <$> k)).
Proof.
  unfold MinesweeperAI.extract_facts.
  cut (∀ acc : gset (Z * Z) * gset (Z * Z),
    foldl (λ acc sentence,
             (acc.1 ∪ Sentence.known_safes sentence,
              acc.2 ∪ Sentence.known_mines sentence)) acc k
    = (acc.1 ∪ ⋃ (Sentence.known_safes <$> k),
       acc.2 ∪ ⋃ (Sentence.known_mines <$> k))).
  { intros H. rewrite H. simpl. f_equal; set_solver. }
  induction k as [|s k IH]; intros [x y]; simpl.
  - f_equal; set_solver.
  - rewrite IH. simpl. f_equal; set_solver.
Qed.

End marking.

(** ** The subset inference *)

Section inference.

Implicit Types (s : Sentence.t) (k inf : list Sentence.t).

Lemma infer_pair_cases k s1 s2 inf :
  (derivable s1 s2 ∧ (candidate s1 s2 ∉ k) ∧ (candidate s1 s2 ∉ inf)
     ∧ MinesweeperAI.infer_pair k s1 s2 inf = inf ++ [candidate s1 s2])
  ∨ (¬ (derivable s1 s2 ∧ (candidate s1 s2 ∉ k) ∧ (candidate s1 s2 ∉ inf))
     ∧ MinesweeperAI.infer_pair k s1 s2 inf = inf).
Proof.
  unfold MinesweeperAI.infer_pair, derivable. fold (candidate s1 s2).
  repeat case_bool_decide; simpl; try (right; split; [|done]; tauto).
  left. tauto.
Qed.

Lemma foldl_bind {A B C} (f : C → B → C) (g : A → list B) (l : list A) c :
  foldl f c (l ≫= g) = foldl (λ c x, foldl f c (g x)) c l.
Proof.
  revert c. induction l as [|x l IH]; intros c; [done|].
  rewrite bind_cons, foldl_app. apply IH.
Qed.

Lemma foldl_pointwise {A B} (f g : B → A → B) (l : list A) b :
  (∀ b x, f b x = g b x) → foldl f b l = foldl g b l.
Proof.
  intros Hfg. revert b. induction l as [|x l IH]; intros b; simpl; [done|].
  by rewrite Hfg, IH.
Qed.

Lemma subset_inference_pairs k :
  MinesweeperAI.subset_inference k = foldl (infer_step k) [] (pairs k).
Proof.
  unfold MinesweeperAI.subset_inference, pairs.
  rewrite foldl_bind. apply foldl_pointwise. intros inf s1.
  rewrite foldl_bind. apply foldl_pointwise. intros inf' s2. done.
Qed.

Lemma elem_of_pairs k s1 s2 : (s1, s2) ∈ pairs k ↔ s1 ∈ k ∧ s2 ∈ k.
Proof.
  unfold pairs. rewrite list_elem_of_bind. split.
  - intros (x & Hin & Hx). rewrite list_elem_of_bind in Hin.
    destruct Hin as (y & Hin & Hy). apply list_elem_of_singleton in Hin.
    by simplify_eq.
  - intros [H1 H2]. exists s1. split; [|done].
    rewrite list_elem_of_bind. exists s2. by rewrite list_elem_of_singleton.
Qed.

(** Everything the loops add comes from a pair that passes the guard and
    was in neither list. *)
Lemma elem_of_infer_fold k ps inf x :
  x ∈ foldl (infer_step k) inf ps →
  x ∈ inf ∨ ((x ∉ k) ∧ ∃ p, p ∈ ps ∧ derivable p.1 p.2 ∧ x = candidate p.1 p.2).
Proof.
  revert inf. induction ps as [|p ps IH]; intros inf; simpl; [by left|].
  intros [Hx|(Hk & q & Hq & Hd & ->)]%IH.
  - unfold infer_step in Hx.
    destruct (infer_pair_cases k p.1 p.2 inf) as [(Hd & Hk & _ & Heq)|[_ Heq]];
      rewrite Heq in Hx.
    + apply elem_of_app in Hx as [Hx|Hx%list_elem_of_singleton]; [by left|].
      subst x. right. split; [done|]. exists p. split; [left|done].
    + by left.
  - right. split; [done|]. exists q. split; [by right|done].
Qed.

Lemma infer_fold_prefix k ps inf :
  ∃ more, foldl (infer_step k) inf ps = inf ++ more.
Proof.
  revert inf. induction ps as [|p ps IH]; intros inf; simpl.
  - exists []. by rewrite app_nil_r.
  - unfold infer_step at 2.
    destruct (infer_pair_cases k p.1 p.2 inf) as [(_ & _ & _ & ->)|[_ ->]].
    + destruct (IH (inf ++ [candidate p.1 p.2])) as [more ->].
      exists (candidate p.1 p.2 :: more). by rewrite <- app_assoc.
    + apply IH.
Qed.

(** Every pair that passes the guard has its candidate stored or derived. *)
Lemma infer_fold_complete k ps inf p :
  p ∈ ps → derivable p.1 p.2 →
  candidate p.1 p.2 ∈ k ∨ candidate p.1 p.2 ∈ foldl (infer_step k) inf ps.
Proof.
  revert inf. induction ps as [|q ps IH]; intros inf Hp Hd.
  - by apply elem_of_nil in Hp.
  - apply elem_of_cons in Hp as [->|Hp]; [|by apply IH].
    simpl. destruct (infer_fold_prefix k ps (infer_step k inf q)) as [more ->].
    unfold infer_step.
    destruct (infer_pair_cases k q.1 q.2 inf) as [(_ & _ & _ & ->)|[Hn ->]].
    + right. rewrite !elem_of_app, list_elem_of_singleton. tauto.
    + destruct (decide (candidate q.1 q.2 ∈ k)); [by left|].
      destruct (decide (candidate q.1 q.2 ∈ inf)); [|tauto].
      right. rewrite elem_of_app. tauto.
Qed.

Lemma infer_fold_NoDup k ps inf :
  NoDup inf → NoDup (foldl (infer_step k) inf ps).
Proof.
  revert inf. induction ps as [|p ps IH]; intros inf Hnd; simpl; [done|].
  apply IH. unfold infer_step.
  destruct (infer_pair_cases k p.1 p.2 inf) as [(_ & _ & Hi & ->)|[_ ->]];
    [|done].
  apply NoDup_app. split; [done|]. split.
  - intros x Hx ->%list_elem_of_singleton. done.
  - apply NoDup_singleton.
Qed.

Lemma elem_of_subset_inference k x :
  x ∈ MinesweeperAI.subset_inference k →
  (x ∉ k) ∧ ∃ s1 s2, s1 ∈ k ∧ s2 ∈ k ∧ derivable s1 s2 ∧ x = candidate s1 s2.
Proof.
  rewrite subset_inference_pairs.
  intros [Hx|(Hk & [s1 s2] & Hp & Hd & ->)]%elem_of_infer_fold.
  - by apply elem_of_nil in Hx.
  - apply elem_of_pairs in Hp as [H1 H2]. split; [done|]. by exists s1, s2.
Qed.

Lemma subset_inference_complete k s1 s2 :
  s1 ∈ k → s2 ∈ k → derivable s1 s2 →
  candidate s1 s2 ∈ k ++ MinesweeperAI.subset_inference k.
Proof.
  intros H1 H2 Hd. rewrite subset_inference_pairs, elem_of_app.
  apply (infer_fold_complete k (pairs k) [] (s1, s2)); [|done].
  by apply elem_of_pairs.
Qed.

Lemma subset_inference_NoDup k : NoDup (MinesweeperAI.subset_inference k).
Proof. rewrite subset_inference_pairs. apply infer_fold_NoDup, NoDup_nil_2. Qed.

End inference.

(** ** One round in closed form *)

Section round.

Implicit Types (s : Sentence.t) (a : MinesweeperAI.t) (k : list Sentence.t).

Lemma update_round_closed a :
  MinesweeperAI.update_round a =
  (MinesweeperAI.mk (MinesweeperAI.height a) (MinesweeperAI.width a)
     (MinesweeperAI.moves_made a)
     (facts_mines (MinesweeperAI.knowledge a) ∪ MinesweeperAI.mines a)
     (facts_safes (MinesweeperAI.knowledge a) ∪ MinesweeperAI.safes a)
     (round_knowledge (MinesweeperAI.knowledge a)),
   round_updated (MinesweeperAI.knowledge a)).
Proof.
  unfold MinesweeperAI.update_round. rewrite extract_facts_spec.
  fold (facts_safes (MinesweeperAI.knowledge a)).
  fold (facts_mines (MinesweeperAI.knowledge a)).
  set (Fs := facts_safes _). set (Fm := facts_mines _).
  assert ((if bool_decide (Fs ≠ ∅) then MinesweeperAI.mark_all_safe Fs a else a)
          = MinesweeperAI.mark_all_safe Fs a) as ->.
  { case_bool_decide as HS; [done|]. rewrite HS.
    unfold MinesweeperAI.mark_all_safe. by rewrite set_fold_empty. }
  set (a1 := MinesweeperAI.mark_all_safe Fs a).
  assert ((if bool_decide (Fm ≠ ∅) then MinesweeperAI.mark_all_mine Fm a1 else a1)
          = MinesweeperAI.mark_all_mine Fm a1) as ->.
  { case_bool_decide as HM; [done|]. rewrite HM.
    unfold MinesweeperAI.mark_all_mine. by rewrite set_fold_empty. }
  subst a1. rewrite mark_all_mine_closed, mark_all_safe_closed. done.
Qed.

Lemma update_knowledge_S fuel a :
  MinesweeperAI.update_knowledge (S fuel) a =
  if (MinesweeperAI.update_round a).2
  then MinesweeperAI.update_knowledge fuel (MinesweeperAI.update_round a).1
  else Some (MinesweeperAI.update_round a).1.
Proof. simpl. by destruct (MinesweeperAI.update_round a). Qed.

Lemma rounds_S fuel a :
  MinesweeperAI.rounds (S fuel) a =
  if (MinesweeperAI.update_round a).2
  then S <$> MinesweeperAI.rounds fuel (MinesweeperAI.update_round a).1
  else Some 1%nat.
Proof. simpl. by destruct (MinesweeperAI.update_round a). Qed.

Lemma elem_of_facts_safes k c :
  c ∈ facts_safes k ↔ ∃ s, s ∈ k ∧ Sentence.count s = 0 ∧ c ∈ Sentence.cells s.
Proof.
  unfold facts_safes. rewrite elem_of_union_list. split.
  - intros (X & (s & -> & Hs)%list_elem_of_fmap & Hc).
    unfold Sentence.known_safes in Hc. case_bool_decide; [|set_solver].
    by exists s.
  - intros (s & Hs & H0 & Hc). exists (Sentence.known_safes s).
    split; [by apply list_elem_of_fmap_2|].
    unfold Sentence.known_safes. by rewrite bool_decide_eq_true_2.
Qed.

Lemma elem_of_facts_mines k c :
  c ∈ facts_mines k ↔
  ∃ s, s ∈ k ∧ Z.of_nat (size (Sentence.cells s)) = Sentence.count s
       ∧ Sentence.count s ≠ 0 ∧ c ∈ Sentence.cells s.
Proof.
  unfold facts_mines. rewrite elem_of_union_list. split.
  - intros (X & (s & -> & Hs)%list_elem_of_fmap & Hc).
    unfold Sentence.known_mines in Hc.
    repeat case_bool_decide; simpl in Hc; try (by exists s); set_solver.
  - intros (s & Hs & H0 & H1 & Hc). exists (Sentence.known_mines s).
    split; [by apply list_elem_of_fmap_2|].
    unfold Sentence.known_mines. by rewrite !bool_decide_eq_true_2.
Qed.

End round.

(** ** Soundness with respect to a board *)

Section soundness.

Context (B : gset (Z * Z)).
Implicit Types (s : Sentence.t) (a : MinesweeperAI.t) (k : list Sentence.t)
               (X : gset (Z * Z)).

Lemma holds_zero s : holds B s → Sentence.count s = 0 → Sentence.cells s ## B.
Proof.
  unfold holds. intros Hh H0.
  assert (size (Sentence.cells s ∩ B) = 0%nat) as Hsz by lia.
  apply size_empty_inv in Hsz. set_solver.
Qed.

Lemma holds_full s :
  holds B s → Z.of_nat (size (Sentence.cells s)) = Sentence.count s →
  Sentence.cells s ⊆ B.
Proof.
  unfold holds. intros Hh Hf.
  assert (Sentence.cells s ∩ B = Sentence.cells s) as Heq.
  { apply set_subseteq_size_eq; [set_solver|lia]. }
  set_solver.
Qed.

Lemma facts_safes_sound k : Forall (holds B) k → facts_safes k ## B.
Proof.
  intros Hk c (s & Hs & H0 & Hc)%elem_of_facts_safes HB.
  rewrite Forall_forall in Hk. by apply (holds_zero s (Hk s Hs) H0 c).
Qed.

Lemma facts_mines_sound k : Forall (holds B) k → facts_mines k ⊆ B.
Proof.
  intros Hk c (s & Hs & Hf & _ & Hc)%elem_of_facts_mines.
  rewrite Forall_forall in Hk. by apply (holds_full s (Hk s Hs) Hf c).
Qed.

Lemma remove_safes_holds X s : X ## B → holds B s → holds B (remove_safes X s).
Proof.
  unfold holds, remove_safes. cbn [Sentence.cells Sentence.count].
  intros HX <-. do 2 f_equal. set_solver.
Qed.

Lemma remove_mines_holds X s : X ⊆ B → holds B s → holds B (remove_mines X s).
Proof.
  unfold holds, remove_mines. cbn [Sentence.cells Sentence.count].
  intros HX <-.
  assert (Sentence.cells s ∩ B
          = (Sentence.cells s ∖ X) ∩ B ∪ Sentence.cells s ∩ X) as Heq.
  { apply set_eq. intros c. destruct (decide (c ∈ X)); set_solver. }
  rewrite Heq.
  rewrite (size_union ((Sentence.cells s ∖ X) ∩ B) (Sentence.cells s ∩ X))
    by set_solver.
  lia.
Qed.

Lemma candidate_holds s1 s2 :
  Sentence.cells s1 ⊆ Sentence.cells s2 →
  holds B s1 → holds B s2 → holds B (candidate s1 s2).
Proof.
  unfold holds, candidate. cbn [Sentence.cells Sentence.count].
  intros Hsub <- <-.
  assert (Sentence.cells s2 ∩ B
          = (Sentence.cells s2 ∖ Sentence.cells s1) ∩ B
            ∪ Sentence.cells s1 ∩ B) as Heq.
  { apply set_eq. intros c.
    destruct (decide (c ∈ Sentence.cells s1)); set_solver. }
  rewrite Heq.
  rewrite (size_union ((Sentence.cells s2 ∖ Sentence.cells s1) ∩ B)
                      (Sentence.cells s1 ∩ B)) by set_solver.
  lia.
Qed.

Lemma reduced_holds k : Forall (holds B) k → Forall (holds B) (reduced k).
Proof.
  intros Hk. unfold reduced. rewrite !Forall_fmap.
  eapply Forall_impl; [exact Hk|]. intros s Hs. simpl.
  apply remove_mines_holds; [by apply facts_mines_sound|].
  apply remove_safes_holds; [by apply facts_safes_sound|done].
Qed.

Lemma subset_inference_holds k :
  Forall (holds B) k → Forall (holds B) (MinesweeperAI.subset_inference k).
Proof.
  intros Hk. rewrite Forall_forall in Hk. apply Forall_forall.
  intros x (_ & s1 & s2 & H1 & H2 & (_ & _ & _ & Hsub) & ->)%elem_of_subset_inference.
  apply candidate_holds; auto.
Qed.

Lemma round_knowledge_holds k : Forall (holds B) k → Forall (holds B) (round_knowledge k).
Proof.
  intros Hk. unfold round_knowledge. apply Forall_forall.
  intros s [_ Hs]%list_elem_of_filter. revert s Hs. apply Forall_forall.
  apply Forall_app. split.
  - by apply reduced_holds.
  - by apply subset_inference_holds, reduced_holds.
Qed.

Lemma update_round_sound a : sound B a → sound B (MinesweeperAI.update_round a).1.
Proof.
  intros (Hk & Hs & Hm). rewrite update_round_closed. unfold sound; simpl.
  split; [by apply round_knowledge_holds|].
  pose proof (facts_safes_sound _ Hk). pose proof (facts_mines_sound _ Hk).
  set_solver.
Qed.

Lemma update_knowledge_sound fuel a a' :
  sound B a → MinesweeperAI.update_knowledge fuel a = Some a' → sound B a'.
Proof.
  revert a. induction fuel as [|fuel IH]; intros a Ha; [done|].
  rewrite update_knowledge_S. pose proof (update_round_sound a Ha) as Hr.
  destruct (MinesweeperAI.update_round a).2.
  - by apply IH.
  - by intros [= <-].
Qed.

End soundness.

(** ** The neighbourhood of a cell *)

Section neighbourhood.

Implicit Types (c n : Z * Z) (a : MinesweeperAI.t).

Lemma elem_of_around c n : n ∈ around c ↔ adjacent c n.
Proof.
  destruct c as [i j], n as [x y]. unfold around, adjacent; simpl.
  rewrite !elem_of_cons, elem_of_nil. split.
  - intros H. repeat destruct H as [H|H]; try done; simplify_eq;
      (split; [intros [=]; lia | lia]).
  - intros (Hne & Hx & Hy).
    assert (x = i - 1 ∨ x = i ∨ x = i + 1) as Hx' by lia.
    assert (y = j - 1 ∨ y = j ∨ y = j + 1) as Hy' by lia.
    destruct Hx' as [->|[->| ->]], Hy' as [->|[->| ->]]; tauto.
Qed.

Lemma NoDup_around c : NoDup (around c).
Proof.
  destruct c as [i j]. unfold around; simpl.
  repeat (apply NoDup_cons; split;
          [rewrite ?elem_of_cons, elem_of_nil; intros H;
           repeat destruct H as [H|H]; try done; simplify_eq; lia|]).
  apply NoDup_nil_2.
Qed.

Lemma elem_of_neighbors8 h w c n :
  n ∈ neighbors8 h w c ↔ adjacent c n ∧ in_bounds h w n.
Proof.
  unfold neighbors8.
  rewrite elem_of_list_to_set, list_elem_of_filter, elem_of_around. tauto.
Qed.

(** The cells visited by the [di], [dj] loops, in order. *)
Lemma offsets_around c :
  (di ← MinesweeperAI.offsets; dj ← MinesweeperAI.offsets;
     if bool_decide ((di, dj) = (0, 0)) then [] else [(c.1 + di, c.2 + dj)])
  = around c.
Proof.
  destruct c as [i j]. unfold MinesweeperAI.offsets, around. cbn.
  repeat case_bool_decide; simplify_eq; cbn.
  repeat (f_equal; try lia).
Qed.

End neighbourhood.

(** ** What the neighbour scans compute *)

Section scans.

Implicit Types (c n : Z * Z) (a : MinesweeperAI.t) (g : Minesweeper.t).

Lemma scan_neighbors_fold a c count :
  MinesweeperAI.scan_neighbors a c count
  = foldl (scan_step a) (∅, count) (around c).
Proof.
  rewrite <- offsets_around, foldl_bind. unfold MinesweeperAI.scan_neighbors.
  apply foldl_pointwise. intros acc di. rewrite foldl_bind.
  apply foldl_pointwise. intros acc' dj. unfold scan_step.
  case_bool_decide; done.
Qed.

Lemma scan_fold a l acc :
  foldl (scan_step a) acc l =
  (list_to_set
     (filter (λ n, in_bounds (MinesweeperAI.height a) (MinesweeperAI.width a) n
                   ∧ (n ∉ MinesweeperAI.mines a) ∧ (n ∉ MinesweeperAI.safes a)) l)
   ∪ acc.1,
   acc.2 - Z.of_nat (length
     (filter (λ n, in_bounds (MinesweeperAI.height a) (MinesweeperAI.width a) n
                   ∧ n ∈ MinesweeperAI.mines a) l))).
Proof.
  revert acc. induction l as [|n l IH]; intros [N k].
  - cbn. f_equal; [|lia]. by rewrite (left_id_L ∅ (∪)).
  - cbn [foldl]. rewrite IH. clear IH. rewrite !filter_cons.
    unfold scan_step, in_bounds.
    repeat (case_bool_decide || case_decide); simpl;
      try (exfalso; tauto); f_equal; try lia; set_solver.
Qed.

Lemma scan_neighbors_spec a c count :
  MinesweeperAI.scan_neighbors a c count =
  (filter (λ n, (n ∉ MinesweeperAI.mines a) ∧ (n ∉ MinesweeperAI.safes a))
          (neighbors8 (MinesweeperAI.height a) (MinesweeperAI.width a) c),
   count - Z.of_nat (size
     (neighbors8 (MinesweeperAI.height a) (MinesweeperAI.width a) c
      ∩ MinesweeperAI.mines a))).
Proof.
  rewrite scan_neighbors_fold, scan_fold. simpl.
  set (h := MinesweeperAI.height a). set (w := MinesweeperAI.width a).
  f_equal.
  - apply set_eq. intros n.
    rewrite elem_of_union, elem_of_list_to_set, list_elem_of_filter,
      elem_of_filter, elem_of_neighbors8, elem_of_around.
    set_solver.
  - do 2 f_equal.
    rewrite <- (size_list_to_set (C := gset (Z * Z)))
      by apply NoDup_filter, NoDup_around.
    f_equal. apply set_eq. intros n.
    rewrite elem_of_list_to_set, list_elem_of_filter, elem_of_intersection,
      elem_of_neighbors8, elem_of_around.
    tauto.
Qed.

Lemma seqZ_3 m : seqZ m 3 = [m; m + 1; m + 2].
Proof.
  unfold seqZ. simpl. repeat (f_equal; try lia).
Qed.

Lemma ranges_around c :
  (i ← seqZ (c.1 - 1) 3; j ← seqZ (c.2 - 1) 3;
     if bool_decide ((i, j) = c) then [] else [(i, j)])
  = around c.
Proof.
  destruct c as [i j]. rewrite !seqZ_3. unfold around. cbn.
  do 4 (rewrite bool_decide_eq_false_2 by (intros [=]; lia)).
  rewrite bool_decide_eq_true_2 by (f_equal; lia).
  do 4 (rewrite bool_decide_eq_false_2 by (intros [=]; lia)).
  cbn. repeat (f_equal; try lia).
Qed.

Lemma nearby_mines_fold g c :
  Minesweeper.nearby_mines g c = foldl (nearby_step g) 0 (around c).
Proof.
  rewrite <- ranges_around, foldl_bind. unfold Minesweeper.nearby_mines.
  apply foldl_pointwise. intros acc i. rewrite foldl_bind.
  apply foldl_pointwise. intros acc' j. unfold nearby_step.
  case_bool_decide; done.
Qed.

Lemma nearby_fold g l k :
  foldl (nearby_step g) k l =
  k + Z.of_nat (length
    (filter (λ n, in_bounds (Minesweeper.height g) (Minesweeper.width g) n
                  ∧ n ∈ Minesweeper.mines g) l)).
Proof.
  revert k. induction l as [|n l IH]; intros k; [simpl; lia|].
  cbn [foldl]. rewrite IH. unfold nearby_step, Minesweeper.is_mine, in_bounds.
  rewrite filter_cons.
  repeat (case_bool_decide || case_decide); simpl;
    try (exfalso; tauto); lia.
Qed.

(** The board reports the number of mined in-bounds neighbours. *)
Lemma nearby_mines_spec g c :
  Minesweeper.nearby_mines g c =
  Z.of_nat (size (neighbors8 (Minesweeper.height g) (Minesweeper.width g) c
                  ∩ Minesweeper.mines g)).
Proof.
  rewrite nearby_mines_fold, nearby_fold, Z.add_0_l.
  rewrite <- (size_list_to_set (C := gset (Z * Z)))
    by apply NoDup_filter, NoDup_around.
  do 2 f_equal. apply set_eq. intros n.
  rewrite elem_of_list_to_set, list_elem_of_filter, elem_of_intersection,
    elem_of_neighbors8, elem_of_around.
  tauto.
Qed.

End scans.

(** ** Ingesting an observation *)

Section ingest.

Implicit Types (c n : Z * Z) (a : MinesweeperAI.t) (g : Minesweeper.t)
               (s : Sentence.t).

Lemma sentence_mark_safe_remove c s :
  Sentence.mark_safe c s = remove_safes {[c]} s.
Proof.
  rewrite <- (remove_safes_empty s) at 1. rewrite mark_safe_remove_safes.
  by rewrite (right_id_L ∅ (∪)).
Qed.

Lemma new_sentence_spec a c count :
  MinesweeperAI.new_sentence a c count =
  Sentence.mk
    (filter (λ n, (n ∉ MinesweeperAI.mines a) ∧ (n ∉ MinesweeperAI.safes a))
            (neighbors8 (MinesweeperAI.height a) (MinesweeperAI.width a) c))
    (count - Z.of_nat (size
       (neighbors8 (MinesweeperAI.height a) (MinesweeperAI.width a) c
        ∩ MinesweeperAI.mines a))).
Proof.
  unfold MinesweeperAI.new_sentence. rewrite scan_neighbors_spec. simpl.
  f_equal. apply set_eq. intros n.
  rewrite !elem_of_filter, elem_of_neighbors8. unfold adjacent. set_solver.
Qed.

Lemma ingest_height a c count :
  MinesweeperAI.height (MinesweeperAI.ingest a c count) = MinesweeperAI.height a
  ∧ MinesweeperAI.width (MinesweeperAI.ingest a c count) = MinesweeperAI.width a.
Proof.
  unfold MinesweeperAI.ingest, MinesweeperAI.add_sentence.
  by case_bool_decide.
Qed.

Lemma update_knowledge_height fuel a a' :
  MinesweeperAI.update_knowledge fuel a = Some a' →
  MinesweeperAI.height a' = MinesweeperAI.height a
  ∧ MinesweeperAI.width a' = MinesweeperAI.width a.
Proof.
  revert a. induction fuel as [|fuel IH]; intros a; [done|].
  rewrite update_knowledge_S, update_round_closed. simpl.
  destruct (round_updated _).
  - intros H%IH. done.
  - by intros [= <-].
Qed.

(** The new sentence is true of any board that the agent's beliefs are
    true of, when the count is the board's. *)
Lemma new_sentence_holds g a c :
  MinesweeperAI.height a = Minesweeper.height g →
  MinesweeperAI.width a = Minesweeper.width g →
  sound (Minesweeper.mines g) a →
  holds (Minesweeper.mines g)
        (MinesweeperAI.new_sentence a c (Minesweeper.nearby_mines g c)).
Proof.
  intros Hh Hw (_ & Hs & Hm). rewrite new_sentence_spec, nearby_mines_spec.
  rewrite Hh, Hw. set (N := neighbors8 _ _ c). set (B := Minesweeper.mines g).
  unfold holds. cbn [Sentence.cells Sentence.count].
  assert (N ∩ B =
          filter (λ n, (n ∉ MinesweeperAI.mines a) ∧ (n ∉ MinesweeperAI.safes a)) N ∩ B
          ∪ N ∩ MinesweeperAI.mines a) as Heq.
  { apply set_eq. intros n.
    rewrite elem_of_union, !elem_of_intersection, elem_of_filter.
    destruct (decide (n ∈ MinesweeperAI.mines a)); set_solver. }
  rewrite Heq.
  rewrite (size_union (filter _ N ∩ B) (N ∩ MinesweeperAI.mines a)).
  - lia.
  - intros n. rewrite !elem_of_intersection, elem_of_filter. tauto.
Qed.

Lemma ingest_sound g a c :
  MinesweeperAI.height a = Minesweeper.height g →
  MinesweeperAI.width a = Minesweeper.width g →
  c ∉ Minesweeper.mines g →
  sound (Minesweeper.mines g) a →
  sound (Minesweeper.mines g)
        (MinesweeperAI.ingest a c (Minesweeper.nearby_mines g c)).
Proof.
  intros Hh Hw Hc Ha. pose proof (new_sentence_holds g a c Hh Hw Ha) as Hnew.
  destruct Ha as (Hk & Hs & Hm).
  assert (sound (Minesweeper.mines g)
            (MinesweeperAI.mark_safe c (MinesweeperAI.with_move c a))) as Hs1.
  { unfold sound; simpl. split; [|set_solver].
    rewrite Forall_fmap. eapply Forall_impl; [exact Hk|]. intros s Hsd. simpl.
    rewrite sentence_mark_safe_remove. apply remove_safes_holds; [set_solver|done]. }
  unfold MinesweeperAI.ingest, MinesweeperAI.add_sentence.
  case_bool_decide; [|done].
  destruct Hs1 as (Hk1 & Hs1 & Hm1). unfold sound; simpl.
  split; [|done]. apply Forall_app. split; [done|]. by apply Forall_singleton.
Qed.

End ingest.

(** ** Reachable agent states *)

Lemma reachable_sound g a :
  reachable g a →
  MinesweeperAI.height a = Minesweeper.height g
  ∧ MinesweeperAI.width a = Minesweeper.width g
  ∧ sound (Minesweeper.mines g) a.
Proof.
  induction 1 as [|a fuel c a' _ (Hh & Hw & Hs) Hc Hadd
                  |a fuel a' _ (Hh & Hw & Hs) Hupd].
  - unfold sound; simpl. repeat split; [constructor|set_solver|set_solver].
  - unfold MinesweeperAI.add_knowledge in Hadd.
    destruct (update_knowledge_height _ _ _ Hadd) as [Hh' Hw'].
    destruct (ingest_height a c (Minesweeper.nearby_mines g c)) as [Hh2 Hw2].
    split; [congruence|]. split; [congruence|].
    eapply update_knowledge_sound; [|exact Hadd]. by apply ingest_sound.
  - destruct (update_knowledge_height _ _ _ Hupd) as [Hh' Hw'].
    split; [congruence|]. split; [congruence|].
    by eapply update_knowledge_sound.
Qed.

(** ** Counting families of subsets *)

Lemma size_inj_le `{Countable K, Countable L}
    (f : K → L) (X : gset K) (Y : gset L) :
  (∀ x, x ∈ X → f x ∈ Y) →
  (∀ x y, x ∈ X → y ∈ X → f x = f y → x = y) →
  (size X ≤ size Y)%nat.
Proof.
  intros Hmap Hinj. unfold size, set_size. simpl.
  rewrite <- (length_fmap f (elements X)).
  apply submseteq_length, NoDup_submseteq.
  - apply NoDup_fmap_2_strong; [|apply NoDup_elements].
    intros x y Hx%elem_of_elements Hy%elem_of_elements. by apply Hinj.
  - intros y (x & -> & Hx%elem_of_elements)%list_elem_of_fmap.
    by apply elem_of_elements, Hmap.
Qed.

Section families.

Context `{Countable K}.

(** A family of subsets of [U] has at most [2 ^ |U|] members. *)
Lemma family_size (U : gset K) (D : gset (gset K)) :
  (∀ X, X ∈ D → X ⊆ U) → (size D ≤ 2 ^ size U)%nat.
Proof.
  revert D. induction U as [|x U Hx IH] using set_ind_L; intros D HD.
  - rewrite size_empty. simpl.
    transitivity (size ({[∅]} : gset (gset K))); [|by rewrite size_singleton].
    apply subseteq_size. intros X HX. apply elem_of_singleton.
    apply HD in HX. set_solver.
  - rewrite (size_union {[x]} U), size_singleton by set_solver.
    set (D1 := filter (λ X, x ∈ X) D). set (D0 := filter (λ X, x ∉ X) D).
    assert (D = D1 ∪ D0) as HDeq.
    { apply set_eq. intros X. subst D1 D0.
      rewrite elem_of_union, !elem_of_filter.
      destruct (decide (x ∈ X)); tauto. }
    assert (D1 ## D0) as Hdisj.
    { intros X. subst D1 D0. rewrite !elem_of_filter. tauto. }
    rewrite HDeq, (size_union D1 D0) by done.
    assert (size D0 ≤ 2 ^ size U)%nat as H0.
    { apply IH. intros X. subst D0. rewrite elem_of_filter.
      intros [Hn HX%HD]. set_solver. }
    set (D1' := set_map (C := gset (gset K)) (D := gset (gset K))
                  (λ X, X ∖ {[x]}) D1).
    assert (size D1' ≤ 2 ^ size U)%nat as H1'.
    { apply IH. intros Y. subst D1'. rewrite elem_of_map.
      intros (X & -> & HX). subst D1. apply elem_of_filter in HX as [_ HX%HD].
      set_solver. }
    assert (size D1 ≤ size D1')%nat as H1.
    { apply (size_inj_le (λ X, X ∖ {[x]})).
      - intros X HX. subst D1'. apply elem_of_map. by exists X.
      - intros X Y. subst D1. rewrite !elem_of_filter.
        intros [HxX _] [HxY _] Heq. apply set_eq. intros z.
        destruct (decide (z = x)) as [->|Hz]; [tauto|].
        assert (z ∈ X ∖ {[x]} ↔ z ∈ Y ∖ {[x]}) as Hiff by by rewrite Heq.
        set_solver. }
    change (2 ^ (1 + size U))%nat with (2 * 2 ^ size U)%nat. lia.
Qed.

End families.

(** ** Termination of the loop on consistent knowledge *)

Section termination.

Implicit Types (s : Sentence.t) (a : MinesweeperAI.t) (k : list Sentence.t).

Lemma elem_of_cells_of k c :
  c ∈ cells_of k ↔ ∃ s, s ∈ k ∧ c ∈ Sentence.cells s.
Proof.
  unfold cells_of. rewrite elem_of_union_list. split.
  - intros (X & (s & -> & Hs)%list_elem_of_fmap & Hc). by exists s.
  - intros (s & Hs & Hc). exists (Sentence.cells s).
    split; [by apply list_elem_of_fmap_2|done].
Qed.

Lemma nonempty_spec s : MinesweeperAI.nonempty s ↔ Sentence.cells s ≠ ∅.
Proof.
  unfold MinesweeperAI.nonempty. case_bool_decide; simpl; split; done.
Qed.

Lemma elem_of_shapes k X :
  X ∈ shapes k ↔ X ≠ ∅ ∧ ∃ s, s ∈ k ∧ Sentence.cells s = X.
Proof.
  unfold shapes. rewrite elem_of_list_to_set, list_elem_of_fmap. split.
  - intros (s & -> & [Hne Hs]%list_elem_of_filter).
    split; [by apply nonempty_spec|by exists s].
  - intros (Hne & s & Hs & <-). exists s. split; [done|].
    apply list_elem_of_filter. split; [by apply nonempty_spec|done].
Qed.

Lemma shapes_bound k : (size (shapes k) ≤ 2 ^ size (cells_of k))%nat.
Proof.
  apply family_size. intros X (_ & s & Hs & <-)%elem_of_shapes c Hc.
  apply elem_of_cells_of. by exists s.
Qed.

Lemma facts_in_cells k : facts_safes k ∪ facts_mines k ⊆ cells_of k.
Proof.
  intros c [(s & Hs & _ & Hc)%elem_of_facts_safes
           |(s & Hs & _ & _ & Hc)%elem_of_facts_mines]%elem_of_union;
    apply elem_of_cells_of; by exists s.
Qed.

Lemma reduced_cells k c :
  c ∈ cells_of (reduced k) ↔
  c ∈ cells_of k ∧ (c ∉ facts_safes k) ∧ (c ∉ facts_mines k).
Proof.
  rewrite !elem_of_cells_of. unfold reduced. split.
  - intros (s' & Hs' & Hc).
    apply list_elem_of_fmap in Hs' as (s1 & -> & Hs1).
    apply list_elem_of_fmap in Hs1 as (s & -> & Hs).
    unfold remove_mines, remove_safes in Hc. simpl in Hc.
    split; [exists s|]; set_solver.
  - intros ((s & Hs & Hc) & Hns & Hnm).
    exists (remove_mines (facts_mines k) (remove_safes (facts_safes k) s)).
    split; [by do 2 apply list_elem_of_fmap_2|].
    unfold remove_mines, remove_safes. simpl. set_solver.
Qed.

Lemma inference_cells k : cells_of (MinesweeperAI.subset_inference k) ⊆ cells_of k.
Proof.
  intros c (x & Hx & Hc)%elem_of_cells_of.
  apply elem_of_subset_inference in Hx as (_ & s1 & s2 & _ & H2 & _ & ->).
  apply elem_of_cells_of. exists s2. split; [done|].
  unfold candidate in Hc. simpl in Hc. set_solver.
Qed.

Lemma round_cells k :
  cells_of (round_knowledge k) = cells_of (reduced k).
Proof.
  apply set_eq. intros c. unfold round_knowledge. rewrite !elem_of_cells_of. split.
  - intros (s & [_ [Hs|Hs]%elem_of_app]%list_elem_of_filter & Hc).
    + by exists s.
    + apply elem_of_cells_of, inference_cells, elem_of_cells_of. by exists s.
  - intros (s & Hs & Hc). exists s. split; [|done].
    apply list_elem_of_filter. split; [|apply elem_of_app; by left].
    apply nonempty_spec. set_solver.
Qed.

(** A round that marks a cell shrinks the set of mentioned cells. *)
Lemma marking_round_cells k :
  facts_safes k ≠ ∅ ∨ facts_mines k ≠ ∅ →
  (size (cells_of (round_knowledge k)) < size (cells_of k))%nat.
Proof.
  intros Hne. apply subset_size. rewrite round_cells.
  assert (∃ c, c ∈ facts_safes k ∪ facts_mines k) as [c Hc].
  { destruct Hne as [Hne|Hne]; apply set_choose_L in Hne as [c Hc];
      exists c; set_solver. }
  split.
  - intros x Hx%reduced_cells. tauto.
  - intros Hsub. pose proof (facts_in_cells k c Hc) as Hin.
    apply Hsub, reduced_cells in Hin. set_solver.
Qed.

Lemma reduced_no_facts k :
  facts_safes k = ∅ → facts_mines k = ∅ → reduced k = k.
Proof.
  intros Hs Hm. unfold reduced. rewrite Hs, Hm, <- list_fmap_compose.
  rewrite <- (list_fmap_id k) at 2. apply list_fmap_ext. intros _ s _. simpl.
  by rewrite remove_safes_empty, remove_mines_empty.
Qed.

End termination.

Section termination_on_board.

Context (B : gset (Z * Z)).
Implicit Types (s : Sentence.t) (a : MinesweeperAI.t) (k : list Sentence.t).

(** On a board, the cell set of a true sentence determines its count. *)
Lemma holds_determines s s' :
  holds B s → holds B s' → Sentence.cells s = Sentence.cells s' → s = s'.
Proof.
  unfold holds. destruct s as [X n], s' as [X' n']. simpl.
  intros <- <- ->. done.
Qed.

Lemma candidate_nonempty s1 s2 :
  holds B s1 → holds B s2 → derivable s1 s2 →
  Sentence.cells (candidate s1 s2) ≠ ∅.
Proof.
  intros H1 H2 (Hne & _ & _ & Hsub) Hemp. apply Hne.
  apply holds_determines; [done..|].
  unfold candidate in Hemp. cbn [Sentence.cells] in Hemp.
  apply set_eq. intros c. split; [apply Hsub|]. intros Hc.
  destruct (decide (c ∈ Sentence.cells s1)) as [|Hn]; [done|].
  assert (c ∈ Sentence.cells s2 ∖ Sentence.cells s1) as Hin
    by (apply elem_of_difference; done).
  rewrite Hemp in Hin. by apply not_elem_of_empty in Hin.
Qed.

(** A round that only infers adds a cell set that was not there. *)
Lemma inference_round_shapes k :
  Forall (holds B) k →
  facts_safes k = ∅ → facts_mines k = ∅ →
  MinesweeperAI.subset_inference k ≠ [] →
  shapes k ⊂ shapes (round_knowledge k).
Proof.
  intros Hk Hs Hm Hinf. unfold round_knowledge.
  rewrite (reduced_no_facts k Hs Hm).
  destruct (MinesweeperAI.subset_inference k) as [|x inf] eqn:Heq; [done|].
  assert (x ∈ MinesweeperAI.subset_inference k) as Hx by (rewrite Heq; left).
  pose proof (subset_inference_holds B k Hk) as Hinfh.
  rewrite Forall_forall in Hk, Hinfh. pose proof (Hinfh x Hx) as Hxh.
  apply elem_of_subset_inference in Hx as (Hnk & s1 & s2 & H1 & H2 & Hd & ->).
  pose proof (candidate_nonempty s1 s2 (Hk s1 H1) (Hk s2 H2) Hd) as Hne.
  split.
  - intros X (HX & s & Hin & <-)%elem_of_shapes. apply elem_of_shapes.
    split; [done|]. exists s. split; [|done].
    apply list_elem_of_filter. split; [by apply nonempty_spec|].
    apply elem_of_app. by left.
  - intros Hsub.
    assert (Sentence.cells (candidate s1 s2) ∈ shapes k) as Hin.
    { apply Hsub, elem_of_shapes. split; [done|].
      exists (candidate s1 s2). split; [|done].
      apply list_elem_of_filter. split; [by apply nonempty_spec|].
      apply elem_of_app. right. left. }
    apply elem_of_shapes in Hin as (_ & y & Hy & Hcy).
    apply Hnk. by rewrite <- (holds_determines y _ (Hk y Hy) Hxh Hcy).
Qed.

Lemma round_measure k :
  Forall (holds B) k → round_updated k = true →
  (measure (round_knowledge k) < measure k)%nat.
Proof.
  intros Hk Hupd. unfold measure.
  pose proof (shapes_bound k) as Hd.
  pose proof (shapes_bound (round_knowledge k)) as Hd'.
  destruct (decide (facts_safes k = ∅ ∧ facts_mines k = ∅)) as [[Hs Hm]|Hmark].
  - assert (MinesweeperAI.subset_inference k ≠ []) as Hinf.
    { unfold round_updated in Hupd.
      rewrite (reduced_no_facts k Hs Hm), Hs, Hm in Hupd.
      rewrite !bool_decide_eq_false_2 in Hupd by (intros Hc; by apply Hc).
      simpl in Hupd. intros Heq. by rewrite Heq in Hupd. }
    pose proof (subset_size _ _ (inference_round_shapes k Hk Hs Hm Hinf)) as Hlt.
    assert (cells_of (round_knowledge k) = cells_of k) as Hc.
    { by rewrite round_cells, (reduced_no_facts k Hs Hm). }
    rewrite Hc in *. lia.
  - assert (facts_safes k ≠ ∅ ∨ facts_mines k ≠ ∅) as Hne.
    { destruct (decide (facts_safes k = ∅)); [|by left].
      destruct (decide (facts_mines k = ∅)); [tauto|by right]. }
    pose proof (marking_round_cells k Hne) as Hlt.
    assert (2 * 2 ^ size (cells_of (round_knowledge k))
            ≤ 2 ^ size (cells_of k))%nat as Hpow.
    { rewrite <- Nat.pow_succ_r'. apply Nat.pow_le_mono_r; lia. }
    assert (0 < 2 ^ size (cells_of (round_knowledge k)))%nat as Hpos.
    { apply Nat.neq_0_lt_0, Nat.pow_nonzero. lia. }
    lia.
Qed.

(** The loop stops within [measure + 1] rounds. *)
Lemma update_knowledge_terminates fuel a :
  Forall (holds B) (MinesweeperAI.knowledge a) →
  (measure (MinesweeperAI.knowledge a) < fuel)%nat →
  ∃ a', MinesweeperAI.update_knowledge fuel a = Some a'.
Proof.
  revert a. induction fuel as [|fuel IH]; intros a Hk Hlt; [lia|].
  rewrite update_knowledge_S, update_round_closed. simpl.
  destruct (round_updated (MinesweeperAI.knowledge a)) eqn:Hupd; [|by eexists].
  apply IH; simpl.
  - by apply round_knowledge_holds.
  - pose proof (round_measure _ Hk Hupd). lia.
Qed.

End termination_on_board.

Lemma update_knowledge_fuel_mono fuel fuel' a a' :
  MinesweeperAI.update_knowledge fuel a = Some a' → (fuel ≤ fuel')%nat →
  MinesweeperAI.update_knowledge fuel' a = Some a'.
Proof.
  revert fuel' a. induction fuel as [|fuel IH]; intros fuel' a; [done|].
  intros Hrun Hle. destruct fuel' as [|fuel']; [lia|].
  rewrite update_knowledge_S in *.
  destruct (MinesweeperAI.update_round a).2; [|done].
  apply IH; [done|lia].
Qed.

(** ** Number of rounds *)

Lemma rounds_update_knowledge fuel a :
  match MinesweeperAI.rounds fuel a with
  | Some r => (1 ≤ r ≤ fuel)%nat ∧ is_Some (MinesweeperAI.update_knowledge fuel a)
  | None => MinesweeperAI.update_knowledge fuel a = None
  end.
Proof.
  revert a. induction fuel as [|fuel IH]; intros a; [done|].
  rewrite rounds_S, update_knowledge_S.
  destruct (MinesweeperAI.update_round a).2.
  - specialize (IH (MinesweeperAI.update_round a).1).
    destruct (MinesweeperAI.rounds fuel _) as [r|]; simpl; [|done].
    destruct IH as [Hr Hsome]. split; [lia|done].
  - split; [lia|by eexists].
Qed.

(** On knowledge that is true of a board the loop runs at most
    [measure + 1] rounds. *)
Lemma rounds_bounded B a :
  Forall (holds B) (MinesweeperAI.knowledge a) →
  ∃ r, MinesweeperAI.rounds (S (measure (MinesweeperAI.knowledge a))) a = Some r
       ∧ (r ≤ S (measure (MinesweeperAI.knowledge a)))%nat.
Proof.
  intros Hk.
  destruct (update_knowledge_terminates B
              (S (measure (MinesweeperAI.knowledge a))) a Hk) as [a' Ha']; [lia|].
  pose proof (rounds_update_knowledge
                (S (measure (MinesweeperAI.knowledge a))) a) as Hr.
  destruct (MinesweeperAI.rounds _ a) as [r|]; [|congruence].
  exists r. split; [done|]. destruct Hr as [Hr _]. lia.
Qed.

(** Under the driver's contract every observation is ingested by a
    propagation that stops. *)
Lemma reachable_observation_terminates g a c :
  reachable g a → c ∉ Minesweeper.mines g →
  ∃ fuel a',
    MinesweeperAI.add_knowledge fuel a c (Minesweeper.nearby_mines g c) = Some a'
    ∧ reachable g a'.
Proof.
  intros Hreach Hc.
  pose proof (reachable_sound g a Hreach) as (Hh & Hw & Hs).
  pose proof (ingest_sound g a c Hh Hw Hc Hs) as (Hk & _ & _).
  set (b := MinesweeperAI.ingest a c (Minesweeper.nearby_mines g c)) in *.
  destruct (update_knowledge_terminates (Minesweeper.mines g)
              (S (measure (MinesweeperAI.knowledge b))) b Hk) as [a' Ha']; [lia|].
  exists (S (measure (MinesweeperAI.knowledge b))), a'. split; [done|].
  by eapply reach_observe.
Qed.

(** Nine sentences over the nine cells of the 3 x 3 grid, all true of the
    board with mines at [(1,0)], [(1,2)], [(2,0)] and [(2,1)], on which the
    loop runs 19 rounds: truth on a board alone does not bound the number
    of rounds by the number of cells plus the number of sentences. *)
Example rounds_on_consistent_knowledge :
  let B : gset (Z * Z) := {[(1, 0); (1, 2); (2, 0); (2, 1)]} in
  let k :=
    [Sentence.mk {[(0, 1); (0, 2); (1, 0); (1, 1); (1, 2); (2, 1)]} 3;
     Sentence.mk {[(0, 1); (0, 2); (1, 0); (1, 2); (2, 0)]} 3;
     Sentence.mk {[(1, 0); (2, 0); (2, 2)]} 2;
     Sentence.mk {[(0, 0); (1, 1); (1, 2)]} 1;
     Sentence.mk {[(0, 0); (0, 2); (1, 1); (1, 2); (2, 0); (2, 2)]} 2;
     Sentence.mk {[(0, 0); (0, 2); (1, 0); (1, 1); (2, 1); (2, 2)]} 2;
     Sentence.mk {[(0, 0); (0, 1); (0, 2); (1, 0); (2, 0); (2, 1)]} 3;
     Sentence.mk {[(0, 0); (2, 1); (2, 2)]} 1;
     Sentence.mk {[(0, 1); (0, 2); (1, 1); (1, 2); (2, 0); (2, 1); (2, 2)]} 3] in
  let a := MinesweeperAI.set_knowledge k (MinesweeperAI.init 3 3) in
  sound B a ∧ MinesweeperAI.rounds 19 a = Some 19%nat.
Proof.
  intros B k a. split.
  - unfold sound. split; [|split; by_compute].
    repeat constructor; vm_compute; reflexivity.
  - vm_compute. reflexivity.
Qed.

(** ** Monotonicity of [safes] and [mines] *)

Lemma update_round_grows a :
  MinesweeperAI.safes a ⊆ MinesweeperAI.safes (MinesweeperAI.update_round a).1
  ∧ MinesweeperAI.mines a ⊆ MinesweeperAI.mines (MinesweeperAI.update_round a).1.
Proof. rewrite update_round_closed; simpl. set_solver. Qed.

(** Monotonicity: a call of [update_knowledge] only adds to [safes] and
    [mines]. *)
Lemma update_knowledge_grows fuel a a' :
  MinesweeperAI.update_knowledge fuel a = Some a' →
  MinesweeperAI.safes a ⊆ MinesweeperAI.safes a'
  ∧ MinesweeperAI.mines a ⊆ MinesweeperAI.mines a'.
Proof.
  revert a. induction fuel as [|fuel IH]; intros a; [done|].
  rewrite update_knowledge_S. pose proof (update_round_grows a) as [Hs Hm].
  destruct (MinesweeperAI.update_round a).2.
  - intros [Hs' Hm']%IH. split; set_solver.
  - by intros [= <-].
Qed.

(** The facts read off the stored sentences are recorded by the first
    round. *)
Lemma update_knowledge_facts fuel a a' :
  MinesweeperAI.update_knowledge fuel a = Some a' →
  facts_safes (MinesweeperAI.knowledge a) ⊆ MinesweeperAI.safes a'
  ∧ facts_mines (MinesweeperAI.knowledge a) ⊆ MinesweeperAI.mines a'.
Proof.
  destruct fuel as [|fuel]; [done|]. rewrite update_knowledge_S.
  assert (facts_safes (MinesweeperAI.knowledge a)
            ⊆ MinesweeperAI.safes (MinesweeperAI.update_round a).1
          ∧ facts_mines (MinesweeperAI.knowledge a)
            ⊆ MinesweeperAI.mines (MinesweeperAI.update_round a).1) as [Hs Hm].
  { rewrite update_round_closed; simpl. set_solver. }
  destruct (MinesweeperAI.update_round a).2.
  - intros [Hs' Hm']%update_knowledge_grows. split; set_solver.
  - by intros [= <-].
Qed.

(** ** Subset subtraction *)

Lemma update_round_mark_facts a :
  MinesweeperAI.update_round a =
  (MinesweeperAI.set_knowledge
     (filter (λ s, MinesweeperAI.nonempty s)
        (MinesweeperAI.knowledge (MinesweeperAI.mark_facts a)
         ++ MinesweeperAI.subset_inference
              (MinesweeperAI.knowledge (MinesweeperAI.mark_facts a))))
     (MinesweeperAI.mark_facts a),
   (MinesweeperAI.update_round a).2).
Proof.
  unfold MinesweeperAI.update_round, MinesweeperAI.mark_facts.
  by destruct (MinesweeperAI.extract_facts (MinesweeperAI.knowledge a)).
Qed.

Lemma size_2 (x y : Z * Z) : x ≠ y → size ({[x; y]} : gset (Z * Z)) = 2%nat.
Proof.
  intros Hne. rewrite (size_union {[x]} {[y]}) by set_solver.
  by rewrite !size_singleton.
Qed.

Lemma size_3 (x y z : Z * Z) :
  x ≠ y → x ≠ z → y ≠ z → size ({[x; y; z]} : gset (Z * Z)) = 3%nat.
Proof.
  intros Hxy Hxz Hyz. rewrite (size_union {[x; y]} {[z]}) by set_solver.
  by rewrite size_2, size_singleton.
Qed.

(** The scenario of the specification, for any three distinct cells and
    whatever the order in which the two sentences are stored. *)
Lemma subset_scenario a A B C :
  A ≠ B → A ≠ C → B ≠ C →
  (∀ s, s ∈ MinesweeperAI.knowledge a
        ↔ s = Sentence.mk {[A; B; C]} 2 ∨ s = Sentence.mk {[A; B]} 1) →
  ∃ fuel a', MinesweeperAI.update_knowledge fuel a = Some a'
             ∧ C ∈ MinesweeperAI.mines a'.
Proof.
  intros HAB HAC HBC Hk.
  set (s1 := Sentence.mk {[A; B; C]} 2) in *.
  set (s2 := Sentence.mk {[A; B]} 1) in *.
  set (k := MinesweeperAI.knowledge a) in *.
  (* the two sentences are true of the board with mines at A and C *)
  assert (Forall (holds {[A; C]}) k) as Hholds.
  { apply Forall_forall. intros s [->| ->]%Hk; unfold holds, s1, s2;
      cbn [Sentence.cells Sentence.count].
    - replace ({[A; B; C]} ∩ {[A; C]}) with ({[A; C]} : gset (Z * Z))
        by set_solver.
      by rewrite size_2.
    - replace ({[A; B]} ∩ {[A; C]}) with ({[A]} : gset (Z * Z)) by set_solver.
      by rewrite size_singleton. }
  destruct (update_knowledge_terminates {[A; C]} (S (measure k)) a Hholds)
    as [a' Hrun]; [unfold k; lia|].
  exists (S (measure k)), a'. split; [done|].
  (* the first round extracts no fact and derives ({C}, 1) *)
  assert (facts_safes k = ∅) as Hfs.
  { apply set_eq. intros c. rewrite elem_of_facts_safes. split; [|set_solver].
    intros (s & [->| ->]%Hk & H0 & _); done. }
  assert (facts_mines k = ∅) as Hfm.
  { apply set_eq. intros c. rewrite elem_of_facts_mines. split; [|set_solver].
    intros (s & [->| ->]%Hk & Hsz & _).
    - unfold s1 in Hsz. cbn [Sentence.cells Sentence.count] in Hsz.
      rewrite size_3 in Hsz by done. lia.
    - unfold s2 in Hsz. cbn [Sentence.cells Sentence.count] in Hsz.
      rewrite size_2 in Hsz by done. lia. }
  assert (Sentence.cells (candidate s2 s1) = {[C]}) as Hcells.
  { unfold candidate, s1, s2; cbn [Sentence.cells]. set_solver. }
  assert (candidate s2 s1 ∉ k) as Hnk.
  { intros Hin%Hk.
    assert (A ∈ Sentence.cells (candidate s2 s1)) as HA.
    { destruct Hin as [Hin|Hin]; rewrite Hin; unfold s1, s2;
        cbn [Sentence.cells]; set_solver. }
    rewrite Hcells in HA. set_solver. }
  assert (candidate s2 s1 ∈ MinesweeperAI.subset_inference k) as Hinf.
  { assert (candidate s2 s1 ∈ k ++ MinesweeperAI.subset_inference k) as Hin.
    { apply subset_inference_complete.
      - apply Hk. by right.
      - apply Hk. by left.
      - unfold derivable. subst s1 s2; simpl.
        split; [intros [=]|]. split; [set_solver|]. split; set_solver. }
    apply elem_of_app in Hin as [Hin|Hin]; [done|done]. }
  rewrite update_knowledge_S, update_round_closed in Hrun. simpl in Hrun.
  fold k in Hrun.
  assert (round_updated k = true) as Hupd.
  { unfold round_updated. rewrite (reduced_no_facts k Hfs Hfm).
    destruct (MinesweeperAI.subset_inference k); [by apply elem_of_nil in Hinf|].
    rewrite (bool_decide_eq_false_2 (_ :: _ = [])) by done.
    by rewrite orb_true_r. }
  rewrite Hupd in Hrun.
  (* the second round marks C *)
  apply update_knowledge_facts in Hrun as [_ Hmines]. simpl in Hmines.
  apply Hmines, elem_of_facts_mines. exists (candidate s2 s1).
  split; [|split; [|split]].
  - unfold round_knowledge. rewrite (reduced_no_facts k Hfs Hfm).
    apply list_elem_of_filter. split.
    + apply nonempty_spec. rewrite Hcells. set_solver.
    + apply elem_of_app. by right.
  - rewrite Hcells, size_singleton. done.
  - done.
  - rewrite Hcells. set_solver.
Qed.

(** *** Pairs held when a round begins *)

(** The sentences the pair loops read are the stored ones with the facts
    of the round removed. *)
Lemma mark_facts_knowledge a :
  MinesweeperAI.knowledge (MinesweeperAI.mark_facts a)
  = reduced (MinesweeperAI.knowledge a).
Proof.
  unfold MinesweeperAI.mark_facts. rewrite extract_facts_spec.
  fold (facts_safes (MinesweeperAI.knowledge a)).
  fold (facts_mines (MinesweeperAI.knowledge a)).
  set (Fs := facts_safes _). set (Fm := facts_mines _).
  assert ((if bool_decide (Fs ≠ ∅) then MinesweeperAI.mark_all_safe Fs a else a)
          = MinesweeperAI.mark_all_safe Fs a) as ->.
  { case_bool_decide as HS; [done|]. rewrite HS.
    unfold MinesweeperAI.mark_all_safe. by rewrite set_fold_empty. }
  set (a1 := MinesweeperAI.mark_all_safe Fs a).
  assert ((if bool_decide (Fm ≠ ∅) then MinesweeperAI.mark_all_mine Fm a1 else a1)
          = MinesweeperAI.mark_all_mine Fm a1) as ->.
  { case_bool_decide as HM; [done|]. rewrite HM.
    unfold MinesweeperAI.mark_all_mine. by rewrite set_fold_empty. }
  subst a1. rewrite mark_all_mine_closed, mark_all_safe_closed. done.
Qed.

(** Removing marked cells from both sentences of a pair removes them from
    the candidate. *)
Lemma reduce_candidate (S M : gset (Z * Z)) s1 s2 :
  Sentence.cells s1 ⊆ Sentence.cells s2 →
  candidate (remove_mines M (remove_safes S s1))
            (remove_mines M (remove_safes S s2))
  = remove_mines M (remove_safes S (candidate s1 s2)).
Proof.
  intros Hsub. unfold candidate, remove_mines, remove_safes.
  cbn [Sentence.cells Sentence.count].
  set (c1 := Sentence.cells s1) in *. set (c2 := Sentence.cells s2) in *.
  assert ((c2 ∖ S) ∩ M = (c1 ∖ S) ∩ M ∪ ((c2 ∖ c1) ∖ S) ∩ M) as Hsplit.
  { apply set_eq. intros c. destruct (decide (c ∈ c1)); set_solver. }
  rewrite Hsplit.
  rewrite (size_union ((c1 ∖ S) ∩ M) (((c2 ∖ c1) ∖ S) ∩ M)) by set_solver.
  f_equal; [set_solver|lia].
Qed.

Lemma round_candidate k s1 s2 :
  let after s := remove_mines (facts_mines k) (remove_safes (facts_safes k) s) in
  s1 ∈ k → s2 ∈ k → Sentence.cells s1 ⊆ Sentence.cells s2 →
  Sentence.cells (after s1) ≠ ∅ ∨ Sentence.count (after s1) = 0 →
  Sentence.cells (after (candidate s1 s2)) ≠ ∅ →
  after (candidate s1 s2) ∈ round_knowledge k.
Proof.
  intros after H1 H2 Hsub Hs1 Hne. unfold after in *. clear after.
  set (S := facts_safes k) in *. set (M := facts_mines k) in *.
  assert (remove_mines M (remove_safes S s1) ∈ reduced k
          ∧ remove_mines M (remove_safes S s2) ∈ reduced k) as [H1' H2'].
  { unfold reduced. split; by do 2 apply list_elem_of_fmap_2. }
  rewrite <- (reduce_candidate S M s1 s2 Hsub) in *.
  set (r1 := remove_mines M (remove_safes S s1)) in *.
  set (r2 := remove_mines M (remove_safes S s2)) in *.
  unfold round_knowledge. apply list_elem_of_filter.
  split; [by apply nonempty_spec|].
  destruct (decide (Sentence.cells r1 = ∅)) as [Hemp|Hnemp].
  - destruct Hs1 as [Hs1|Hs1]; [done|]. apply elem_of_app. left.
    replace (candidate r1 r2) with r2; [done|].
    unfold candidate. rewrite Hemp, Hs1, difference_empty_L, Z.sub_0_r.
    by destruct r2.
  - apply subset_inference_complete; [done|done|].
    unfold candidate in Hne. cbn [Sentence.cells] in Hne.
    split_and!; [|done| |].
    + intros Heq. apply Hne. rewrite Heq. set_solver.
    + intros Hemp. apply Hne. rewrite Hemp. set_solver.
    + unfold r1, r2, remove_mines, remove_safes. cbn [Sentence.cells].
      set_solver.
Qed.

(** On knowledge that is true of a board, a sentence emptied by the facts
    of the round is left with count 0. *)
Lemma emptied_count (B : gset (Z * Z)) k s :
  Forall (holds B) k → s ∈ k →
  let s' := remove_mines (facts_mines k) (remove_safes (facts_safes k) s) in
  Sentence.cells s' = ∅ → Sentence.count s' = 0.
Proof.
  intros Hk Hs s' Hemp.
  assert (holds B s') as Hh.
  { apply remove_mines_holds; [by apply facts_mines_sound|].
    apply remove_safes_holds; [by apply facts_safes_sound|].
    rewrite Forall_forall in Hk. by apply Hk. }
  unfold holds in Hh. rewrite Hemp in Hh.
  rewrite intersection_empty_l_L, size_empty in Hh. lia.
Qed.

(** ** Fixed points of the loop *)

(** A completed call ends with a round that changes nothing but the
    discarded empty sentences. *)
Lemma update_knowledge_last_round fuel a a' :
  MinesweeperAI.update_knowledge fuel a = Some a' →
  ∃ b, MinesweeperAI.update_round b = (a', false).
Proof.
  revert a. induction fuel as [|fuel IH]; intros a; [done|].
  rewrite update_knowledge_S.
  destruct (MinesweeperAI.update_round a) as [a1 upd] eqn:Hr. simpl.
  destruct upd; [apply IH|]. intros [= <-]. by exists a.
Qed.

Lemma filter_nonempty_idemp (k : list Sentence.t) :
  filter (λ s, MinesweeperAI.nonempty s) (filter (λ s, MinesweeperAI.nonempty s) k)
  = filter (λ s, MinesweeperAI.nonempty s) k.
Proof.
  induction k as [|s k IH]; [done|].
  rewrite filter_cons. case_decide as Hs; [|done].
  rewrite filter_cons, decide_True by done. by rewrite IH.
Qed.

Lemma facts_safes_filter (k : list Sentence.t) :
  facts_safes (filter (λ s, MinesweeperAI.nonempty s) k) ⊆ facts_safes k.
Proof.
  intros c (s & [_ Hs]%list_elem_of_filter & H0 & Hc)%elem_of_facts_safes.
  apply elem_of_facts_safes. by exists s.
Qed.

Lemma facts_mines_filter (k : list Sentence.t) :
  facts_mines (filter (λ s, MinesweeperAI.nonempty s) k) ⊆ facts_mines k.
Proof.
  intros c (s & [_ Hs]%list_elem_of_filter & H0 & H1 & Hc)%elem_of_facts_mines.
  apply elem_of_facts_mines. by exists s.
Qed.

Lemma round_updated_false k :
  round_updated k = false →
  facts_safes k = ∅ ∧ facts_mines k = ∅ ∧ MinesweeperAI.subset_inference k = [].
Proof.
  unfold round_updated. intros Hupd.
  apply orb_false_elim in Hupd as [Hupd Hinf].
  apply orb_false_elim in Hupd as [Hs Hm].
  apply bool_decide_eq_false in Hs. apply bool_decide_eq_false in Hm.
  apply dec_stable in Hs. apply dec_stable in Hm.
  rewrite (reduced_no_facts k Hs Hm) in Hinf.
  apply negb_false_iff, bool_decide_eq_true in Hinf. done.
Qed.

(** The state left by a non-updating round is a fixed point of the round,
    when it is free of conflicts. *)
Lemma update_round_fixed b a' :
  MinesweeperAI.update_round b = (a', false) →
  conflict_free (MinesweeperAI.knowledge a') →
  MinesweeperAI.update_round a' = (a', false).
Proof.
  rewrite update_round_closed. intros [= <- Hupd] Hcf.
  apply round_updated_false in Hupd as (Hs & Hm & Hinf).
  set (kb := MinesweeperAI.knowledge b) in *.
  rewrite update_round_closed. cbn [MinesweeperAI.knowledge] in *.
  unfold round_knowledge in *. rewrite (reduced_no_facts kb Hs Hm), Hinf, app_nil_r in *.
  set (k' := filter (λ s, MinesweeperAI.nonempty s) kb) in *.
  assert (facts_safes k' = ∅) as Hs'.
  { pose proof (facts_safes_filter kb). set_solver. }
  assert (facts_mines k' = ∅) as Hm'.
  { pose proof (facts_mines_filter kb). set_solver. }
  assert (MinesweeperAI.subset_inference k' = []) as Hinf'.
  { destruct (MinesweeperAI.subset_inference k') as [|x inf] eqn:Heq; [done|].
    exfalso.
    assert (x ∈ MinesweeperAI.subset_inference k') as Hx by (rewrite Heq; left).
    apply elem_of_subset_inference in Hx as (Hnk & s1 & s2 & H1 & H2 & Hd & ->).
    pose proof H1 as [_ H1b]%list_elem_of_filter.
    pose proof H2 as [_ H2b]%list_elem_of_filter.
    pose proof (subset_inference_complete kb s1 s2 H1b H2b Hd) as Hin.
    rewrite Hinf, app_nil_r in Hin.
    destruct Hd as (Hne & He1 & He2 & Hsub).
    destruct (decide (Sentence.cells (candidate s1 s2) = ∅)) as [Hemp|Hnemp].
    - apply Hne, Hcf; [done|done| |done].
      unfold candidate in Hemp. cbn [Sentence.cells] in Hemp.
      apply set_eq. intros c. split; [apply Hsub|]. intros Hc.
      destruct (decide (c ∈ Sentence.cells s1)) as [|Hn]; [done|].
      assert (c ∈ Sentence.cells s2 ∖ Sentence.cells s1) as Hdiff
        by (apply elem_of_difference; done).
      rewrite Hemp in Hdiff. by apply not_elem_of_empty in Hdiff.
    - apply Hnk, list_elem_of_filter. split; [by apply nonempty_spec|done]. }
  unfold round_updated. rewrite (reduced_no_facts k' Hs' Hm'), Hs', Hm', Hinf'.
  rewrite app_nil_r. subst k'. rewrite filter_nonempty_idemp.
  rewrite !(left_id_L ∅ (∪)).
  rewrite !bool_decide_eq_false_2 by (intros Hc; by apply Hc).
  rewrite bool_decide_eq_true_2 by done. done.
Qed.

Lemma holds_conflict_free B k : Forall (holds B) k → conflict_free k.
Proof.
  intros Hk s s' Hs Hs' Heq _. rewrite Forall_forall in Hk.
  apply (holds_determines B); auto.
Qed.

(** A state on which every round reports an update and returns the same
    state is one on which the loop never stops. *)
Lemma update_knowledge_diverges a :
  MinesweeperAI.update_round a = (a, true) →
  ∀ fuel, MinesweeperAI.update_knowledge fuel a = None.
Proof.
  intros Hr fuel. induction fuel as [|fuel IH]; [done|].
  by rewrite update_knowledge_S, Hr.
Qed.

(** ** Insertion *)

Lemma add_sentence_present s a :
  s ∈ MinesweeperAI.knowledge a → MinesweeperAI.add_sentence s a = a.
Proof.
  intros Hs. unfold MinesweeperAI.add_sentence.
  by rewrite bool_decide_eq_false_2 by (intros Hn; by apply Hn).
Qed.

Lemma add_sentence_NoDup s a :
  NoDup (MinesweeperAI.knowledge a) →
  NoDup (MinesweeperAI.knowledge (MinesweeperAI.add_sentence s a)).
Proof.
  intros Hnd. unfold MinesweeperAI.add_sentence.
  case_bool_decide as Hs; [|done]. simpl.
  apply NoDup_app. split; [done|]. split; [|apply NoDup_singleton].
  intros x Hx ->%list_elem_of_singleton. done.
Qed.

Lemma subset_inference_fresh k :
  NoDup k → NoDup (k ++ MinesweeperAI.subset_inference k).
Proof.
  intros Hnd. apply NoDup_app. split; [done|].
  split; [|apply subset_inference_NoDup].
  intros x Hx [Hn _]%elem_of_subset_inference. done.
Qed.

(** ** Sentences with out-of-range counts *)

(** A sentence whose count is negative or exceeds the size of its cell
    set states no fact. *)
Lemma invalid_no_facts s :
  Sentence.count s < 0 ∨ Sentence.count s > Z.of_nat (size (Sentence.cells s)) →
  Sentence.known_safes s = ∅ ∧ Sentence.known_mines s = ∅.
Proof.
  intros Hbad. unfold Sentence.known_safes, Sentence.known_mines.
  rewrite (bool_decide_eq_false_2 (Sentence.count s = 0)) by lia.
  by rewrite (bool_decide_eq_false_2 (Z.of_nat _ = _)) by lia.
Qed.

Lemma new_sentence_stored a cell count :
  MinesweeperAI.new_sentence a cell count
  ∈ MinesweeperAI.knowledge (MinesweeperAI.ingest a cell count).
Proof.
  unfold MinesweeperAI.ingest, MinesweeperAI.add_sentence.
  case_bool_decide as Hin; simpl.
  - apply elem_of_app. right. left.
  - done.
Qed.

Lemma round_keeps_reduced a s :
  s ∈ MinesweeperAI.knowledge a →
  let k := MinesweeperAI.knowledge a in
  let s' := remove_mines (facts_mines k) (remove_safes (facts_safes k) s) in
  Sentence.cells s' ≠ ∅ →
  s' ∈ MinesweeperAI.knowledge (MinesweeperAI.update_round a).1.
Proof.
  intros Hs k s' Hne. rewrite update_round_closed. simpl.
  unfold round_knowledge. apply list_elem_of_filter.
  split; [by apply nonempty_spec|].
  apply elem_of_app. left. unfold reduced.
  by do 2 apply list_elem_of_fmap_2.
Qed.

(** The loop of [update_knowledge] has no way out but [updated] being
    false: it is still running after [fuel] rounds exactly when each of
    these rounds reported an update. *)
Lemma after_rounds_S n a :
  after_rounds (S n) a = after_rounds n (MinesweeperAI.update_round a).1.
Proof. unfold after_rounds. by rewrite Nat.iter_succ_r. Qed.

Lemma update_knowledge_None fuel a :
  MinesweeperAI.update_knowledge fuel a = None
  ↔ ∀ i, (i < fuel)%nat →
         (MinesweeperAI.update_round (after_rounds i a)).2 = true.
Proof.
  revert a. induction fuel as [|fuel IH]; intros a.
  - split; [intros _ i Hi; lia|done].
  - rewrite update_knowledge_S. split.
    + destruct (MinesweeperAI.update_round a).2 eqn:Hupd; [|done].
      intros Hrun i Hi. destruct i as [|i]; [exact Hupd|].
      rewrite after_rounds_S. apply (proj1 (IH _) Hrun). lia.
    + intros Hall. pose proof (Hall 0%nat ltac:(lia)) as H0.
      change (after_rounds 0 a) with a in H0. rewrite H0.
      apply IH. intros i Hi. rewrite <- after_rounds_S. apply Hall. lia.
Qed.

(** Removing marked cells keeps a count negative, and keeps it above the
    number of cells. *)
Lemma reduce_below (S M : gset (Z * Z)) s :
  Sentence.count s < 0 →
  Sentence.count (remove_mines M (remove_safes S s)) < 0.
Proof.
  unfold remove_mines, remove_safes. cbn [Sentence.cells Sentence.count]. lia.
Qed.

Lemma reduce_above (S M : gset (Z * Z)) s :
  Sentence.count s > Z.of_nat (size (Sentence.cells s)) →
  Sentence.count (remove_mines M (remove_safes S s))
  > Z.of_nat (size (Sentence.cells (remove_mines M (remove_safes S s)))).
Proof.
  unfold remove_mines, remove_safes. cbn [Sentence.cells Sentence.count].
  intros Habove. set (c := Sentence.cells s ∖ S).
  assert (size c ≤ size (Sentence.cells s))%nat as Hle
    by (apply subseteq_size; set_solver).
  assert (c = c ∖ M ∪ c ∩ M) as Hsplit.
  { apply set_eq. intros x. destruct (decide (x ∈ M)); set_solver. }
  assert (size c = size (c ∖ M) + size (c ∩ M))%nat as Hsz.
  { rewrite Hsplit at 1. apply (size_union (c ∖ M) (c ∩ M)). set_solver. }
  lia.
Qed.

(** A stored sentence with a property that the removal of marked cells
    preserves is carried through a call that returns: it is still stored,
    with the cells marked meanwhile removed, unless all its cells were
    marked. *)
Lemma update_knowledge_carries (P : Sentence.t → Prop) fuel a a' s :
  (∀ S M x, P x → P (remove_mines M (remove_safes S x))) →
  MinesweeperAI.update_knowledge fuel a = Some a' →
  s ∈ MinesweeperAI.knowledge a → P s →
  ∃ s', P s' ∧ Sentence.cells s' ⊆ Sentence.cells s
        ∧ Sentence.cells s ∖ Sentence.cells s'
          ⊆ MinesweeperAI.safes a' ∪ MinesweeperAI.mines a'
        ∧ (Sentence.cells s' ≠ ∅ → s' ∈ MinesweeperAI.knowledge a').
Proof.
  intros HP. revert a s. induction fuel as [|fuel IH]; intros a s; [done|].
  rewrite update_knowledge_S, update_round_closed. cbn [fst snd].
  set (k := MinesweeperAI.knowledge a).
  set (r := remove_mines (facts_mines k) (remove_safes (facts_safes k) s)).
  intros Hrun Hs Ps.
  assert (P r) as Pr by (by apply HP).
  assert (Sentence.cells r ⊆ Sentence.cells s
          ∧ Sentence.cells s ∖ Sentence.cells r
            ⊆ facts_safes k ∪ facts_mines k) as [Hsub Hmarked].
  { unfold r, remove_mines, remove_safes. cbn [Sentence.cells].
    split; [set_solver|]. intros x [Hx Hn]%elem_of_difference.
    destruct (decide (x ∈ facts_safes k)); [set_solver|].
    destruct (decide (x ∈ facts_mines k)); set_solver. }
  assert (Sentence.cells r ≠ ∅ → r ∈ round_knowledge k) as Hkeep.
  { intros Hne. unfold round_knowledge. apply list_elem_of_filter.
    split; [by apply nonempty_spec|]. apply elem_of_app. left.
    unfold reduced, r. by do 2 apply list_elem_of_fmap_2. }
  destruct (round_updated k).
  - pose proof (update_knowledge_grows _ _ _ Hrun) as [Hgs Hgm].
    cbn [MinesweeperAI.safes MinesweeperAI.mines] in Hgs, Hgm.
    destruct (decide (Sentence.cells r = ∅)) as [Hemp|Hne].
    + exists r. split_and!; [done|done|set_solver|done].
    + destruct (IH _ r Hrun (Hkeep Hne) Pr) as (s' & Ps' & Hsub' & Hm' & Hin').
      exists s'. split_and!; [done|set_solver| |done].
      intros x [Hx Hn]%elem_of_difference.
      destruct (decide (x ∈ Sentence.cells r)) as [Hr|Hr].
      * apply Hm'. set_solver.
      * assert (x ∈ facts_safes k ∪ facts_mines k) as Hf
          by (apply Hmarked; set_solver).
        set_solver.
  - injection Hrun as <-.
    cbn [MinesweeperAI.safes MinesweeperAI.mines MinesweeperAI.knowledge].
    exists r. split_and!; [done|done|set_solver|done].
Qed.

(** A fresh agent given an observation with a count that no board can
    give. *)
Lemma subset_inference_singleton s : MinesweeperAI.subset_inference [s] = [].
Proof.
  destruct (MinesweeperAI.subset_inference [s]) as [|x l] eqn:Heq; [done|].
  assert (x ∈ MinesweeperAI.subset_inference [s]) as Hx by (rewrite Heq; left).
  apply elem_of_subset_inference in Hx as (_ & s1 & s2 & H1 & H2 & Hd & _).
  apply list_elem_of_singleton in H1, H2. destruct Hd as [Hne _]. congruence.
Qed.

Lemma fresh_observation (h w : Z) cell count (n : nat) :
  let N := neighbors8 h w cell in
  N ≠ ∅ → count < 0 ∨ count > Z.of_nat (size N) →
  MinesweeperAI.add_knowledge (S n) (MinesweeperAI.init h w) cell count
  = Some (MinesweeperAI.mk h w {[cell]} ∅ {[cell]} [Sentence.mk N count]).
Proof.
  intros N HN Hbad.
  assert (MinesweeperAI.new_sentence (MinesweeperAI.init h w) cell count
          = Sentence.mk N count) as Hnew.
  { rewrite new_sentence_spec. cbn [MinesweeperAI.init MinesweeperAI.height
      MinesweeperAI.width MinesweeperAI.mines MinesweeperAI.safes]. fold N.
    rewrite intersection_empty_r_L, size_empty, Z.sub_0_r. f_equal.
    apply set_eq. intros x. rewrite elem_of_filter. set_solver. }
  assert (MinesweeperAI.ingest (MinesweeperAI.init h w) cell count
          = MinesweeperAI.mk h w {[cell]} ∅ {[cell]} [Sentence.mk N count])
    as Hin.
  { unfold MinesweeperAI.ingest. rewrite Hnew.
    unfold MinesweeperAI.add_sentence, MinesweeperAI.mark_safe,
      MinesweeperAI.with_move, MinesweeperAI.set_knowledge, MinesweeperAI.init.
    cbn. rewrite bool_decide_eq_true_2 by apply not_elem_of_nil.
    cbn. by rewrite !(right_id_L ∅ (∪)). }
  unfold MinesweeperAI.add_knowledge. rewrite Hin.
  set (sN := Sentence.mk N count).
  assert (Sentence.known_safes sN = ∅ ∧ Sentence.known_mines sN = ∅)
    as [Hks Hkm] by (apply invalid_no_facts; exact Hbad).
  assert (facts_safes [sN] = ∅) as Hfs.
  { unfold facts_safes. cbn. rewrite Hks. set_solver. }
  assert (facts_mines [sN] = ∅) as Hfm.
  { unfold facts_mines. cbn. rewrite Hkm. set_solver. }
  rewrite update_knowledge_S, update_round_closed.
  cbn [fst snd MinesweeperAI.knowledge MinesweeperAI.height
       MinesweeperAI.width MinesweeperAI.moves_made MinesweeperAI.mines
       MinesweeperAI.safes].
  unfold round_updated, round_knowledge.
  rewrite (reduced_no_facts [sN] Hfs Hfm), Hfs, Hfm,
    subset_inference_singleton.
  rewrite !bool_decide_eq_false_2 by (intros Hc; by apply Hc).
  rewrite bool_decide_eq_true_2 by done. cbn [negb orb app].
  rewrite !(left_id_L ∅ (∪)). f_equal. f_equal.
  rewrite filter_cons, decide_True by (by apply nonempty_spec). done.
Qed.

(** ** Move selection *)

Lemma elem_of_choices a c :
  c ∈ MinesweeperAI.choices a ↔
  in_bounds (MinesweeperAI.height a) (MinesweeperAI.width a) c
  ∧ (c ∉ MinesweeperAI.moves_made a) ∧ (c ∉ MinesweeperAI.mines a).
Proof.
  unfold MinesweeperAI.choices, in_bounds. destruct c as [i j]. simpl.
  rewrite list_elem_of_bind. split.
  - intros (i' & Hin & Hi). apply elem_of_seqZ in Hi.
    apply list_elem_of_bind in Hin as (j' & Hin & Hj). apply elem_of_seqZ in Hj.
    repeat case_bool_decide; simpl in Hin;
      try (by apply elem_of_nil in Hin).
    apply list_elem_of_singleton in Hin. simplify_eq. split; [lia|done].
  - intros (Hb & Hm & Hn). exists i. split; [|apply elem_of_seqZ; lia].
    apply list_elem_of_bind. exists j. split; [|apply elem_of_seqZ; lia].
    rewrite !bool_decide_eq_true_2 by done. simpl. left.
Qed.

Lemma NoDup_choices a : NoDup (MinesweeperAI.choices a).
Proof.
  unfold MinesweeperAI.choices. apply NoDup_bind; [| |apply NoDup_seqZ].
  - intros i1 i2 c _ _ H1 H2.
    apply list_elem_of_bind in H1 as (j1 & H1 & _).
    apply list_elem_of_bind in H2 as (j2 & H2 & _).
    repeat case_bool_decide; simpl in *;
      try (by apply elem_of_nil in H1); try (by apply elem_of_nil in H2).
    apply list_elem_of_singleton in H1, H2. congruence.
  - intros i _. apply NoDup_bind; [| |apply NoDup_seqZ].
    + intros j1 j2 c _ _ H1 H2.
      repeat case_bool_decide; simpl in *;
        try (by apply elem_of_nil in H1); try (by apply elem_of_nil in H2).
      apply list_elem_of_singleton in H1, H2. congruence.
    + intros j _. case_match; [apply NoDup_singleton|apply NoDup_nil_2].
Qed.

Lemma random_choice_elem {A} (r : nat) (l : list A) :
  l ≠ [] → ∃ x, MinesweeperAI.random_choice r l = Some x ∧ x ∈ l.
Proof.
  intros Hne. unfold MinesweeperAI.random_choice.
  assert (r `mod` length l < length l)%nat as Hlt.
  { apply Nat.mod_upper_bound. by destruct l. }
  destruct (lookup_lt_is_Some_2 l _ Hlt) as [x Hx].
  exists x. split; [done|]. by eapply list_elem_of_lookup_2.
Qed.

Lemma random_choice_index {A} (i : nat) (l : list A) x :
  l !! i = Some x → MinesweeperAI.random_choice i l = Some x.
Proof.
  intros Hx. unfold MinesweeperAI.random_choice.
  rewrite Nat.mod_small; [done|]. by eapply lookup_lt_Some.
Qed.

Lemma make_random_move_result r a :
  (MinesweeperAI.make_random_move r a).1 =
  match MinesweeperAI.choices a with
  | [] => None
  | _ :: _ => MinesweeperAI.random_choice r (MinesweeperAI.choices a)
  end.
Proof. done. Qed.

(** [make_safe_move] returns a safe cell that was not played, and [None]
    only when there is none. *)
Lemma make_safe_move_spec a :
  match (MinesweeperAI.make_safe_move a).1 with
  | Some c => c ∈ MinesweeperAI.safes a ∧ c ∉ MinesweeperAI.moves_made a
  | None => MinesweeperAI.safes a ⊆ MinesweeperAI.moves_made a
  end.
Proof.
  unfold MinesweeperAI.make_safe_move. simpl.
  destruct (List.find _ _) as [c|] eqn:Hf.
  - apply find_some in Hf as [Hin Hc].
    apply list_elem_of_In, elem_of_elements in Hin.
    apply bool_decide_eq_true in Hc. done.
  - intros c Hc. apply elem_of_elements, list_elem_of_In in Hc.
    pose proof (find_none _ _ Hf c Hc) as Hn. simpl in Hn.
    apply bool_decide_eq_false in Hn. by apply dec_stable in Hn.
Qed.


(** * The claims *)

(** C1 (amended) -- Subset-subtraction inference.  Each round of
    [update_knowledge] runs the pair loops on the sentences as they are
    after the round's fact extraction, which removes the cells it marks
    from every stored sentence and can empty one.
    - In every round, each ordered pair of distinct non-empty sentences
      [(s1, s2)] held when the pair loops run, with the cells of [s1]
      included in those of [s2], has its candidate [(cells s2 - cells s1,
      count s2 - count s1)] stored or derived in that round, and the
      candidate is stored after the round when its cell set is not empty.
    - For an ordered pair [(s1, s2)] held when the round begins, with the
      cells of [s1] included in those of [s2], the pair loops see [s1] and
      [s2] with the cells marked in this round removed (and the counts
      lowered by the number of cells removed as mines), and the candidate
      of these two is the candidate of [(s1, s2)] reduced in the same way;
      when the reduced [s1] is not empty or has count 0, the reduced
      candidate is stored after the round if its cell set is not empty.
    - The reduced [s1] is not empty or has count 0 whenever the stored
      sentences are all true of one board.
    - When the stored sentences are exactly [({A,B,C}, 2)] and
      [({A,B}, 1)] for distinct cells, in any order, [update_knowledge]
      returns and [C] is in [mines]. *)
Theorem subset_subtraction a :
  (∀ s1 s2,
     let k := MinesweeperAI.knowledge (MinesweeperAI.mark_facts a) in
     let c := Sentence.mk (Sentence.cells s2 ∖ Sentence.cells s1)
                          (Sentence.count s2 - Sentence.count s1) in
     s1 ∈ k → s2 ∈ k → s1 ≠ s2 →
     Sentence.cells s1 ≠ ∅ → Sentence.cells s2 ≠ ∅ →
     Sentence.cells s1 ⊆ Sentence.cells s2 →
     c ∈ k ++ MinesweeperAI.subset_inference k
     ∧ (Sentence.cells c ≠ ∅ →
        c ∈ MinesweeperAI.knowledge (MinesweeperAI.update_round a).1))
  ∧ (∀ s1 s2,
       let k := MinesweeperAI.knowledge a in
       let after s :=
         remove_mines (facts_mines k) (remove_safes (facts_safes k) s) in
       s1 ∈ k → s2 ∈ k → Sentence.cells s1 ⊆ Sentence.cells s2 →
       after s1 ∈ MinesweeperAI.knowledge (MinesweeperAI.mark_facts a)
       ∧ after s2 ∈ MinesweeperAI.knowledge (MinesweeperAI.mark_facts a)
       ∧ candidate (after s1) (after s2) = after (candidate s1 s2)
       ∧ (Sentence.cells (after s1) ≠ ∅ ∨ Sentence.count (after s1) = 0 →
          Sentence.cells (after (candidate s1 s2)) ≠ ∅ →
          after (candidate s1 s2)
          ∈ MinesweeperAI.knowledge (MinesweeperAI.update_round a).1))
  ∧ (∀ (B : gset (Z * Z)) s,
       let k := MinesweeperAI.knowledge a in
       let after s :=
         remove_mines (facts_mines k) (remove_safes (facts_safes k) s) in
       Forall (holds B) k → s ∈ k →
       Sentence.cells (after s) ≠ ∅ ∨ Sentence.count (after s) = 0)
  ∧ (∀ A B C,
       A ≠ B → A ≠ C → B ≠ C →
       (∀ s, s ∈ MinesweeperAI.knowledge a
             ↔ s = Sentence.mk {[A; B; C]} 2 ∨ s = Sentence.mk {[A; B]} 1) →
       ∃ fuel a', MinesweeperAI.update_knowledge fuel a = Some a'
                  ∧ C ∈ MinesweeperAI.mines a').
Proof.
  split_and!; [| | |apply subset_scenario].
  - intros s1 s2 k c H1 H2 Hne He1 He2 Hsub.
    assert (c ∈ k ++ MinesweeperAI.subset_inference k) as Hin.
    { apply (subset_inference_complete k s1 s2); [done..|].
      by unfold derivable. }
    split; [done|]. intros Hc.
    rewrite update_round_mark_facts. simpl.
    apply list_elem_of_filter. split; [by apply nonempty_spec|done].
  - intros s1 s2 k after H1 H2 Hsub. rewrite mark_facts_knowledge.
    unfold after. split_and!.
    + unfold reduced. by do 2 apply list_elem_of_fmap_2.
    + unfold reduced. by do 2 apply list_elem_of_fmap_2.
    + by apply reduce_candidate.
    + intros Hs1 Hne. rewrite update_round_closed.
      cbn [fst MinesweeperAI.knowledge]. by apply round_candidate.
  - intros B s k after Hk Hs. unfold after.
    destruct (decide (Sentence.cells
                        (remove_mines (facts_mines k)
                           (remove_safes (facts_safes k) s)) = ∅))
      as [Hemp|Hne]; [right|by left].
    by apply (emptied_count B k s).
Qed.

Lemma subset_subtraction_witness :
  let a := MinesweeperAI.set_knowledge
             [Sentence.mk {[(0, 0); (0, 1)]} 1;
              Sentence.mk {[(0, 0); (0, 1); (0, 2)]} 2]
             (MinesweeperAI.init 1 3) in
  (∀ s, s ∈ MinesweeperAI.knowledge a
        ↔ s = Sentence.mk {[(0, 0); (0, 1); (0, 2)]} 2
          ∨ s = Sentence.mk {[(0, 0); (0, 1)]} 1)
  ∧ ∃ fuel a', MinesweeperAI.update_knowledge fuel a = Some a'
               ∧ (0, 2) ∈ MinesweeperAI.mines a'.
Proof.
  intros a.
  assert (∀ s, s ∈ MinesweeperAI.knowledge a
               ↔ s = Sentence.mk {[(0, 0); (0, 1); (0, 2)]} 2
                 ∨ s = Sentence.mk {[(0, 0); (0, 1)]} 1) as Hk.
  { intros s. cbn. rewrite elem_of_cons, list_elem_of_singleton. tauto. }
  split; [exact Hk|].
  apply (proj2 (proj2 (proj2 (subset_subtraction a))) (0, 0) (0, 1) (0, 2));
    done.
Defined.

(** C1 (counterexample) -- on the 2 x 3 board with mines at [(0,0)] and
    [(0,1)], after the board's answers for [(0,2)] and [(1,0)], the answer
    for [(1,1)] leaves the agent holding [({(0,1),(1,2)}, 1)],
    [({(0,0),(0,1)}, 2)] and [({(0,0),(0,1),(1,2)}, 2)] when
    [update_knowledge] is called.  The first and the third are distinct,
    non-empty, and the cells of the first are included in those of the
    third, so their candidate is [({(0,0)}, 1)].  The call returns after
    three rounds, and in none of them is this candidate stored or derived:
    the first round marks [(0,0)] and [(0,1)] as mines from the second
    sentence before the pair loops run. *)
Lemma subset_candidate_not_derived :
  let g := Minesweeper.mk 2 3 {[(0, 0); (0, 1)]} in
  let s1 := Sentence.mk {[(0, 1); (1, 2)]} 1 in
  let s2 := Sentence.mk {[(0, 0); (0, 1)]} 2 in
  let s3 := Sentence.mk {[(0, 0); (0, 1); (1, 2)]} 2 in
  let c := Sentence.mk (Sentence.cells s3 ∖ Sentence.cells s1)
                       (Sentence.count s3 - Sentence.count s1) in
  ∃ a1 a2 b0 b1 b2 b3,
    MinesweeperAI.add_knowledge 1 (MinesweeperAI.init 2 3) (0, 2)
      (Minesweeper.nearby_mines g (0, 2)) = Some a1
    ∧ MinesweeperAI.add_knowledge 1 a1 (1, 0)
        (Minesweeper.nearby_mines g (1, 0)) = Some a2
    ∧ b0 = MinesweeperAI.ingest a2 (1, 1) (Minesweeper.nearby_mines g (1, 1))
    ∧ MinesweeperAI.knowledge b0 = [s1; s2; s3]
    ∧ s1 ≠ s3 ∧ Sentence.cells s1 ≠ ∅ ∧ Sentence.cells s3 ≠ ∅
    ∧ Sentence.cells s1 ⊆ Sentence.cells s3
    ∧ c = Sentence.mk {[(0, 0)]} 1
    ∧ MinesweeperAI.update_round b0 = (b1, true)
    ∧ MinesweeperAI.update_round b1 = (b2, true)
    ∧ MinesweeperAI.update_round b2 = (b3, false)
    ∧ MinesweeperAI.add_knowledge 3 a2 (1, 1)
        (Minesweeper.nearby_mines g (1, 1)) = Some b3
    ∧ Forall (λ b, (c ∉ MinesweeperAI.knowledge b)
                   ∧ (c ∉ MinesweeperAI.subset_inference
                            (MinesweeperAI.knowledge
                               (MinesweeperAI.mark_facts b))))
             [b0; b1; b2; b3].
Proof.
  intros g s1 s2 s3 c. eexists _, _, _, _, _, _.
  split; [vm_compute; reflexivity|].
  split; [vm_compute; reflexivity|].
  split; [reflexivity|].
  split; [vm_compute; reflexivity|].
  split; [by_compute|]. split; [by_compute|]. split; [by_compute|].
  split; [by_compute|].
  split; [vm_compute; reflexivity|].
  split; [vm_compute; reflexivity|].
  split; [vm_compute; reflexivity|].
  split; [vm_compute; reflexivity|].
  split; [vm_compute; reflexivity|].
  repeat constructor; by_compute.
Qed.

(** The same scenario evaluated: three rounds, [C] marked, and the two
    stored sentences reduced to the same value. *)
Example subset_scenario_run :
  let a := MinesweeperAI.set_knowledge
             [Sentence.mk {[(0, 0); (0, 1); (0, 2)]} 2;
              Sentence.mk {[(0, 0); (0, 1)]} 1]
             (MinesweeperAI.init 1 3) in
  MinesweeperAI.update_knowledge 3 a
  = Some (MinesweeperAI.mk 1 3 ∅ {[(0, 2)]} ∅
            [Sentence.mk {[(0, 0); (0, 1)]} 1; Sentence.mk {[(0, 0); (0, 1)]} 1])
  ∧ MinesweeperAI.rounds 3 a = Some 3%nat.
Proof. split; vm_compute; reflexivity. Qed.

(** C2 (amended) -- Soundness of the direct rules.  Once
    [update_knowledge] has run to completion, every cell of a sentence that
    was stored with count 0 is in [safes], and every cell of a sentence
    that was stored with a count equal to the positive size of its cell set
    is in [mines].  When moreover the stored sentences, [safes] and [mines]
    are true of some board [B], [update_knowledge] does run to completion,
    and the former cells are not in [mines] and the latter not in
    [safes]. *)
Theorem direct_rules_sound a s :
  s ∈ MinesweeperAI.knowledge a →
  (∀ fuel a',
     MinesweeperAI.update_knowledge fuel a = Some a' →
     (Sentence.count s = 0 → Sentence.cells s ⊆ MinesweeperAI.safes a')
     ∧ (Sentence.count s = Z.of_nat (size (Sentence.cells s)) →
        Sentence.count s > 0 → Sentence.cells s ⊆ MinesweeperAI.mines a'))
  ∧ (∀ B,
       sound B a →
       (∃ fuel a', MinesweeperAI.update_knowledge fuel a = Some a')
       ∧ ∀ fuel a',
           MinesweeperAI.update_knowledge fuel a = Some a' →
           (Sentence.count s = 0 → Sentence.cells s ## MinesweeperAI.mines a')
           ∧ (Sentence.count s = Z.of_nat (size (Sentence.cells s)) →
              Sentence.count s > 0 →
              Sentence.cells s ## MinesweeperAI.safes a')).
Proof.
  intros Hs. split.
  - intros fuel a' Hupd.
    destruct (update_knowledge_facts fuel a a' Hupd) as [Hfs Hfm]. split.
    + intros H0 c Hc. apply Hfs, elem_of_facts_safes. by exists s.
    + intros Hfull Hpos c Hc. apply Hfm, elem_of_facts_mines.
      exists s. repeat split; [done|lia|lia|done].
  - intros B Ha. split.
    { destruct Ha as (Hk & _ & _).
      exists (S (measure (MinesweeperAI.knowledge a))).
      apply (update_knowledge_terminates B); [done|lia]. }
    intros fuel a' Hupd.
    pose proof (update_knowledge_sound B fuel a a' Ha Hupd)
      as (_ & Hsafe & Hmine).
    destruct Ha as (Hk & _ & _). rewrite Forall_forall in Hk.
    pose proof (Hk s Hs) as Hholds. split.
    + intros H0 c Hc Hm. apply (holds_zero B s Hholds H0 c Hc). by apply Hmine.
    + intros Hfull Hpos c Hc Hsf. apply (Hsafe c Hsf).
      apply (holds_full B s Hholds); [lia|done].
Qed.

Lemma direct_rules_sound_witness :
  let B : gset (Z * Z) := {[(0, 1)]} in
  let s := Sentence.mk {[(0, 0)]} 0 in
  let a := MinesweeperAI.set_knowledge [s; Sentence.mk {[(0, 1)]} 1]
             (MinesweeperAI.init 1 2) in
  let a' := MinesweeperAI.mk 1 2 ∅ {[(0, 1)]} {[(0, 0)]} [] in
  s ∈ MinesweeperAI.knowledge a
  ∧ sound B a
  ∧ MinesweeperAI.update_knowledge 2 a = Some a'
  ∧ Sentence.cells s ⊆ MinesweeperAI.safes a'
  ∧ Sentence.cells s ## MinesweeperAI.mines a'.
Proof.
  intros B s a a'.
  assert (s ∈ MinesweeperAI.knowledge a) as Hs by by_compute.
  assert (sound B a) as Hsound.
  { unfold sound. split; [|split; by_compute].
    repeat constructor; vm_compute; reflexivity. }
  assert (MinesweeperAI.update_knowledge 2 a = Some a') as Hupd
    by (vm_compute; reflexivity).
  split; [exact Hs|]. split; [exact Hsound|]. split; [exact Hupd|].
  destruct (direct_rules_sound a s Hs) as [Hpos Hneg]. split.
  - exact (proj1 (Hpos 2%nat a' Hupd) eq_refl).
  - exact (proj1 (proj2 (Hneg B Hsound) 2%nat a' Hupd) eq_refl).
Defined.

(** C2 (counterexample) -- on the 2 x 2 grid the observations
    [((0,0), 1)], [((0,1), 1)], [((1,1), 0)] leave the agent holding
    [({(1,0)}, 1)] and [({(1,0)}, 0)] when the last propagation starts; the
    completed propagation has [(1,0)] both in [safes] and in [mines]. *)
Lemma direct_rules_contradiction :
  ∃ a1 a2 a3,
    MinesweeperAI.add_knowledge 2 (MinesweeperAI.init 2 2) (0, 0) 1 = Some a1
    ∧ MinesweeperAI.add_knowledge 2 a1 (0, 1) 1 = Some a2
    ∧ MinesweeperAI.knowledge (MinesweeperAI.ingest a2 (1, 1) 0)
      = [Sentence.mk {[(1, 0)]} 1; Sentence.mk {[(1, 0)]} 0]
    ∧ MinesweeperAI.update_knowledge 2 (MinesweeperAI.ingest a2 (1, 1) 0) = Some a3
    ∧ (1, 0) ∈ MinesweeperAI.safes a3
    ∧ (1, 0) ∈ MinesweeperAI.mines a3.
Proof.
  eexists _, _, _.
  split; [vm_compute; reflexivity|].
  split; [vm_compute; reflexivity|].
  split; [vm_compute; reflexivity|].
  split; [vm_compute; reflexivity|].
  split; by_compute.
Qed.

(** C3 (amended) -- Inconsistent input is not surfaced as a fault;
    inference goes on with it.
    - [add_knowledge] stores the sentence it builds from the observation,
      whatever the count, and its outcome is that of [update_knowledge] on
      the state so reached.
    - The loop of [update_knowledge] is left only when a round reports no
      update: the call is still running after [n] rounds exactly when each
      of these rounds reported one.
    - On a fresh agent, [add_knowledge(cell, count)] with a count below 0
      or above the number of in-bounds cells around [cell] returns after
      one round, with the sentence of these cells and that count stored
      and nothing marked but [cell] (when [cell] has such a neighbour).
    - A stored sentence with [count < 0] or [count > |cells|] states no
      known safes and no known mines.
    - When [update_knowledge] returns, a sentence that was stored with
      [count < 0] (with [count > |cells|]) when it was called has been
      carried along: with the cells marked during the call removed it
      still has [count < 0] ([count > |cells|]), and it is stored unless
      all its cells were removed. *)
Theorem inconsistent_input_not_surfaced :
  (∀ fuel a cell count,
     MinesweeperAI.add_knowledge fuel a cell count
     = MinesweeperAI.update_knowledge fuel (MinesweeperAI.ingest a cell count)
     ∧ MinesweeperAI.new_sentence a cell count
       ∈ MinesweeperAI.knowledge (MinesweeperAI.ingest a cell count))
  ∧ (∀ fuel a,
       MinesweeperAI.update_knowledge fuel a = None
       ↔ ∀ i, (i < fuel)%nat →
              (MinesweeperAI.update_round (after_rounds i a)).2 = true)
  ∧ (∀ (h w : Z) cell count (n : nat),
       neighbors8 h w cell ≠ ∅ →
       count < 0 ∨ count > Z.of_nat (size (neighbors8 h w cell)) →
       MinesweeperAI.add_knowledge (S n) (MinesweeperAI.init h w) cell count
       = Some (MinesweeperAI.mk h w {[cell]} ∅ {[cell]}
                 [Sentence.mk (neighbors8 h w cell) count]))
  ∧ (∀ s,
       Sentence.count s < 0
       ∨ Sentence.count s > Z.of_nat (size (Sentence.cells s)) →
       Sentence.known_safes s = ∅ ∧ Sentence.known_mines s = ∅)
  ∧ (∀ fuel a a' s,
       MinesweeperAI.update_knowledge fuel a = Some a' →
       s ∈ MinesweeperAI.knowledge a →
       (Sentence.count s < 0 →
        ∃ s', Sentence.count s' < 0
              ∧ Sentence.cells s' ⊆ Sentence.cells s
              ∧ Sentence.cells s ∖ Sentence.cells s'
                ⊆ MinesweeperAI.safes a' ∪ MinesweeperAI.mines a'
              ∧ (Sentence.cells s' ≠ ∅ → s' ∈ MinesweeperAI.knowledge a'))
       ∧ (Sentence.count s > Z.of_nat (size (Sentence.cells s)) →
          ∃ s', Sentence.count s' > Z.of_nat (size (Sentence.cells s'))
                ∧ Sentence.cells s' ⊆ Sentence.cells s
                ∧ Sentence.cells s ∖ Sentence.cells s'
                  ⊆ MinesweeperAI.safes a' ∪ MinesweeperAI.mines a'
                ∧ (Sentence.cells s' ≠ ∅
                   → s' ∈ MinesweeperAI.knowledge a'))).
Proof.
  split_and!.
  - intros fuel a cell count. split; [done|apply new_sentence_stored].
  - apply update_knowledge_None.
  - intros h w cell count n. apply fresh_observation.
  - apply invalid_no_facts.
  - intros fuel a a' s Hrun Hs. split.
    + intros Hbelow.
      apply (update_knowledge_carries (λ x, Sentence.count x < 0) fuel a a' s);
        [|done|done|done].
      intros S M x. apply reduce_below.
    + intros Habove.
      apply (update_knowledge_carries
               (λ x, Sentence.count x > Z.of_nat (size (Sentence.cells x)))
               fuel a a' s); [|done|done|done].
      intros S M x. apply reduce_above.
Qed.

Lemma inconsistent_input_not_surfaced_witness :
  neighbors8 1 4 (0, 1) ≠ ∅
  ∧ (3 < 0 ∨ 3 > Z.of_nat (size (neighbors8 1 4 (0, 1))))
  ∧ MinesweeperAI.add_knowledge 1 (MinesweeperAI.init 1 4) (0, 1) 3
    = Some (MinesweeperAI.mk 1 4 {[(0, 1)]} ∅ {[(0, 1)]}
              [Sentence.mk (neighbors8 1 4 (0, 1)) 3]).
Proof.
  assert (neighbors8 1 4 (0, 1) ≠ ∅) as HN by by_compute.
  assert (3 < 0 ∨ 3 > Z.of_nat (size (neighbors8 1 4 (0, 1)))) as Hbad.
  { right. vm_compute. reflexivity. }
  split; [exact HN|]. split; [exact Hbad|].
  exact (proj1 (proj2 (proj2 inconsistent_input_not_surfaced))
           1 4 (0, 1) 3 0%nat HN Hbad).
Defined.

(** C3 (counterexample) -- on the 1 x 4 grid, [add_knowledge((0,1), 3)]
    returns normally with [({(0,0), (0,2)}, 3)] stored, a count above the
    size of the cell set; the next call, [add_knowledge((0,3), 4)], also
    returns normally, having derived and stored [({(0,0)}, -1)]. *)
Lemma invalid_sentence_stored :
  ∃ a1 a2,
    MinesweeperAI.add_knowledge 1 (MinesweeperAI.init 1 4) (0, 1) 3 = Some a1
    ∧ MinesweeperAI.knowledge a1 = [Sentence.mk {[(0, 0); (0, 2)]} 3]
    ∧ MinesweeperAI.add_knowledge 2 a1 (0, 3) 4 = Some a2
    ∧ MinesweeperAI.knowledge a2
      = [Sentence.mk {[(0, 0); (0, 2)]} 3; Sentence.mk {[(0, 2)]} 4;
         Sentence.mk {[(0, 0)]} (-1)].
Proof.
  eexists _, _.
  split; [vm_compute; reflexivity|].
  split; [vm_compute; reflexivity|].
  split; vm_compute; reflexivity.
Qed.

(** C4 -- Disjointness invariant.  In every state reached from the initial
    agent by observations that are the board's answers for unmined cells
    (and by further calls of [update_knowledge]), [safes] and [mines] are
    disjoint. *)
Theorem safes_mines_disjoint g a :
  reachable g a → MinesweeperAI.safes a ## MinesweeperAI.mines a.
Proof.
  intros (_ & _ & _ & Hs & Hm)%reachable_sound. set_solver.
Qed.

Lemma safes_mines_disjoint_witness :
  let g := Minesweeper.mk 2 3 {[(0, 1)]} in
  let a := MinesweeperAI.mk 2 3 {[(0, 0)]} ∅ {[(0, 0)]}
             [Sentence.mk {[(0, 1); (1, 0); (1, 1)]} 1] in
  reachable g a ∧ MinesweeperAI.safes a ## MinesweeperAI.mines a.
Proof.
  intros g a.
  assert (reachable g a) as Hreach.
  { apply (reach_observe g (MinesweeperAI.init 2 3) 1 (0, 0) a).
    - apply (reach_init g).
    - by_compute.
    - vm_compute; reflexivity. }
  split; [exact Hreach|]. exact (safes_mines_disjoint g a Hreach).
Defined.

(** C5 (amended) -- Idempotence.  When a completed call of
    [update_knowledge] leaves a collection in which no two sentences have
    the same non-empty cell set and different counts, calling it again
    completes after one round and leaves the agent (so [safes], [mines] and
    the stored sentences) unchanged. *)
Theorem update_knowledge_idempotent fuel a a' fuel' :
  MinesweeperAI.update_knowledge fuel a = Some a' →
  conflict_free (MinesweeperAI.knowledge a') →
  MinesweeperAI.update_knowledge (S fuel') a' = Some a'
  ∧ MinesweeperAI.rounds (S fuel') a' = Some 1%nat.
Proof.
  intros [b Hb]%update_knowledge_last_round Hcf.
  pose proof (update_round_fixed b a' Hb Hcf) as Hfix.
  rewrite update_knowledge_S, rounds_S, Hfix. done.
Qed.

Lemma update_knowledge_idempotent_witness :
  let a := MinesweeperAI.set_knowledge
             [Sentence.mk {[(0, 0)]} 0; Sentence.mk {[(0, 1); (0, 2)]} 1]
             (MinesweeperAI.init 1 3) in
  let a' := MinesweeperAI.mk 1 3 ∅ ∅ {[(0, 0)]}
              [Sentence.mk {[(0, 1); (0, 2)]} 1] in
  MinesweeperAI.update_knowledge 2 a = Some a'
  ∧ conflict_free (MinesweeperAI.knowledge a')
  ∧ MinesweeperAI.update_knowledge 1 a' = Some a'
  ∧ MinesweeperAI.rounds 1 a' = Some 1%nat.
Proof.
  intros a a'.
  assert (MinesweeperAI.update_knowledge 2 a = Some a') as Hrun
    by (vm_compute; reflexivity).
  assert (conflict_free (MinesweeperAI.knowledge a')) as Hcf.
  { intros s s' Hs Hs' _ _. simpl in Hs, Hs'.
    apply list_elem_of_singleton in Hs, Hs'. congruence. }
  split; [exact Hrun|]. split; [exact Hcf|].
  exact (update_knowledge_idempotent 2 a a' 0 Hrun Hcf).
Defined.

(** C5 (counterexample) -- on the 1 x 4 grid the observations
    [((0,1), 3)], [((0,3), 4)], [((0,0), 1)] are each ingested by a
    completed propagation, the last one leaving [({(0,2)}, 3)] and
    [({(0,2)}, 4)]; a further call of [update_knowledge] on that state
    derives two empty sentences in every round, discards them, and never
    stops. *)
Lemma update_knowledge_not_idempotent :
  ∃ a1 a2 a3,
    MinesweeperAI.add_knowledge 1 (MinesweeperAI.init 1 4) (0, 1) 3 = Some a1
    ∧ MinesweeperAI.add_knowledge 2 a1 (0, 3) 4 = Some a2
    ∧ MinesweeperAI.add_knowledge 1 a2 (0, 0) 1 = Some a3
    ∧ MinesweeperAI.knowledge a3
      = [Sentence.mk {[(0, 2)]} 3; Sentence.mk {[(0, 2)]} 4]
    ∧ MinesweeperAI.update_round a3 = (a3, true)
    ∧ ∀ fuel, MinesweeperAI.update_knowledge fuel a3 = None.
Proof.
  eexists _, _, _.
  split; [vm_compute; reflexivity|].
  split; [vm_compute; reflexivity|].
  split; [vm_compute; reflexivity|].
  split; [vm_compute; reflexivity|].
  split; [vm_compute; reflexivity|].
  apply update_knowledge_diverges. vm_compute; reflexivity.
Qed.

(** C7 -- Observation ingestion builds the correct constraint.  The
    sentence [add_knowledge] submits for insertion has as cells exactly the
    in-bounds cells around [cell] that are in neither [mines] nor [safes]
    when the call is made, and as count the reported count minus the number
    of in-bounds cells around [cell] that are in [mines]. *)
Theorem add_knowledge_sentence fuel a cell count :
  let s := MinesweeperAI.new_sentence a cell count in
  let N := neighbors8 (MinesweeperAI.height a) (MinesweeperAI.width a) cell in
  (∀ n, n ∈ N ↔
        adjacent cell n
        ∧ in_bounds (MinesweeperAI.height a) (MinesweeperAI.width a) n)
  ∧ (∀ n, n ∈ Sentence.cells s ↔
          n ∈ N ∧ (n ∉ MinesweeperAI.mines a) ∧ (n ∉ MinesweeperAI.safes a))
  ∧ Sentence.count s = count - Z.of_nat (size (N ∩ MinesweeperAI.mines a))
  ∧ MinesweeperAI.add_knowledge fuel a cell count
    = MinesweeperAI.update_knowledge fuel
        (MinesweeperAI.add_sentence s
           (MinesweeperAI.mark_safe cell (MinesweeperAI.with_move cell a))).
Proof.
  intros s N. split; [intros n; apply elem_of_neighbors8|].
  split; [|split].
  - intros n. subst s N. rewrite new_sentence_spec. cbn [Sentence.cells].
    rewrite elem_of_filter. tauto.
  - subst s N. by rewrite new_sentence_spec.
  - reflexivity.
Qed.

(** C8 -- [make_random_move] returns a cell of the grid that is neither in
    [moves_made] nor in [mines]; every such cell is returned for some draw
    of the random source, the list drawn from holding each of them once; it
    returns [None] exactly when there is no such cell.  When [moves_made]
    holds every cell of the grid but [(5,5)] and [mines] is empty, it
    returns [(5,5)] whatever the draw. *)
Theorem make_random_move_spec a :
  let candidate_cell c :=
    in_bounds (MinesweeperAI.height a) (MinesweeperAI.width a) c
    ∧ (c ∉ MinesweeperAI.moves_made a) ∧ (c ∉ MinesweeperAI.mines a) in
  (∀ r c, (MinesweeperAI.make_random_move r a).1 = Some c → candidate_cell c)
  ∧ (∀ c, candidate_cell c →
          ∃ r, (MinesweeperAI.make_random_move r a).1 = Some c)
  ∧ (∀ c, c ∈ MinesweeperAI.choices a ↔ candidate_cell c)
  ∧ NoDup (MinesweeperAI.choices a)
  ∧ (∀ r, (MinesweeperAI.make_random_move r a).1 = None
          ↔ ∀ c, ¬ candidate_cell c)
  ∧ (in_bounds (MinesweeperAI.height a) (MinesweeperAI.width a) (5, 5) →
     (5, 5) ∉ MinesweeperAI.moves_made a →
     (∀ c, in_bounds (MinesweeperAI.height a) (MinesweeperAI.width a) c →
           c ≠ (5, 5) → c ∈ MinesweeperAI.moves_made a) →
     MinesweeperAI.mines a = ∅ →
     ∀ r, (MinesweeperAI.make_random_move r a).1 = Some (5, 5)).
Proof.
  intros candidate_cell.
  assert (∀ r c, (MinesweeperAI.make_random_move r a).1 = Some c →
                 c ∈ MinesweeperAI.choices a) as Hsome.
  { intros r c. rewrite make_random_move_result.
    destruct (MinesweeperAI.choices a) as [|x l] eqn:Hch; [done|].
    destruct (random_choice_elem r (x :: l)) as (y & Hy & Hin); [done|].
    rewrite Hy. by intros [= <-]. }
  assert (∀ r, MinesweeperAI.choices a ≠ [] →
               ∃ c, (MinesweeperAI.make_random_move r a).1 = Some c) as Hne.
  { intros r Hch. rewrite make_random_move_result.
    destruct (random_choice_elem r _ Hch) as (y & Hy & _).
    destruct (MinesweeperAI.choices a); [done|]. by exists y. }
  split; [|split; [|split; [|split; [|split]]]].
  - intros r c Hc%Hsome. by apply elem_of_choices.
  - intros c Hc%elem_of_choices.
    apply list_elem_of_lookup_1 in Hc as [i Hi]. exists i.
    rewrite make_random_move_result.
    destruct (MinesweeperAI.choices a) eqn:Hch; [done|].
    by apply random_choice_index.
  - intros c. apply elem_of_choices.
  - apply NoDup_choices.
  - intros r. split.
    + intros Hnone c Hc%elem_of_choices.
      destruct (Hne r) as [c' Hc']; [|congruence].
      intros Hnil. rewrite Hnil in Hc. by apply elem_of_nil in Hc.
    + intros Hall. rewrite make_random_move_result.
      destruct (MinesweeperAI.choices a) as [|x l] eqn:Hch; [done|].
      exfalso. apply (Hall x), elem_of_choices. rewrite Hch. left.
  - intros Hb Hnm Hall Hmines r.
    assert ((5, 5) ∈ MinesweeperAI.choices a) as Hin.
    { apply elem_of_choices. rewrite Hmines. set_solver. }
    destruct (Hne r) as [c Hc].
    { intros Hnil. rewrite Hnil in Hin. by apply elem_of_nil in Hin. }
    rewrite Hc. f_equal.
    apply Hsome, elem_of_choices in Hc as (Hcb & Hcm & _).
    destruct (decide (c = (5, 5))) as [|Hneq]; [done|].
    exfalso. by apply Hcm, Hall.
Qed.

Lemma make_random_move_spec_witness :
  let all_cells : gset (Z * Z) :=
    list_to_set (i ← seqZ 0 6; j ← seqZ 0 6; [(i, j)]) in
  let a := MinesweeperAI.mk 6 6 (all_cells ∖ {[(5, 5)]}) ∅
             (all_cells ∖ {[(5, 5)]}) [] in
  in_bounds 6 6 (5, 5)
  ∧ ((5, 5) ∉ MinesweeperAI.moves_made a)
  ∧ MinesweeperAI.mines a = ∅
  ∧ ∀ r, (MinesweeperAI.make_random_move r a).1 = Some (5, 5).
Proof.
  intros all_cells a.
  assert (in_bounds 6 6 (5, 5)) as Hb by (unfold in_bounds; simpl; lia).
  assert ((5, 5) ∉ MinesweeperAI.moves_made a) as Hnm by by_compute.
  assert (∀ c, in_bounds (MinesweeperAI.height a) (MinesweeperAI.width a) c →
               c ≠ (5, 5) → c ∈ MinesweeperAI.moves_made a) as Hall.
  { intros [i j] [Hi Hj] Hne. simpl in Hi, Hj.
    apply elem_of_difference. split; [|by rewrite elem_of_singleton].
    apply elem_of_list_to_set, list_elem_of_bind. exists i.
    split; [|apply elem_of_seqZ; lia].
    apply list_elem_of_bind. exists j.
    split; [left|apply elem_of_seqZ; lia]. }
  split; [exact Hb|]. split; [exact Hnm|]. split; [reflexivity|].
  exact (proj2 (proj2 (proj2 (proj2 (proj2 (make_random_move_spec a)))))
           Hb Hnm Hall eq_refl).
Defined.

(** C9 (amended) -- Insertion is deduplicated by value equality.
    [add_knowledge] appends its sentence only when no equal sentence is
    stored, and the subset inference appends a candidate only when it equals
    no stored sentence and no candidate derived earlier in the round; both
    steps keep a duplicate-free collection duplicate-free.  (Sentences that
    become equal when [mark_safe] or [mark_mine] reduces them in place are
    outside this statement.) *)
Theorem insertion_deduplicated :
  (∀ s a, s ∈ MinesweeperAI.knowledge a → MinesweeperAI.add_sentence s a = a)
  ∧ (∀ s a, NoDup (MinesweeperAI.knowledge a) →
            NoDup (MinesweeperAI.knowledge (MinesweeperAI.add_sentence s a)))
  ∧ (∀ k x, x ∈ MinesweeperAI.subset_inference k → x ∉ k)
  ∧ (∀ k, NoDup (MinesweeperAI.subset_inference k))
  ∧ (∀ a, NoDup (MinesweeperAI.knowledge (MinesweeperAI.mark_facts a)) →
          NoDup (MinesweeperAI.knowledge (MinesweeperAI.update_round a).1)).
Proof.
  split; [apply add_sentence_present|].
  split; [apply add_sentence_NoDup|].
  split; [by intros k x [Hn _]%elem_of_subset_inference|].
  split; [apply subset_inference_NoDup|].
  intros a Hnd. rewrite update_round_mark_facts. simpl.
  by apply NoDup_filter, subset_inference_fresh.
Qed.

Lemma insertion_deduplicated_witness :
  let s := Sentence.mk {[(0, 1)]} 1 in
  let a := MinesweeperAI.set_knowledge [s] (MinesweeperAI.init 1 2) in
  s ∈ MinesweeperAI.knowledge a ∧ MinesweeperAI.add_sentence s a = a.
Proof.
  intros s a.
  assert (s ∈ MinesweeperAI.knowledge a) as Hs by by_compute.
  split; [exact Hs|]. exact (proj1 insertion_deduplicated s a Hs).
Defined.

(** C9 (counterexample) -- on the 2 x 3 board with one mine at [(0,1)], the
    truthful observations of [(0,0)], [(0,2)] and [(1,0)] leave the sentence
    [({(0,1), (1,1)}, 1)] stored twice: the sentence of [(0,0)] and the
    sentence of [(0,2)] are different when stored and are reduced to the
    same value by the later marking. *)
Lemma duplicates_persist :
  let g := Minesweeper.mk 2 3 {[(0, 1)]} in
  let s := Sentence.mk {[(0, 1); (1, 1)]} 1 in
  ∃ a, reachable g a
       ∧ MinesweeperAI.knowledge a = [s; s]
       ∧ ¬ NoDup (MinesweeperAI.knowledge a).
Proof.
  intros g s. eexists. split; [|split].
  - eapply (reach_observe g _ 3 (1, 0)).
    + eapply (reach_observe g _ 3 (0, 2)).
      * eapply (reach_observe g _ 3 (0, 0)).
        -- apply reach_init.
        -- by_compute.
        -- vm_compute; reflexivity.
      * by_compute.
      * vm_compute; reflexivity.
    + by_compute.
    + vm_compute; reflexivity.
  - reflexivity.
  - simpl. intros Hnd. apply NoDup_cons in Hnd as [Hn _]. apply Hn. left.
Qed.

(** C10 -- The move-selection queries leave the agent unchanged:
    [moves_made], [safes], [mines] and the stored sentences are the same
    after [make_safe_move] and after [make_random_move], whatever the
    draw. *)
Theorem move_selection_pure a :
  (MinesweeperAI.make_safe_move a).2 = a
  ∧ ∀ r, (MinesweeperAI.make_random_move r a).2 = a.
Proof. split; [reflexivity|]. intros r. reflexivity. Qed.

(** * Further properties of the code *)

(** ** The board: [Minesweeper.__init__] and [nearby_mines] *)

Lemma randrange_spec n r i :
  Minesweeper.randrange n r = Some i → 0 ≤ i < n.
Proof.
  unfold Minesweeper.randrange. case_bool_decide; [|done].
  intros [= <-]. apply Z.mod_pos_bound. lia.
Qed.

Lemma randrange_hit n i :
  0 ≤ i < n → Minesweeper.randrange n (Z.to_nat i) = Some i.
Proof.
  intros Hi. unfold Minesweeper.randrange.
  rewrite bool_decide_eq_true_2 by lia.
  rewrite Z2Nat.id by lia. by rewrite Z.mod_small.
Qed.

(** A set of cells of the grid has at most [height * width] members. *)
Lemma in_bounds_size (h w : Z) (X : gset (Z * Z)) :
  (∀ c, c ∈ X → in_bounds h w c) →
  Z.of_nat (size X) ≤ Z.max 0 h * Z.max 0 w.
Proof.
  intros HX.
  assert (length (elements X) ≤ length (list_prod (seqZ 0 h) (seqZ 0 w)))%nat
    as Hlen.
  { apply submseteq_length, NoDup_submseteq; [apply NoDup_elements|].
    intros [i j] Hc%elem_of_elements%HX. destruct Hc as [Hi Hj]. simpl in *.
    apply list_elem_of_In, in_prod_iff.
    split; apply list_elem_of_In, elem_of_seqZ; lia. }
  rewrite length_prod, !length_seqZ in Hlen. unfold size, set_size. simpl.
  nia.
Qed.

Lemma place_mines_built h w n draws placed g :
  (∀ c, c ∈ placed → in_bounds h w c) →
  Z.of_nat (size placed) ≤ Z.max 0 n →
  Minesweeper.place_mines h w n draws placed = Minesweeper.Built g →
  Minesweeper.height g = h ∧ Minesweeper.width g = w
  ∧ Z.of_nat (size (Minesweeper.mines g)) = Z.max 0 n
  ∧ placed ⊆ Minesweeper.mines g
  ∧ ∀ c, c ∈ Minesweeper.mines g → in_bounds h w c.
Proof.
  revert placed. induction draws as [|[r1 r2] draws IH]; intros placed Hin Hsz;
    simpl; case_bool_decide as Hlt; try done.
  - intros [= <-].
    cbn [Minesweeper.height Minesweeper.width Minesweeper.mines].
    split_and!; [done|done|lia|done|done].
  - destruct (Minesweeper.randrange h r1) as [i|] eqn:Hi; [|done].
    destruct (Minesweeper.randrange w r2) as [j|] eqn:Hj; [|done].
    apply randrange_spec in Hi, Hj.
    case_bool_decide as Hnew.
    + intros Hb. apply IH in Hb as (? & ? & ? & Hsub & ?).
      * split_and!; [done|done|done|set_solver|done].
      * intros c [->%elem_of_singleton|Hc]%elem_of_union; [|by apply Hin].
        split; simpl; lia.
      * rewrite (size_union {[(i, j)]} placed) by set_solver.
        rewrite size_singleton. lia.
    + by apply IH.
  - intros [= <-].
    cbn [Minesweeper.height Minesweeper.width Minesweeper.mines].
    split_and!; [done|done|lia|done|done].
Qed.

(** X1 -- [Minesweeper.__init__]: when the constructor returns, the board
    has the dimensions asked for, exactly [mines] mined cells (none when
    [mines] is not positive), and every mined cell is inside the grid. *)
Theorem init_built h w n draws g :
  Minesweeper.init h w n draws = Minesweeper.Built g →
  Minesweeper.height g = h ∧ Minesweeper.width g = w
  ∧ Z.of_nat (size (Minesweeper.mines g)) = Z.max 0 n
  ∧ ∀ c, c ∈ Minesweeper.mines g → in_bounds h w c.
Proof.
  intros Hb. apply place_mines_built in Hb as (? & ? & ? & _ & ?); [done|..].
  - intros c Hc. by apply not_elem_of_empty in Hc.
  - rewrite size_empty. lia.
Qed.

Lemma init_built_witness :
  let g := Minesweeper.mk 2 3 {[(1, 2); (0, 1)]} in
  Minesweeper.init 2 3 2 [(0, 1); (2, 4); (5, 2)]%nat = Minesweeper.Built g
  ∧ Z.of_nat (size (Minesweeper.mines g)) = Z.max 0 2.
Proof.
  intros g.
  assert (Minesweeper.init 2 3 2 [(0, 1); (2, 4); (5, 2)]%nat
          = Minesweeper.Built g) as Hb by (vm_compute; reflexivity).
  split; [exact Hb|].
  exact (proj1 (proj2 (proj2 (init_built 2 3 2 _ g Hb)))).
Defined.

Lemma place_mines_overfull h w n draws placed g :
  (∀ c, c ∈ placed → in_bounds h w c) →
  Z.max 0 h * Z.max 0 w < n →
  Minesweeper.place_mines h w n draws placed ≠ Minesweeper.Built g.
Proof.
  revert placed. induction draws as [|[r1 r2] draws IH]; intros placed Hin Hn;
    pose proof (in_bounds_size h w placed Hin) as Hsz;
    simpl; rewrite bool_decide_eq_true_2 by lia; [done|].
  destruct (Minesweeper.randrange h r1) as [i|] eqn:Hi; [|done].
  destruct (Minesweeper.randrange w r2) as [j|] eqn:Hj; [|done].
  apply randrange_spec in Hi, Hj.
  case_bool_decide; apply IH; try done.
  intros c [->%elem_of_singleton|Hc]%elem_of_union; [|by apply Hin].
  split; simpl; lia.
Qed.

(** With positive dimensions and more mines asked for than the grid has
    cells, every round finds the loop condition true and draws again. *)
Lemma place_mines_unfinished (h w n : Z) draws placed :
  0 < h → 0 < w → h * w < n →
  (∀ c, c ∈ placed → in_bounds h w c) →
  Minesweeper.place_mines h w n draws placed = Minesweeper.Unfinished.
Proof.
  intros Hh Hw Hn. revert placed.
  induction draws as [|[r1 r2] draws IH]; intros placed Hin;
    cbn [Minesweeper.place_mines];
    pose proof (in_bounds_size h w placed Hin) as Hsz;
    rewrite !Z.max_r in Hsz by lia;
    rewrite bool_decide_eq_true_2 by lia; [done|].
  unfold Minesweeper.randrange. rewrite !bool_decide_eq_true_2 by done.
  assert (in_bounds h w (Z.of_nat r1 `mod` h, Z.of_nat r2 `mod` w)) as Hc.
  { split; cbn [fst snd]; apply Z.mod_pos_bound; done. }
  case_bool_decide; apply IH; [|done].
  intros c [->%elem_of_singleton|Hc']%elem_of_union; [done|by apply Hin].
Qed.

(** X2 -- [Minesweeper.__init__]: when more mines are asked for than the
    grid has cells, the constructor never returns a board, whatever the
    random source draws; when height and width are both positive the
    placement loop never ends: it is still running when any finite list of
    draws is used up. *)
Theorem init_overfull h w n draws :
  Z.max 0 h * Z.max 0 w < n →
  (∀ g, Minesweeper.init h w n draws ≠ Minesweeper.Built g)
  ∧ (0 < h → 0 < w →
     Minesweeper.init h w n draws = Minesweeper.Unfinished).
Proof.
  intros Hn. split.
  - intros g. apply place_mines_overfull; [|done].
    intros c Hc. by apply not_elem_of_empty in Hc.
  - intros Hh Hw. apply place_mines_unfinished; [done|done| |].
    + rewrite !Z.max_r in Hn by lia. done.
    + intros c Hc. by apply not_elem_of_empty in Hc.
Qed.

Lemma init_overfull_witness :
  Z.max 0 2 * Z.max 0 2 < 5
  ∧ (∀ g, Minesweeper.init 2 2 5
            [(0, 0); (0, 1); (1, 0); (1, 1); (0, 0)]%nat ≠ Minesweeper.Built g)
  ∧ Minesweeper.init 2 2 5 [(0, 0); (0, 1); (1, 0); (1, 1); (0, 0)]%nat
    = Minesweeper.Unfinished.
Proof.
  assert (Z.max 0 2 * Z.max 0 2 < 5) as Hn by (simpl; lia).
  split; [exact Hn|]. split.
  - exact (proj1 (init_overfull 2 2 5 _ Hn)).
  - apply (proj2 (init_overfull 2 2 5 _ Hn)); lia.
Defined.

(** X3 -- [Minesweeper.__init__]: with a positive number of mines and a
    height or width that is not positive, the first round of the loop ends
    in the [ValueError] of [randrange]. *)
Theorem init_empty_grid h w n d draws :
  0 < n → h ≤ 0 ∨ w ≤ 0 →
  Minesweeper.init h w n (d :: draws) = Minesweeper.ValueError.
Proof.
  intros Hn Hhw. unfold Minesweeper.init. destruct d as [r1 r2].
  cbn [Minesweeper.place_mines].
  rewrite size_empty, bool_decide_eq_true_2 by lia.
  unfold Minesweeper.randrange.
  destruct Hhw as [Hh|Hw].
  - by rewrite (bool_decide_eq_false_2 (0 < h)) by lia.
  - case_bool_decide; [|done].
    by rewrite (bool_decide_eq_false_2 (0 < w)) by lia.
Qed.

Lemma init_empty_grid_witness :
  0 < 1 ∧ (0 ≤ 0 ∨ 3 ≤ 0)
  ∧ Minesweeper.init 0 3 1 [(4, 7)%nat] = Minesweeper.ValueError.
Proof.
  assert (0 < 1) as Hn by lia.
  assert (0 ≤ 0 ∨ 3 ≤ 0) as Hhw by (left; lia).
  split; [exact Hn|]. split; [exact Hhw|].
  exact (init_empty_grid 0 3 1 (4, 7)%nat [] Hn Hhw).
Defined.

Lemma place_mines_reaches (h w n : Z) (l : list (Z * Z)) placed :
  NoDup l →
  (∀ c, c ∈ l → in_bounds h w c ∧ c ∉ placed) →
  Z.of_nat (size placed) + Z.of_nat (length l) = n →
  Minesweeper.place_mines h w n
    ((λ c : Z * Z, (Z.to_nat c.1, Z.to_nat c.2)) <$> l) placed
  = Minesweeper.Built (Minesweeper.mk h w (list_to_set l ∪ placed)).
Proof.
  revert placed. induction l as [|[i j] l IH]; intros placed Hnd Hl Hn.
  - simpl in *. rewrite bool_decide_eq_false_2 by lia.
    by rewrite (left_id_L ∅ (∪)).
  - apply NoDup_cons in Hnd as [Hni Hnd].
    destruct (Hl (i, j)) as [[Hi Hj] Hnp]; [left|]. simpl in Hi, Hj.
    cbn [fmap list_fmap Minesweeper.place_mines length] in *.
    rewrite bool_decide_eq_true_2 by lia. simpl.
    rewrite !randrange_hit by lia.
    rewrite bool_decide_eq_true_2 by done.
    rewrite IH; [| done | |].
    + do 2 f_equal. set_solver.
    + intros c Hc. destruct (Hl c) as [? ?]; [by right|].
      split; [done|]. set_solver.
    + rewrite (size_union {[(i, j)]} placed) by set_solver.
      rewrite size_singleton. lia.
Qed.

(** X4 -- [Minesweeper.__init__]: every placement of [mines] mines inside
    the grid is a possible outcome: for each set of that many in-bounds
    cells there are draws of the random source for which the constructor
    returns the board mined exactly there. *)
Theorem init_reaches (h w n : Z) (B : gset (Z * Z)) :
  (∀ c, c ∈ B → in_bounds h w c) →
  Z.of_nat (size B) = n →
  ∃ draws,
    Minesweeper.init h w n draws = Minesweeper.Built (Minesweeper.mk h w B).
Proof.
  intros HB Hn.
  exists ((λ c : Z * Z, (Z.to_nat c.1, Z.to_nat c.2)) <$> elements B).
  unfold Minesweeper.init. rewrite place_mines_reaches.
  - do 2 f_equal. rewrite (right_id_L ∅ (∪)). apply list_to_set_elements_L.
  - apply NoDup_elements.
  - intros c Hc%elem_of_elements. split; [by apply HB|set_solver].
  - rewrite size_empty. unfold size, set_size in Hn. simpl in Hn. lia.
Qed.

Lemma init_reaches_witness :
  let B : gset (Z * Z) := {[(0, 2); (1, 0)]} in
  (∀ c, c ∈ B → in_bounds 2 3 c)
  ∧ Z.of_nat (size B) = 2
  ∧ ∃ draws,
      Minesweeper.init 2 3 2 draws = Minesweeper.Built (Minesweeper.mk 2 3 B).
Proof.
  intros B.
  assert (∀ c, c ∈ B → in_bounds 2 3 c) as HB.
  { intros c Hc. apply elem_of_union in Hc as [Hc|Hc];
      apply elem_of_singleton in Hc; subst c; unfold in_bounds; simpl; lia. }
  assert (Z.of_nat (size B) = 2) as Hn by (vm_compute; reflexivity).
  split; [exact HB|]. split; [exact Hn|].
  exact (init_reaches 2 3 2 B HB Hn).
Defined.

Lemma neighbors8_size h w c : (size (neighbors8 h w c) ≤ 8)%nat.
Proof.
  unfold neighbors8.
  rewrite size_list_to_set by apply NoDup_filter, NoDup_around.
  etransitivity; [apply length_filter|]. done.
Qed.

(** X5 -- [Minesweeper.nearby_mines]: the result is the number of mined
    cells among the cells that are inside the grid and next to [cell]
    (horizontally, vertically or diagonally), [cell] itself not counted; it
    lies between 0 and 8. *)
Theorem nearby_mines_counts g cell :
  let N := neighbors8 (Minesweeper.height g) (Minesweeper.width g) cell in
  (∀ n, n ∈ N ↔
        adjacent cell n
        ∧ in_bounds (Minesweeper.height g) (Minesweeper.width g) n)
  ∧ Minesweeper.nearby_mines g cell
    = Z.of_nat (size (N ∩ Minesweeper.mines g))
  ∧ 0 ≤ Minesweeper.nearby_mines g cell ≤ 8.
Proof.
  intros N. split; [intros n; apply elem_of_neighbors8|].
  rewrite nearby_mines_spec. fold N. split; [done|].
  pose proof (neighbors8_size (Minesweeper.height g) (Minesweeper.width g) cell).
  assert (size (N ∩ Minesweeper.mines g) ≤ size N)%nat
    by (apply subseteq_size; set_solver).
  fold N in H. lia.
Qed.

(** ** Sentences *)

Lemma sentence_mark_mine_remove c s :
  Sentence.mark_mine c s = remove_mines {[c]} s.
Proof.
  rewrite <- (remove_mines_empty s) at 1.
  rewrite mark_mine_remove_mines by set_solver.
  by rewrite (right_id_L ∅ (∪)).
Qed.

Lemma size_remove_one (X : gset (Z * Z)) c :
  c ∈ X → size X = S (size (X ∖ {[c]})).
Proof.
  intros Hc. rewrite (union_difference_L {[c]} X) at 1 by set_solver.
  rewrite (size_union {[c]} (X ∖ {[c]})) by set_solver.
  by rewrite size_singleton.
Qed.

(** X6 -- [Sentence.mark_mine] and [Sentence.mark_safe] against the truth:
    for a sentence that is true of a board and a cell of the sentence,
    [mark_mine] leaves a true sentence exactly when the cell is mined and
    [mark_safe] exactly when it is not; for a cell that is not in the
    sentence both leave the sentence as it is. *)
Theorem sentence_mark_truth (B : gset (Z * Z)) c s :
  holds B s →
  (c ∈ Sentence.cells s →
   (holds B (Sentence.mark_mine c s) ↔ c ∈ B)
   ∧ (holds B (Sentence.mark_safe c s) ↔ c ∉ B))
  ∧ (c ∉ Sentence.cells s →
     Sentence.mark_mine c s = s ∧ Sentence.mark_safe c s = s).
Proof.
  intros Hs. split.
  - intros Hc. unfold Sentence.mark_mine, Sentence.mark_safe.
    rewrite bool_decide_eq_true_2 by done.
    unfold holds in *. cbn [Sentence.cells Sentence.count].
    destruct (decide (c ∈ B)) as [HB|HB].
    + assert (size (Sentence.cells s ∩ B)
              = S (size ((Sentence.cells s ∖ {[c]}) ∩ B))) as Hsz.
      { rewrite (size_remove_one (Sentence.cells s ∩ B) c) by set_solver.
        do 2 f_equal. set_solver. }
      split; split; intros; try done; lia.
    + assert ((Sentence.cells s ∖ {[c]}) ∩ B = Sentence.cells s ∩ B) as Heq
        by set_solver.
      rewrite Heq. split; split; intros; try done; lia.
  - intros Hc. unfold Sentence.mark_mine, Sentence.mark_safe.
    by rewrite bool_decide_eq_false_2 by done.
Qed.

Lemma sentence_mark_truth_witness :
  let B : gset (Z * Z) := {[(0, 0)]} in
  let s := Sentence.mk {[(0, 0); (0, 1)]} 1 in
  holds B s ∧ (0, 0) ∈ Sentence.cells s
  ∧ (holds B (Sentence.mark_mine (0, 0) s) ↔ (0, 0) ∈ B).
Proof.
  intros B s.
  assert (holds B s) as Hs by (vm_compute; reflexivity).
  assert ((0, 0) ∈ Sentence.cells s) as Hc by by_compute.
  split; [exact Hs|]. split; [exact Hc|].
  exact (proj1 (proj1 (sentence_mark_truth B (0, 0) s Hs) Hc)).
Defined.

(** X7 -- [Sentence.known_mines] and [Sentence.known_safes]: a sentence
    never reports a cell both as a known mine and as known safe, one
    without cells reports nothing, and what a sentence that is true of a
    board reports is right: its known mines are mined, its known safes are
    not. *)
Theorem sentence_facts s :
  Sentence.known_safes s ## Sentence.known_mines s
  ∧ (Sentence.cells s = ∅ →
     Sentence.known_safes s = ∅ ∧ Sentence.known_mines s = ∅)
  ∧ ∀ B, holds B s →
         Sentence.known_mines s ⊆ B ∧ Sentence.known_safes s ## B.
Proof.
  unfold Sentence.known_safes, Sentence.known_mines. split; [|split].
  - repeat case_bool_decide; simpl; set_solver.
  - intros ->. repeat case_bool_decide; simpl; done.
  - intros B Hs. repeat case_bool_decide; simpl; split;
      try set_solver; try (by apply holds_full); by apply holds_zero.
Qed.

(** X8 -- Repetition and order of the marks on one sentence: marking the
    same cell twice is marking it once, and marks of distinct cells can be
    exchanged, whatever their kinds. *)
Theorem sentence_marks_commute c1 c2 s :
  Sentence.mark_safe c1 (Sentence.mark_safe c1 s) = Sentence.mark_safe c1 s
  ∧ Sentence.mark_mine c1 (Sentence.mark_mine c1 s) = Sentence.mark_mine c1 s
  ∧ Sentence.mark_safe c1 (Sentence.mark_safe c2 s)
    = Sentence.mark_safe c2 (Sentence.mark_safe c1 s)
  ∧ Sentence.mark_mine c1 (Sentence.mark_mine c2 s)
    = Sentence.mark_mine c2 (Sentence.mark_mine c1 s)
  ∧ (c1 ≠ c2 →
     Sentence.mark_safe c1 (Sentence.mark_mine c2 s)
     = Sentence.mark_mine c2 (Sentence.mark_safe c1 s)).
Proof.
  unfold Sentence.mark_safe, Sentence.mark_mine. split_and!.
  - repeat (case_bool_decide; cbn [Sentence.cells Sentence.count] in * );
      try done; set_solver.
  - repeat (case_bool_decide; cbn [Sentence.cells Sentence.count] in * );
      try done; set_solver.
  - repeat (case_bool_decide; cbn [Sentence.cells Sentence.count] in * );
      try done; try (f_equal; set_solver); set_solver.
  - repeat (case_bool_decide; cbn [Sentence.cells Sentence.count] in * );
      try done; try (f_equal; set_solver); set_solver.
  - intros Hne.
    repeat (case_bool_decide; cbn [Sentence.cells Sentence.count] in * );
      try done; try (f_equal; set_solver); set_solver.
Qed.

Lemma sentence_marks_commute_witness :
  (0, 0) ≠ (0, 1)
  ∧ Sentence.mark_safe (0, 0)
      (Sentence.mark_mine (0, 1) (Sentence.mk {[(0, 0); (0, 1); (0, 2)]} 2))
    = Sentence.mark_mine (0, 1)
        (Sentence.mark_safe (0, 0) (Sentence.mk {[(0, 0); (0, 1); (0, 2)]} 2)).
Proof.
  assert ((0, 0) ≠ (0, 1)) as Hne by (intros [=]).
  split; [exact Hne|].
  exact (proj2 (proj2 (proj2 (proj2
           (sentence_marks_commute (0, 0) (0, 1) _)))) Hne).
Defined.

(** ** The marking loops of the agent *)

Lemma foldl_mark_safe (l : list (Z * Z)) a :
  foldl (λ a c, MinesweeperAI.mark_safe c a) a l
  = MinesweeperAI.mark_all_safe (list_to_set l) a.
Proof.
  induction l as [|c l IH] using rev_ind.
  - rewrite list_to_set_nil. unfold MinesweeperAI.mark_all_safe.
    by rewrite set_fold_empty.
  - rewrite foldl_app. cbn [foldl]. rewrite IH, !mark_all_safe_closed.
    unfold MinesweeperAI.mark_safe. cbn.
    rewrite list_to_set_app_L. f_equal; [set_solver|].
    rewrite <- list_fmap_compose. apply list_fmap_ext. intros _ s _. cbn.
    rewrite mark_safe_remove_safes. f_equal. set_solver.
Qed.

Lemma foldl_mark_mine (l : list (Z * Z)) a :
  NoDup l →
  foldl (λ a c, MinesweeperAI.mark_mine c a) a l
  = MinesweeperAI.mark_all_mine (list_to_set l) a.
Proof.
  induction l as [|c l IH] using rev_ind; intros Hnd.
  - rewrite list_to_set_nil. unfold MinesweeperAI.mark_all_mine.
    by rewrite set_fold_empty.
  - apply NoDup_app in Hnd as (Hnd & Hc & _).
    rewrite foldl_app. cbn [foldl]. rewrite IH, !mark_all_mine_closed by done.
    unfold MinesweeperAI.mark_mine. cbn.
    rewrite list_to_set_app_L. f_equal; [set_solver|].
    rewrite <- list_fmap_compose. apply list_fmap_ext. intros _ s _. cbn.
    rewrite mark_mine_remove_mines.
    + f_equal. set_solver.
    + rewrite elem_of_list_to_set. intros Hin. apply (Hc c Hin). left.
Qed.

(** X9 -- The loops [for cell in safes: self.mark_safe(cell)] and
    [for cell in mines: self.mark_mine(cell)] do not depend on the order in
    which the set is iterated: run over any duplicate-free enumeration of
    the set they end in the same agent, with the cells added to [safes]
    (to [mines]), removed from every sentence, and every count lowered by
    the number of mines removed from that sentence. *)
Theorem marking_order_irrelevant (cs : gset (Z * Z)) (l : list (Z * Z)) a :
  NoDup l → list_to_set l = cs →
  foldl (λ a c, MinesweeperAI.mark_safe c a) a l
  = MinesweeperAI.mk (MinesweeperAI.height a) (MinesweeperAI.width a)
      (MinesweeperAI.moves_made a) (MinesweeperAI.mines a)
      (cs ∪ MinesweeperAI.safes a)
      ((λ s, Sentence.mk (Sentence.cells s ∖ cs) (Sentence.count s))
         <$> MinesweeperAI.knowledge a)
  ∧ foldl (λ a c, MinesweeperAI.mark_mine c a) a l
    = MinesweeperAI.mk (MinesweeperAI.height a) (MinesweeperAI.width a)
        (MinesweeperAI.moves_made a) (cs ∪ MinesweeperAI.mines a)
        (MinesweeperAI.safes a)
        ((λ s, Sentence.mk (Sentence.cells s ∖ cs)
                 (Sentence.count s - Z.of_nat (size (Sentence.cells s ∩ cs))))
           <$> MinesweeperAI.knowledge a)
  ∧ foldl (λ a c, MinesweeperAI.mark_safe c a) a l
    = MinesweeperAI.mark_all_safe cs a
  ∧ foldl (λ a c, MinesweeperAI.mark_mine c a) a l
    = MinesweeperAI.mark_all_mine cs a.
Proof.
  intros Hnd <-.
  rewrite foldl_mark_safe, foldl_mark_mine by done.
  rewrite mark_all_safe_closed, mark_all_mine_closed. done.
Qed.

Lemma marking_order_irrelevant_witness :
  let a := MinesweeperAI.set_knowledge
             [Sentence.mk {[(0, 0); (0, 1); (0, 2)]} 2] (MinesweeperAI.init 1 3) in
  NoDup [(0, 2); (0, 0)]
  ∧ list_to_set [(0, 2); (0, 0)] = ({[(0, 0); (0, 2)]} : gset (Z * Z))
  ∧ foldl (λ a c, MinesweeperAI.mark_mine c a) a [(0, 2); (0, 0)]
    = MinesweeperAI.mark_all_mine {[(0, 0); (0, 2)]} a.
Proof.
  intros a.
  assert (NoDup [(0, 2); (0, 0)]) as Hnd.
  { apply NoDup_cons. split; [|apply NoDup_singleton].
    intros Hin%list_elem_of_singleton. discriminate. }
  assert (list_to_set [(0, 2); (0, 0)] = ({[(0, 0); (0, 2)]} : gset (Z * Z)))
    as Hset by (vm_compute; reflexivity).
  split; [exact Hnd|]. split; [exact Hset|].
  exact (proj2 (proj2 (proj2
           (marking_order_irrelevant _ [(0, 2); (0, 0)] a Hnd Hset)))).
Defined.

(** ** Book-keeping of the agent *)

Lemma update_round_frame a :
  MinesweeperAI.height (MinesweeperAI.update_round a).1 = MinesweeperAI.height a
  ∧ MinesweeperAI.width (MinesweeperAI.update_round a).1 = MinesweeperAI.width a
  ∧ MinesweeperAI.moves_made (MinesweeperAI.update_round a).1
    = MinesweeperAI.moves_made a.
Proof. by rewrite update_round_closed. Qed.

Lemma update_knowledge_frame fuel a a' :
  MinesweeperAI.update_knowledge fuel a = Some a' →
  MinesweeperAI.height a' = MinesweeperAI.height a
  ∧ MinesweeperAI.width a' = MinesweeperAI.width a
  ∧ MinesweeperAI.moves_made a' = MinesweeperAI.moves_made a.
Proof.
  revert a. induction fuel as [|fuel IH]; intros a; [done|].
  rewrite update_knowledge_S.
  pose proof (update_round_frame a) as (Hh & Hw & Hm).
  destruct (MinesweeperAI.update_round a).2.
  - intros (? & ? & ?)%IH. split_and!; congruence.
  - by intros [= <-].
Qed.

Lemma elem_of_round_knowledge k x :
  x ∈ round_knowledge k →
  ∃ s, s ∈ k
       ∧ Sentence.cells x ⊆ Sentence.cells s ∖ facts_safes k ∖ facts_mines k.
Proof.
  unfold round_knowledge.
  assert (∀ y, y ∈ reduced k →
               ∃ s, s ∈ k ∧ Sentence.cells y
                             = Sentence.cells s ∖ facts_safes k ∖ facts_mines k)
    as Hred.
  { intros y Hy. unfold reduced in Hy.
    apply list_elem_of_fmap in Hy as (s1 & -> & Hs1).
    apply list_elem_of_fmap in Hs1 as (s & -> & Hs). by exists s. }
  intros [_ [Hx|Hx]%elem_of_app]%list_elem_of_filter.
  - destruct (Hred x Hx) as (s & Hs & ->). by exists s.
  - apply elem_of_subset_inference in Hx as (_ & s1 & s2 & _ & H2 & _ & ->).
    destruct (Hred s2 H2) as (s & Hs & Heq). exists s. split; [done|].
    unfold candidate. cbn [Sentence.cells]. rewrite <- Heq. set_solver.
Qed.

Lemma tidy_update_round a : tidy a → tidy (MinesweeperAI.update_round a).1.
Proof.
  intros (Hmv & Hmi & Hsa & Hk). rewrite update_round_closed.
  set (k := MinesweeperAI.knowledge a).
  assert (∀ c, c ∈ facts_safes k ∪ facts_mines k → near_played a c) as Hnear.
  { intros c Hc%facts_in_cells%elem_of_cells_of. destruct Hc as (s & Hs & Hc).
    destruct (Hk s Hs) as (_ & _ & p & Hp & Hsub). exists p. split; [done|].
    by apply Hsub. }
  unfold tidy, near_played in *. cbn. split_and!.
  - set_solver.
  - intros c [Hc|Hc]%elem_of_union; [apply Hnear; set_solver|by apply Hmi].
  - intros c [Hc|Hc]%elem_of_union; [right; apply Hnear; set_solver|by apply Hsa].
  - intros x (s & Hs & Hx)%elem_of_round_knowledge.
    destruct (Hk s Hs) as (Hds & Hdm & p & Hp & Hsub). fold k in Hx.
    split_and!; [set_solver|set_solver|].
    exists p. split; [done|]. set_solver.
Qed.

Lemma tidy_update_knowledge fuel a a' :
  tidy a → MinesweeperAI.update_knowledge fuel a = Some a' → tidy a'.
Proof.
  revert a. induction fuel as [|fuel IH]; intros a Ha; [done|].
  rewrite update_knowledge_S. pose proof (tidy_update_round a Ha) as Hr.
  destruct (MinesweeperAI.update_round a).2.
  - by apply IH.
  - by intros [= <-].
Qed.

Lemma ingest_fields a c count :
  let b := MinesweeperAI.ingest a c count in
  MinesweeperAI.height b = MinesweeperAI.height a
  ∧ MinesweeperAI.width b = MinesweeperAI.width a
  ∧ MinesweeperAI.moves_made b = {[c]} ∪ MinesweeperAI.moves_made a
  ∧ MinesweeperAI.safes b = {[c]} ∪ MinesweeperAI.safes a
  ∧ MinesweeperAI.mines b = MinesweeperAI.mines a
  ∧ ∀ x, x ∈ MinesweeperAI.knowledge b →
         x = MinesweeperAI.new_sentence a c count
         ∨ ∃ s, s ∈ MinesweeperAI.knowledge a ∧ x = Sentence.mark_safe c s.
Proof.
  unfold MinesweeperAI.ingest, MinesweeperAI.add_sentence.
  case_bool_decide; cbn; split_and!; try done.
  - intros x [Hx|Hx%list_elem_of_singleton]%elem_of_app; [|by left].
    apply list_elem_of_fmap in Hx as (s & -> & Hs). right. by exists s.
  - intros x Hx. apply list_elem_of_fmap in Hx as (s & -> & Hs).
    right. by exists s.
Qed.

Lemma tidy_ingest a c count : tidy a → tidy (MinesweeperAI.ingest a c count).
Proof.
  intros (Hmv & Hmi & Hsa & Hk).
  pose proof (ingest_fields a c count) as (Hh & Hw & Hm & Hs & Hn & Hkn).
  unfold tidy, near_played in *. rewrite Hh, Hw, Hm, Hs, Hn. split_and!.
  - set_solver.
  - intros x Hx. destruct (Hmi x Hx) as (p & Hp & Hin). exists p. set_solver.
  - intros x [->%elem_of_singleton|Hx]%elem_of_union; [left; set_solver|].
    destruct (Hsa x Hx) as [Hp|(p & Hp & Hin)]; [left; set_solver|].
    right. exists p. set_solver.
  - intros x [->|(s & Hsk & ->)]%Hkn.
    + rewrite new_sentence_spec. cbn [Sentence.cells]. split_and!.
      * intros y [[_ Hy] HN]%elem_of_filter
          [->%elem_of_singleton|Hys]%elem_of_union; [|done].
        apply elem_of_neighbors8 in HN as [[Hne _] _]. done.
      * intros y [[Hy _] _]%elem_of_filter Hym. done.
      * exists c. split; [set_solver|]. intros y [_ Hy]%elem_of_filter. done.
    + destruct (Hk s Hsk) as (Hds & Hdm & p & Hp & Hsub).
      rewrite sentence_mark_safe_remove. unfold remove_safes.
      cbn [Sentence.cells]. split_and!; [set_solver|set_solver|].
      exists p. set_solver.
Qed.

Lemma played_tidy h w a :
  played h w a →
  MinesweeperAI.height a = h ∧ MinesweeperAI.width a = w ∧ tidy a.
Proof.
  induction 1 as [|a fuel c count a' _ (Hh & Hw & Ht) Hadd
                  |a fuel a' _ (Hh & Hw & Ht) Hupd].
  - split_and!; [done|done|]. unfold tidy, near_played. cbn.
    split_and!; set_solver.
  - unfold MinesweeperAI.add_knowledge in Hadd.
    destruct (update_knowledge_frame _ _ _ Hadd) as (Hh' & Hw' & _).
    destruct (ingest_fields a c count) as (Hh2 & Hw2 & _).
    split_and!; [congruence|congruence|].
    eapply tidy_update_knowledge; [|exact Hadd]. by apply tidy_ingest.
  - destruct (update_knowledge_frame _ _ _ Hupd) as (Hh' & Hw' & _).
    split_and!; [congruence|congruence|]. by eapply tidy_update_knowledge.
Qed.

(** What a completed call leaves: no empty sentence and no sentence that
    states a fact. *)
Lemma update_knowledge_settled fuel a a' :
  MinesweeperAI.update_knowledge fuel a = Some a' →
  ∃ kb, MinesweeperAI.knowledge a'
        = filter (λ s, MinesweeperAI.nonempty s) kb
        ∧ facts_safes kb = ∅ ∧ facts_mines kb = ∅
        ∧ MinesweeperAI.subset_inference kb = [].
Proof.
  intros [b Hb]%update_knowledge_last_round.
  rewrite update_round_closed in Hb. injection Hb as <- Hupd.
  apply round_updated_false in Hupd as (Hs & Hm & Hinf).
  exists (MinesweeperAI.knowledge b). cbn. unfold round_knowledge.
  by rewrite (reduced_no_facts _ Hs Hm), Hinf, app_nil_r.
Qed.

Lemma played_nonempty h w a s :
  played h w a → s ∈ MinesweeperAI.knowledge a → Sentence.cells s ≠ ∅.
Proof.
  intros Hp Hs.
  assert (∀ fuel b, MinesweeperAI.update_knowledge fuel b = Some a →
                    Sentence.cells s ≠ ∅) as Hdone.
  { intros fuel b (kb & Hk & _)%update_knowledge_settled.
    rewrite Hk in Hs. apply list_elem_of_filter in Hs as [Hne _].
    by apply nonempty_spec. }
  destruct Hp as [|b fuel c count a Hb Hadd|b fuel a Hb Hupd].
  - by apply elem_of_nil in Hs.
  - by eapply Hdone.
  - by eapply Hdone.
Qed.

(** X10 -- Whatever cells and counts the agent is given, after any calls
    of [add_knowledge] and [update_knowledge] that returned, the grid
    dimensions are those of the constructor and every cell of
    [moves_made] is in [safes]. *)
Theorem played_moves_are_safe h w a :
  played h w a →
  MinesweeperAI.height a = h ∧ MinesweeperAI.width a = w
  ∧ MinesweeperAI.moves_made a ⊆ MinesweeperAI.safes a.
Proof.
  intros (Hh & Hw & Hmv & _)%played_tidy. done.
Qed.

(** X11 -- Whatever it is given, the agent only ever marks cells it was
    shown or cells around them: every cell of [mines] is an in-bounds
    neighbour of a cell of [moves_made], and every cell of [safes] is a
    cell of [moves_made] or an in-bounds neighbour of one. *)
Theorem played_marks_are_local h w a :
  played h w a →
  (∀ c, c ∈ MinesweeperAI.mines a →
        in_bounds h w c
        ∧ ∃ p, p ∈ MinesweeperAI.moves_made a ∧ adjacent p c)
  ∧ (∀ c, c ∈ MinesweeperAI.safes a →
          c ∈ MinesweeperAI.moves_made a
          ∨ (in_bounds h w c
             ∧ ∃ p, p ∈ MinesweeperAI.moves_made a ∧ adjacent p c)).
Proof.
  intros (Hh & Hw & _ & Hmi & Hsa & _)%played_tidy.
  unfold near_played in *. rewrite Hh, Hw in *. split.
  - intros c (p & Hp & [Hadj Hb]%elem_of_neighbors8)%Hmi.
    split; [done|]. by exists p.
  - intros c [Hc|(p & Hp & [Hadj Hb]%elem_of_neighbors8)]%Hsa; [by left|].
    right. split; [done|]. by exists p.
Qed.

(** X12 -- Whatever it is given, every sentence the agent holds after a
    call that returned is non-empty, mentions no cell of [safes] and no
    cell of [mines], and speaks only of in-bounds neighbours of a single
    cell of [moves_made]; so it has at most 8 cells. *)
Theorem played_sentences h w a s :
  played h w a → s ∈ MinesweeperAI.knowledge a →
  Sentence.cells s ≠ ∅
  ∧ Sentence.cells s ## MinesweeperAI.safes a
  ∧ Sentence.cells s ## MinesweeperAI.mines a
  ∧ (∃ p, p ∈ MinesweeperAI.moves_made a
          ∧ ∀ c, c ∈ Sentence.cells s → adjacent p c ∧ in_bounds h w c)
  ∧ (size (Sentence.cells s) ≤ 8)%nat.
Proof.
  intros Hp Hs. pose proof (played_nonempty h w a s Hp Hs) as Hne.
  apply played_tidy in Hp as (Hh & Hw & _ & _ & _ & Hk).
  destruct (Hk s Hs) as (Hds & Hdm & p & Hpm & Hsub). rewrite Hh, Hw in Hsub.
  split_and!; [done|done|done| |].
  - exists p. split; [done|]. intros c Hc%Hsub. by apply elem_of_neighbors8.
  - etransitivity; [by apply subseteq_size|apply neighbors8_size].
Qed.

Lemma played_example :
  played 2 2
    (MinesweeperAI.mk 2 2 {[(0, 0)]} ∅ {[(0, 0)]}
       [Sentence.mk {[(0, 1); (1, 0); (1, 1)]} 5]).
Proof.
  apply (played_observe 2 2 (MinesweeperAI.init 2 2) 1 (0, 0) 5).
  - apply played_init.
  - vm_compute; reflexivity.
Defined.

Lemma played_moves_are_safe_witness :
  let a := MinesweeperAI.mk 2 2 {[(0, 0)]} ∅ {[(0, 0)]}
             [Sentence.mk {[(0, 1); (1, 0); (1, 1)]} 5] in
  played 2 2 a ∧ MinesweeperAI.moves_made a ⊆ MinesweeperAI.safes a.
Proof.
  intros a. split; [exact played_example|].
  exact (proj2 (proj2 (played_moves_are_safe 2 2 a played_example))).
Defined.

Lemma played_marks_are_local_witness :
  let a := MinesweeperAI.mk 2 2 {[(0, 0)]} ∅ {[(0, 0)]}
             [Sentence.mk {[(0, 1); (1, 0); (1, 1)]} 5] in
  played 2 2 a
  ∧ ∀ c, c ∈ MinesweeperAI.mines a →
         in_bounds 2 2 c ∧ ∃ p, p ∈ MinesweeperAI.moves_made a ∧ adjacent p c.
Proof.
  intros a. split; [exact played_example|].
  exact (proj1 (played_marks_are_local 2 2 a played_example)).
Defined.

Lemma played_sentences_witness :
  let s := Sentence.mk {[(0, 1); (1, 0); (1, 1)]} 5 in
  let a := MinesweeperAI.mk 2 2 {[(0, 0)]} ∅ {[(0, 0)]} [s] in
  played 2 2 a ∧ s ∈ MinesweeperAI.knowledge a
  ∧ (size (Sentence.cells s) ≤ 8)%nat.
Proof.
  intros s a.
  assert (s ∈ MinesweeperAI.knowledge a) as Hs by by_compute.
  split; [exact played_example|]. split; [exact Hs|].
  exact (proj2 (proj2 (proj2 (proj2
           (played_sentences 2 2 a s played_example Hs))))).
Defined.

(** ** What a call of [update_knowledge] does to the agent *)

Lemma round_cells_shrink k :
  cells_of (round_knowledge k) ⊆ cells_of k ∖ (facts_safes k ∪ facts_mines k).
Proof.
  rewrite round_cells. intros c (Hc & Hs & Hm)%reduced_cells. set_solver.
Qed.

Lemma update_knowledge_marks fuel a a' :
  MinesweeperAI.update_knowledge fuel a = Some a' →
  cells_of (MinesweeperAI.knowledge a') ⊆ cells_of (MinesweeperAI.knowledge a)
  ∧ MinesweeperAI.safes a'
    ⊆ MinesweeperAI.safes a
      ∪ (cells_of (MinesweeperAI.knowledge a)
         ∖ cells_of (MinesweeperAI.knowledge a'))
  ∧ MinesweeperAI.mines a'
    ⊆ MinesweeperAI.mines a
      ∪ (cells_of (MinesweeperAI.knowledge a)
         ∖ cells_of (MinesweeperAI.knowledge a')).
Proof.
  revert a. induction fuel as [|fuel IH]; intros a; [done|].
  rewrite update_knowledge_S, update_round_closed. cbn [fst snd].
  set (k := MinesweeperAI.knowledge a).
  pose proof (round_cells_shrink k) as Hsh.
  pose proof (facts_in_cells k) as Hin.
  destruct (round_updated k).
  - intros (Hc & Hs & Hm)%IH. cbn in Hc, Hs, Hm.
    split_and!; [set_solver| |].
    + intros c [[Hf|Hc0]%elem_of_union|[Hc1 Hc2]%elem_of_difference]%Hs%elem_of_union.
      * apply elem_of_union_r, elem_of_difference. split; [set_solver|].
        intros Hc'. apply Hc, Hsh in Hc'. set_solver.
      * by apply elem_of_union_l.
      * apply elem_of_union_r, elem_of_difference. split; [set_solver|done].
    + intros c [[Hf|Hc0]%elem_of_union|[Hc1 Hc2]%elem_of_difference]%Hm%elem_of_union.
      * apply elem_of_union_r, elem_of_difference. split; [set_solver|].
        intros Hc'. apply Hc, Hsh in Hc'. set_solver.
      * by apply elem_of_union_l.
      * apply elem_of_union_r, elem_of_difference. split; [set_solver|done].
  - intros [= <-]. cbn. split_and!; [set_solver| |].
    + intros c [Hf|Hc0]%elem_of_union; [|by apply elem_of_union_l].
      apply elem_of_union_r, elem_of_difference. split; [set_solver|].
      intros Hc'. apply Hsh in Hc'. set_solver.
    + intros c [Hf|Hc0]%elem_of_union; [|by apply elem_of_union_l].
      apply elem_of_union_r, elem_of_difference. split; [set_solver|].
      intros Hc'. apply Hsh in Hc'. set_solver.
Qed.

(** X13 -- [update_knowledge], when it returns, has left [height],
    [width] and [moves_made] alone and has only added to [safes] and
    [mines]; every cell it added was mentioned by a stored sentence when
    the call began and is mentioned by none when it returns, and no
    sentence mentions a cell that none mentioned before. *)
Theorem update_knowledge_effect fuel a a' :
  MinesweeperAI.update_knowledge fuel a = Some a' →
  let K := cells_of (MinesweeperAI.knowledge a) in
  let K' := cells_of (MinesweeperAI.knowledge a') in
  MinesweeperAI.height a' = MinesweeperAI.height a
  ∧ MinesweeperAI.width a' = MinesweeperAI.width a
  ∧ MinesweeperAI.moves_made a' = MinesweeperAI.moves_made a
  ∧ MinesweeperAI.safes a ⊆ MinesweeperAI.safes a'
  ∧ MinesweeperAI.mines a ⊆ MinesweeperAI.mines a'
  ∧ MinesweeperAI.safes a' ∖ MinesweeperAI.safes a ⊆ K ∖ K'
  ∧ MinesweeperAI.mines a' ∖ MinesweeperAI.mines a ⊆ K ∖ K'
  ∧ K' ⊆ K.
Proof.
  intros Hrun K K'.
  destruct (update_knowledge_frame _ _ _ Hrun) as (Hh & Hw & Hmv).
  destruct (update_knowledge_grows _ _ _ Hrun) as [Hs Hm].
  destruct (update_knowledge_marks _ _ _ Hrun) as (Hc & Hs' & Hm').
  fold K K' in Hc, Hs', Hm'.
  split_and!; [done|done|done|done|done| | |done].
  - intros c [Hc1 Hc2]%elem_of_difference. apply Hs' in Hc1. set_solver.
  - intros c [Hc1 Hc2]%elem_of_difference. apply Hm' in Hc1. set_solver.
Qed.

Lemma update_knowledge_effect_witness :
  let a := MinesweeperAI.set_knowledge
             [Sentence.mk {[(0, 0); (0, 1); (0, 2)]} 2;
              Sentence.mk {[(0, 0); (0, 1)]} 1] (MinesweeperAI.init 1 3) in
  let a' := MinesweeperAI.mk 1 3 ∅ {[(0, 2)]} ∅
              [Sentence.mk {[(0, 0); (0, 1)]} 1;
               Sentence.mk {[(0, 0); (0, 1)]} 1] in
  MinesweeperAI.update_knowledge 3 a = Some a'
  ∧ MinesweeperAI.mines a' ∖ MinesweeperAI.mines a
    ⊆ cells_of (MinesweeperAI.knowledge a)
      ∖ cells_of (MinesweeperAI.knowledge a').
Proof.
  intros a a'.
  assert (MinesweeperAI.update_knowledge 3 a = Some a') as Hrun
    by (vm_compute; reflexivity).
  split; [exact Hrun|].
  exact (proj1 (proj2 (proj2 (proj2 (proj2 (proj2 (proj2
           (update_knowledge_effect 3 a a' Hrun)))))))).
Defined.

(** X14 -- When [update_knowledge] returns, nothing is left for its rules
    to do: every stored sentence is non-empty with a count that is neither
    0 nor the number of its cells, and for any two stored sentences of
    which one's cells are strictly included in the other's, the
    difference sentence is stored too. *)
Theorem update_knowledge_saturated fuel a a' :
  MinesweeperAI.update_knowledge fuel a = Some a' →
  (∀ s, s ∈ MinesweeperAI.knowledge a' →
        Sentence.cells s ≠ ∅ ∧ Sentence.count s ≠ 0
        ∧ Sentence.count s ≠ Z.of_nat (size (Sentence.cells s)))
  ∧ (∀ s1 s2, s1 ∈ MinesweeperAI.knowledge a' →
              s2 ∈ MinesweeperAI.knowledge a' →
              Sentence.cells s1 ⊂ Sentence.cells s2 →
              candidate s1 s2 ∈ MinesweeperAI.knowledge a').
Proof.
  intros (kb & Hk & Hs & Hm & Hinf)%update_knowledge_settled. rewrite Hk.
  split.
  - intros s [Hne%nonempty_spec Hin]%list_elem_of_filter.
    apply set_choose_L in Hne as Hex. destruct Hex as [c Hc].
    split_and!; [done| |].
    + intros H0. assert (c ∈ facts_safes kb) as Hf
        by (apply elem_of_facts_safes; by exists s).
      rewrite Hs in Hf. by apply not_elem_of_empty in Hf.
    + intros Hsz. destruct (decide (Sentence.count s = 0)) as [H0|H0].
      * rewrite H0 in Hsz.
        assert (size (Sentence.cells s) = 0%nat) as Hz by lia.
        apply size_empty_inv in Hz. apply Hne. by apply leibniz_equiv.
      * assert (c ∈ facts_mines kb) as Hf
          by (apply elem_of_facts_mines; by exists s).
        rewrite Hm in Hf. by apply not_elem_of_empty in Hf.
  - intros s1 s2 [Hne1%nonempty_spec H1]%list_elem_of_filter
      [Hne2%nonempty_spec H2]%list_elem_of_filter [Hsub Hnsub].
    assert (derivable s1 s2) as Hd.
    { split_and!; [|done|done|done]. intros ->. by apply Hnsub. }
    pose proof (subset_inference_complete kb s1 s2 H1 H2 Hd) as Hin.
    rewrite Hinf, app_nil_r in Hin.
    apply list_elem_of_filter. split; [|done].
    apply nonempty_spec. unfold candidate. cbn [Sentence.cells].
    intros Hemp. apply Hnsub. intros c Hc.
    destruct (decide (c ∈ Sentence.cells s1)) as [|Hn]; [done|].
    assert (c ∈ Sentence.cells s2 ∖ Sentence.cells s1) as Hdiff
      by (apply elem_of_difference; done).
    rewrite Hemp in Hdiff. by apply not_elem_of_empty in Hdiff.
Qed.

Lemma update_knowledge_saturated_witness :
  let a := MinesweeperAI.set_knowledge
             [Sentence.mk {[(0, 0); (0, 1); (0, 2)]} 2;
              Sentence.mk {[(0, 0); (0, 1)]} 1] (MinesweeperAI.init 1 3) in
  let a' := MinesweeperAI.mk 1 3 ∅ {[(0, 2)]} ∅
              [Sentence.mk {[(0, 0); (0, 1)]} 1;
               Sentence.mk {[(0, 0); (0, 1)]} 1] in
  MinesweeperAI.update_knowledge 3 a = Some a'
  ∧ ∀ s, s ∈ MinesweeperAI.knowledge a' →
         Sentence.cells s ≠ ∅ ∧ Sentence.count s ≠ 0
         ∧ Sentence.count s ≠ Z.of_nat (size (Sentence.cells s)).
Proof.
  intros a a'.
  assert (MinesweeperAI.update_knowledge 3 a = Some a') as Hrun
    by (vm_compute; reflexivity).
  split; [exact Hrun|].
  exact (proj1 (update_knowledge_saturated 3 a a' Hrun)).
Defined.

(** ** Observations and safe moves *)

Lemma ingest_cells a c count :
  cells_of (MinesweeperAI.knowledge (MinesweeperAI.ingest a c count))
  ⊆ cells_of (MinesweeperAI.knowledge a)
    ∪ neighbors8 (MinesweeperAI.height a) (MinesweeperAI.width a) c.
Proof.
  destruct (ingest_fields a c count) as (_ & _ & _ & _ & _ & Hk).
  intros x (s & [->|(s0 & Hs0 & ->)]%Hk & Hx)%elem_of_cells_of.
  - rewrite new_sentence_spec in Hx. cbn [Sentence.cells] in Hx.
    apply elem_of_filter in Hx as [_ Hx]. by apply elem_of_union_r.
  - rewrite sentence_mark_safe_remove in Hx. unfold remove_safes in Hx.
    cbn [Sentence.cells] in Hx. apply elem_of_union_l, elem_of_cells_of.
    exists s0. set_solver.
Qed.

(** X15 -- [add_knowledge], when it returns, has added exactly [cell] to
    [moves_made] and has [cell] in [safes]; it has only added to [safes]
    and [mines], every other cell it added being mentioned by a sentence
    stored before the call or an in-bounds neighbour of [cell]; and
    [make_safe_move] does not propose [cell] afterwards.  This holds for
    any cell and any count. *)
Theorem add_knowledge_effect fuel a cell count a' :
  MinesweeperAI.add_knowledge fuel a cell count = Some a' →
  let near := cells_of (MinesweeperAI.knowledge a)
              ∪ neighbors8 (MinesweeperAI.height a) (MinesweeperAI.width a) cell in
  MinesweeperAI.moves_made a' = {[cell]} ∪ MinesweeperAI.moves_made a
  ∧ cell ∈ MinesweeperAI.safes a'
  ∧ MinesweeperAI.safes a ⊆ MinesweeperAI.safes a'
  ∧ MinesweeperAI.mines a ⊆ MinesweeperAI.mines a'
  ∧ MinesweeperAI.safes a' ⊆ {[cell]} ∪ MinesweeperAI.safes a ∪ near
  ∧ MinesweeperAI.mines a' ⊆ MinesweeperAI.mines a ∪ near
  ∧ (MinesweeperAI.make_safe_move a').1 ≠ Some cell.
Proof.
  intros Hrun near. unfold MinesweeperAI.add_knowledge in Hrun.
  destruct (ingest_fields a cell count) as (_ & _ & Hmv & Hs & Hm & _).
  pose proof (ingest_cells a cell count) as Hcells. fold near in Hcells.
  destruct (update_knowledge_frame _ _ _ Hrun) as (_ & _ & Hmv').
  destruct (update_knowledge_grows _ _ _ Hrun) as [Hgs Hgm].
  destruct (update_knowledge_marks _ _ _ Hrun) as (_ & Hs' & Hm').
  rewrite Hs in Hgs, Hs'. rewrite Hm in Hgm, Hm'.
  assert (MinesweeperAI.moves_made a' = {[cell]} ∪ MinesweeperAI.moves_made a)
    as Hmoves by congruence.
  split_and!; [done|set_solver|set_solver|done|set_solver|set_solver|].
  intros Hmove. pose proof (make_safe_move_spec a') as Hspec.
  rewrite Hmove in Hspec. destruct Hspec as [_ Hn]. apply Hn.
  rewrite Hmoves. set_solver.
Qed.

Lemma add_knowledge_effect_witness :
  let a := MinesweeperAI.init 2 2 in
  let a' := MinesweeperAI.mk 2 2 {[(0, 0)]} ∅ {[(0, 0)]}
              [Sentence.mk {[(0, 1); (1, 0); (1, 1)]} 5] in
  MinesweeperAI.add_knowledge 1 a (0, 0) 5 = Some a'
  ∧ MinesweeperAI.moves_made a' = {[(0, 0)]} ∪ MinesweeperAI.moves_made a.
Proof.
  intros a a'.
  assert (MinesweeperAI.add_knowledge 1 a (0, 0) 5 = Some a') as Hrun
    by (vm_compute; reflexivity).
  split; [exact Hrun|].
  exact (proj1 (add_knowledge_effect 1 a (0, 0) 5 a' Hrun)).
Defined.

(** X16 -- [make_safe_move] proposes a cell of [safes] that is not in
    [moves_made], and it proposes one whenever there is one: it returns
    [None] exactly when every cell of [safes] has been played. *)
Theorem make_safe_move_result a :
  match (MinesweeperAI.make_safe_move a).1 with
  | Some c => c ∈ MinesweeperAI.safes a ∧ c ∉ MinesweeperAI.moves_made a
  | None => True
  end
  ∧ ((MinesweeperAI.make_safe_move a).1 = None
     ↔ MinesweeperAI.safes a ⊆ MinesweeperAI.moves_made a).
Proof.
  pose proof (make_safe_move_spec a) as Hspec.
  destruct (MinesweeperAI.make_safe_move a).1 as [c|].
  - split; [done|]. split; [done|]. intros Hsub. destruct Hspec as [Hc Hn].
    exfalso. apply Hn. by apply Hsub.
  - split; [done|]. split; [done|]. done.
Qed.

Lemma reachable_played g a :
  reachable g a → played (Minesweeper.height g) (Minesweeper.width g) a.
Proof.
  induction 1; [apply played_init| |].
  - by eapply played_observe.
  - by eapply played_propagate.
Qed.

(** X17 -- Under the driver's contract (every observation is the board's
    answer for a cell that holds no mine) the agent is never wrong about a
    cell: no cell of [safes] or of [moves_made] holds a mine, every cell of
    [mines] does, and the cell proposed by [make_safe_move] holds no
    mine. *)
Theorem reachable_beliefs_true g a :
  reachable g a →
  MinesweeperAI.safes a ## Minesweeper.mines g
  ∧ MinesweeperAI.moves_made a ## Minesweeper.mines g
  ∧ MinesweeperAI.mines a ⊆ Minesweeper.mines g
  ∧ ∀ c, (MinesweeperAI.make_safe_move a).1 = Some c →
         Minesweeper.is_mine g c = false.
Proof.
  intros Hreach.
  pose proof (reachable_sound g a Hreach) as (_ & _ & _ & Hs & Hm).
  pose proof (reachable_played g a Hreach) as Hp.
  apply played_tidy in Hp as (_ & _ & Hmv & _).
  split_and!; [done|set_solver|done|].
  intros c Hc. pose proof (make_safe_move_spec a) as Hspec.
  rewrite Hc in Hspec. destruct Hspec as [Hin _].
  unfold Minesweeper.is_mine. apply bool_decide_eq_false. set_solver.
Qed.

Lemma reachable_example :
  reachable (Minesweeper.mk 2 3 {[(0, 1)]})
    (MinesweeperAI.mk 2 3 {[(0, 0)]} ∅ {[(0, 0)]}
       [Sentence.mk {[(0, 1); (1, 0); (1, 1)]} 1]).
Proof.
  apply (reach_observe (Minesweeper.mk 2 3 {[(0, 1)]})
           (MinesweeperAI.init 2 3) 1 (0, 0)).
  - apply (reach_init (Minesweeper.mk 2 3 {[(0, 1)]})).
  - by_compute.
  - vm_compute; reflexivity.
Defined.

Lemma reachable_beliefs_true_witness :
  let g := Minesweeper.mk 2 3 {[(0, 1)]} in
  let a := MinesweeperAI.mk 2 3 {[(0, 0)]} ∅ {[(0, 0)]}
             [Sentence.mk {[(0, 1); (1, 0); (1, 1)]} 1] in
  reachable g a ∧ MinesweeperAI.safes a ## Minesweeper.mines g.
Proof.
  intros g a. split; [exact reachable_example|].
  exact (proj1 (reachable_beliefs_true g a reachable_example)).
Defined.

(** X18 -- Under the driver's contract every sentence the agent holds is
    true of the board and undetermined: its count is the number of mines
    among its cells, and lies strictly between 0 and the number of its
    cells. *)
Theorem reachable_sentences_true g a s :
  reachable g a → s ∈ MinesweeperAI.knowledge a →
  Sentence.count s
  = Z.of_nat (size (Sentence.cells s ∩ Minesweeper.mines g))
  ∧ 0 < Sentence.count s < Z.of_nat (size (Sentence.cells s)).
Proof.
  intros Hreach Hs.
  pose proof (reachable_sound g a Hreach) as (_ & _ & Hk & _).
  rewrite Forall_forall in Hk. pose proof (Hk s Hs) as Hholds.
  unfold holds in Hholds. split; [done|].
  assert (Sentence.count s ≠ 0
          ∧ Sentence.count s ≠ Z.of_nat (size (Sentence.cells s))) as [H0 Hn].
  { assert (∀ fuel b, MinesweeperAI.update_knowledge fuel b = Some a →
                      Sentence.count s ≠ 0
                      ∧ Sentence.count s ≠ Z.of_nat (size (Sentence.cells s)))
      as Hdone.
    { intros fuel b (kb & Hkb & Hfs & Hfm & _)%update_knowledge_settled.
      rewrite Hkb in Hs.
      apply list_elem_of_filter in Hs as [Hne%nonempty_spec Hin].
      apply set_choose_L in Hne as [c Hc]. split.
      - intros Hz. assert (c ∈ facts_safes kb) as Hf
          by (apply elem_of_facts_safes; by exists s).
        rewrite Hfs in Hf. by apply not_elem_of_empty in Hf.
      - intros Hsz. destruct (decide (Sentence.count s = 0)) as [Hz|Hz].
        + assert (c ∈ facts_safes kb) as Hf
            by (apply elem_of_facts_safes; by exists s).
          rewrite Hfs in Hf. by apply not_elem_of_empty in Hf.
        + assert (c ∈ facts_mines kb) as Hf
            by (apply elem_of_facts_mines; by exists s).
          rewrite Hfm in Hf. by apply not_elem_of_empty in Hf. }
    destruct Hreach as [|b fuel c a Hb Hc Hadd|b fuel a Hb Hupd].
    - by apply elem_of_nil in Hs.
    - by eapply Hdone.
    - by eapply Hdone. }
  assert (size (Sentence.cells s ∩ Minesweeper.mines g)
          ≤ size (Sentence.cells s))%nat as Hle
    by (apply subseteq_size; set_solver).
  lia.
Qed.

Lemma reachable_sentences_true_witness :
  let g := Minesweeper.mk 2 3 {[(0, 1)]} in
  let s := Sentence.mk {[(0, 1); (1, 0); (1, 1)]} 1 in
  let a := MinesweeperAI.mk 2 3 {[(0, 0)]} ∅ {[(0, 0)]} [s] in
  reachable g a ∧ s ∈ MinesweeperAI.knowledge a
  ∧ 0 < Sentence.count s < Z.of_nat (size (Sentence.cells s)).
Proof.
  intros g s a.
  assert (s ∈ MinesweeperAI.knowledge a) as Hs by by_compute.
  split; [exact reachable_example|]. split; [exact Hs|].
  exact (proj2 (reachable_sentences_true g a s reachable_example Hs)).
Defined.

(** ** Termination of the loop *)

Lemma measure_bound k : (measure k ≤ 4 * 2 ^ size (cells_of k))%nat.
Proof. unfold measure. lia. Qed.

(** X19 -- When the stored sentences are all true of one board (any set
    of mined cells), the [while updated] loop of [update_knowledge] stops:
    it returns after at most [4 * 2 ^ n + 1] rounds, [n] being the number
    of cells the sentences mention, and what it returns is again true of
    that board. *)
Theorem update_knowledge_stops (B : gset (Z * Z)) a :
  sound B a →
  let bound := (4 * 2 ^ size (cells_of (MinesweeperAI.knowledge a)) + 1)%nat in
  ∃ r a',
    MinesweeperAI.rounds bound a = Some r ∧ (r ≤ bound)%nat
    ∧ (∀ fuel, (bound ≤ fuel)%nat →
               MinesweeperAI.update_knowledge fuel a = Some a')
    ∧ sound B a'.
Proof.
  intros Ha bound. pose proof Ha as (Hk & _).
  pose proof (measure_bound (MinesweeperAI.knowledge a)) as Hm.
  destruct (update_knowledge_terminates B bound a Hk) as [a' Ha'];
    [unfold bound; lia|].
  pose proof (rounds_update_knowledge bound a) as Hr.
  destruct (MinesweeperAI.rounds bound a) as [r|]; [|congruence].
  exists r, a'. destruct Hr as [Hr _].
  split_and!; [done|lia| |by eapply update_knowledge_sound].
  intros fuel Hle. by eapply update_knowledge_fuel_mono.
Qed.

Lemma update_knowledge_stops_witness :
  let B : gset (Z * Z) := {[(0, 0); (0, 2)]} in
  let a := MinesweeperAI.set_knowledge
             [Sentence.mk {[(0, 0); (0, 1); (0, 2)]} 2;
              Sentence.mk {[(0, 0); (0, 1)]} 1] (MinesweeperAI.init 1 3) in
  sound B a
  ∧ ∃ r a', MinesweeperAI.rounds 33 a = Some r ∧ (r ≤ 33)%nat
            ∧ (∀ fuel, (33 ≤ fuel)%nat →
                       MinesweeperAI.update_knowledge fuel a = Some a')
            ∧ sound B a'.
Proof.
  intros B a.
  assert (sound B a) as Ha.
  { unfold sound. split; [|split; by_compute].
    repeat constructor; vm_compute; reflexivity. }
  split; [exact Ha|]. exact (update_knowledge_stops B a Ha).
Defined.

Lemma tidy_cells_in_bounds a c :
  tidy a → c ∈ cells_of (MinesweeperAI.knowledge a) →
  in_bounds (MinesweeperAI.height a) (MinesweeperAI.width a) c.
Proof.
  intros (_ & _ & _ & Hk) (s & Hs & Hc)%elem_of_cells_of.
  destruct (Hk s Hs) as (_ & _ & p & _ & Hsub).
  apply Hsub, elem_of_neighbors8 in Hc. tauto.
Qed.

Lemma grid_size (h w : Z) (X : gset (Z * Z)) :
  (∀ c, c ∈ X → in_bounds h w c) → (size X ≤ Z.to_nat (h * w))%nat.
Proof.
  intros HX. pose proof (in_bounds_size h w X HX) as Hle.
  destruct (decide (0 < h ∧ 0 < w)) as [[Hh Hw]|Hn].
  - rewrite !Z.max_r in Hle by lia. lia.
  - assert (Z.max 0 h * Z.max 0 w = 0) as Hz.
    { destruct (decide (0 < h)); [rewrite (Z.max_l 0 w) by lia
                                 |rewrite (Z.max_l 0 h) by lia]; lia. }
    lia.
Qed.

(** X20 -- Under the driver's contract [add_knowledge] always returns:
    on a state reached from the initial agent by the board's answers for
    unmined cells, the answer for a further unmined cell is taken in by a
    propagation of at most [4 * 2 ^ (height * width) + 1] rounds, and the
    state it leaves is again one of these states. *)
Theorem add_knowledge_returns g a c :
  reachable g a → c ∉ Minesweeper.mines g →
  let bound :=
    (4 * 2 ^ Z.to_nat (Minesweeper.height g * Minesweeper.width g) + 1)%nat in
  ∃ a', (∀ fuel, (bound ≤ fuel)%nat →
                 MinesweeperAI.add_knowledge fuel a c
                   (Minesweeper.nearby_mines g c) = Some a')
        ∧ reachable g a'.
Proof.
  intros Hreach Hc bound.
  pose proof (reachable_sound g a Hreach) as (Hh & Hw & Hs).
  pose proof (ingest_sound g a c Hh Hw Hc Hs) as Hsound.
  pose proof (played_tidy _ _ _ (reachable_played g a Hreach)) as (_ & _ & Ht).
  pose proof (tidy_ingest a c (Minesweeper.nearby_mines g c) Ht) as Hti.
  pose proof (ingest_fields a c (Minesweeper.nearby_mines g c))
    as (Hh' & Hw' & _).
  set (b := MinesweeperAI.ingest a c (Minesweeper.nearby_mines g c)) in *.
  assert (size (cells_of (MinesweeperAI.knowledge b))
          ≤ Z.to_nat (Minesweeper.height g * Minesweeper.width g))%nat as Hsz.
  { apply grid_size. intros x Hx.
    apply (tidy_cells_in_bounds b x Hti) in Hx.
    by rewrite Hh', Hw', Hh, Hw in Hx. }
  assert (2 ^ size (cells_of (MinesweeperAI.knowledge b))
          ≤ 2 ^ Z.to_nat (Minesweeper.height g * Minesweeper.width g))%nat
    as Hpow by (apply Nat.pow_le_mono_r; lia).
  pose proof (measure_bound (MinesweeperAI.knowledge b)) as Hm.
  destruct Hsound as (Hk & Hsb).
  destruct (update_knowledge_terminates (Minesweeper.mines g) bound b Hk)
    as [a' Ha']; [unfold bound; lia|].
  exists a'. split.
  - intros fuel Hle. unfold MinesweeperAI.add_knowledge. fold b.
    by eapply update_knowledge_fuel_mono.
  - by eapply (reach_observe g a bound c a').
Qed.

Lemma add_knowledge_returns_witness :
  let g := Minesweeper.mk 2 3 {[(0, 1)]} in
  let a := MinesweeperAI.mk 2 3 {[(0, 0)]} ∅ {[(0, 0)]}
             [Sentence.mk {[(0, 1); (1, 0); (1, 1)]} 1] in
  reachable g a ∧ ((0, 2) ∉ Minesweeper.mines g)
  ∧ ∃ a', (∀ fuel, (257 ≤ fuel)%nat →
                   MinesweeperAI.add_knowledge fuel a (0, 2)
                     (Minesweeper.nearby_mines g (0, 2)) = Some a')
          ∧ reachable g a'.
Proof.
  intros g a.
  assert ((0, 2) ∉ Minesweeper.mines g) as Hc by by_compute.
  split; [exact reachable_example|]. split; [exact Hc|].
  exact (add_knowledge_returns g a (0, 2) reachable_example Hc).
Defined.

(** ** Calling [update_knowledge] again *)

(** What the last round of a completed call looked at: the stored
    sentences of the state the call began with, or the result of a
    previous round. *)
Lemma update_knowledge_last_round_from fuel a a' :
  MinesweeperAI.update_knowledge fuel a = Some a' →
  ∃ b, MinesweeperAI.update_round b = (a', false)
       ∧ (b = a ∨ ∃ b0, b = (MinesweeperAI.update_round b0).1).
Proof.
  revert a. induction fuel as [|fuel IH]; intros a; [done|].
  rewrite update_knowledge_S.
  destruct (MinesweeperAI.update_round a) as [a1 upd] eqn:Hr. cbn [fst snd].
  destruct upd.
  - intros (b & Hb & Hprev)%IH. exists b. split; [done|right].
    destruct Hprev as [->|Hprev]; [|done]. exists a. by rewrite Hr.
  - intros [= <-]. exists a. split; [done|by left].
Qed.

(** After a non-updating round: the stored sentences are free of
    conflicts exactly when a further round derives nothing. *)
Lemma settled_conflicts kb :
  facts_safes kb = ∅ → facts_mines kb = ∅ →
  MinesweeperAI.subset_inference kb = [] →
  let k' := filter (λ s, MinesweeperAI.nonempty s) kb in
  (MinesweeperAI.subset_inference k' = [] → conflict_free k')
  ∧ (∀ x, x ∈ MinesweeperAI.subset_inference k' →
          Sentence.cells x = ∅
          ∧ ∃ s1 s2, s1 ∈ k' ∧ s2 ∈ k' ∧ s1 ≠ s2
                     ∧ Sentence.cells s1 = Sentence.cells s2).
Proof.
  intros Hs Hm Hinf k'. split.
  - intros Hinf' s s' Hin Hin' Heq Hne.
    destruct (decide (s = s')) as [|Hns]; [done|]. exfalso.
    assert (derivable s s') as Hd.
    { split_and!; [done|done|by rewrite <- Heq|by rewrite Heq]. }
    pose proof (subset_inference_complete k' s s' Hin Hin' Hd) as Hc.
    rewrite Hinf', app_nil_r in Hc.
    apply list_elem_of_filter in Hc as [Hc%nonempty_spec _]. apply Hc.
    unfold candidate. cbn [Sentence.cells]. rewrite Heq. set_solver.
  - intros x (Hnk & s1 & s2 & H1 & H2 & Hd & ->)%elem_of_subset_inference.
    pose proof H1 as [_ H1b]%list_elem_of_filter.
    pose proof H2 as [_ H2b]%list_elem_of_filter.
    pose proof (subset_inference_complete kb s1 s2 H1b H2b Hd) as Hin.
    rewrite Hinf, app_nil_r in Hin.
    destruct (decide (Sentence.cells (candidate s1 s2) = ∅)) as [Hemp|Hnemp].
    + split; [done|]. exists s1, s2. destruct Hd as (Hne & _ & _ & Hsub).
      split_and!; [done|done|done|].
      unfold candidate in Hemp. cbn [Sentence.cells] in Hemp.
      apply set_eq. intros c. split; [apply Hsub|]. intros Hc.
      destruct (decide (c ∈ Sentence.cells s1)) as [|Hn]; [done|].
      assert (c ∈ Sentence.cells s2 ∖ Sentence.cells s1) as Hdiff
        by (apply elem_of_difference; done).
      rewrite Hemp in Hdiff. by apply not_elem_of_empty in Hdiff.
    + exfalso. apply Hnk, list_elem_of_filter.
      split; [by apply nonempty_spec|done].
Qed.

Lemma filter_nonempty_none (l : list Sentence.t) :
  (∀ x, x ∈ l → Sentence.cells x = ∅) →
  filter (λ s, MinesweeperAI.nonempty s) l = [].
Proof.
  induction l as [|x l IH]; intros Hl; [done|].
  rewrite filter_cons, decide_False.
  - apply IH. intros y Hy. apply Hl. by right.
  - intros Hx%nonempty_spec. apply Hx, Hl. by left.
Qed.

(** X21 -- Calling [update_knowledge] again after a call that returned
    either returns after a single round with the agent unchanged, or never
    returns; it never returns exactly when two of the stored sentences
    have the same cells and different counts. *)
Theorem update_knowledge_again fuel a a' :
  MinesweeperAI.update_knowledge fuel a = Some a' →
  ((∀ n, MinesweeperAI.update_knowledge (S n) a' = Some a')
   ∧ MinesweeperAI.rounds 1 a' = Some 1%nat
   ∧ conflict_free (MinesweeperAI.knowledge a'))
  ∨ ((∀ n, MinesweeperAI.update_knowledge n a' = None)
     ∧ ∃ s1 s2, s1 ∈ MinesweeperAI.knowledge a'
                ∧ s2 ∈ MinesweeperAI.knowledge a'
                ∧ Sentence.cells s1 = Sentence.cells s2
                ∧ Sentence.count s1 ≠ Sentence.count s2).
Proof.
  intros [b Hb]%update_knowledge_last_round.
  pose proof Hb as Hb'. rewrite update_round_closed in Hb'.
  injection Hb' as Ha' Hupd.
  apply round_updated_false in Hupd as (Hs & Hm & Hinf).
  set (kb := MinesweeperAI.knowledge b) in *.
  pose proof (settled_conflicts kb Hs Hm Hinf) as [Hfree Hconf].
  assert (MinesweeperAI.knowledge a'
          = filter (λ s, MinesweeperAI.nonempty s) kb) as Hk.
  { rewrite <- Ha'. cbn. unfold round_knowledge.
    by rewrite (reduced_no_facts kb Hs Hm), Hinf, app_nil_r. }
  set (k' := filter (λ s, MinesweeperAI.nonempty s) kb) in *.
  destruct (MinesweeperAI.subset_inference k') as [|x inf] eqn:Hinf'.
  - left. assert (conflict_free (MinesweeperAI.knowledge a')) as Hcf
      by (rewrite Hk; by apply Hfree).
    pose proof (update_round_fixed b a' Hb Hcf) as Hfix.
    split_and!; [|by rewrite rounds_S, Hfix|done].
    intros n. by rewrite update_knowledge_S, Hfix.
  - right.
    assert (facts_safes k' = ∅) as Hs'.
    { pose proof (facts_safes_filter kb). set_solver. }
    assert (facts_mines k' = ∅) as Hm'.
    { pose proof (facts_mines_filter kb). set_solver. }
    split.
    + apply update_knowledge_diverges. rewrite update_round_closed, Hk.
      unfold round_updated, round_knowledge.
      rewrite (reduced_no_facts k' Hs' Hm'), Hs', Hm', Hinf'.
      rewrite filter_app.
      rewrite (filter_nonempty_none (x :: inf))
        by (intros y Hy; by apply Hconf).
      rewrite app_nil_r. unfold k' at 1. rewrite filter_nonempty_idemp.
      rewrite !(left_id_L ∅ (∪)).
      rewrite !bool_decide_eq_false_2 by (intros Hc; by apply Hc).
      rewrite bool_decide_eq_false_2 by done. cbn [negb orb].
      f_equal. rewrite <- Ha'. cbn. f_equal. fold kb.
      unfold round_knowledge.
      by rewrite (reduced_no_facts kb Hs Hm), Hinf, app_nil_r.
    + destruct (Hconf x) as (_ & s1 & s2 & H1 & H2 & Hne & Heq); [left|].
      exists s1, s2. rewrite Hk. split_and!; [done|done|done|].
      intros Hcount. apply Hne. destruct s1, s2. cbn in *. congruence.
Qed.

Lemma update_knowledge_again_witness :
  let a := MinesweeperAI.set_knowledge
             [Sentence.mk {[(0, 0); (0, 1); (0, 2)]} 2;
              Sentence.mk {[(0, 0); (0, 1)]} 1] (MinesweeperAI.init 1 3) in
  let a' := MinesweeperAI.mk 1 3 ∅ {[(0, 2)]} ∅
              [Sentence.mk {[(0, 0); (0, 1)]} 1;
               Sentence.mk {[(0, 0); (0, 1)]} 1] in
  MinesweeperAI.update_knowledge 3 a = Some a'
  ∧ (((∀ n, MinesweeperAI.update_knowledge (S n) a' = Some a')
      ∧ MinesweeperAI.rounds 1 a' = Some 1%nat
      ∧ conflict_free (MinesweeperAI.knowledge a'))
     ∨ ((∀ n, MinesweeperAI.update_knowledge n a' = None)
        ∧ ∃ s1 s2, s1 ∈ MinesweeperAI.knowledge a'
                   ∧ s2 ∈ MinesweeperAI.knowledge a'
                   ∧ Sentence.cells s1 = Sentence.cells s2
                   ∧ Sentence.count s1 ≠ Sentence.count s2)).
Proof.
  intros a a'.
  assert (MinesweeperAI.update_knowledge 3 a = Some a') as Hrun
    by (vm_compute; reflexivity).
  split; [exact Hrun|]. exact (update_knowledge_again 3 a a' Hrun).
Defined.

(** X22 -- When no stored sentence is empty as [update_knowledge] is
    called and the call returns, no two sentences it leaves have the same
    cells and different counts, and calling it again returns the same
    agent after one round. *)
Theorem update_knowledge_twice fuel a a' :
  (∀ s, s ∈ MinesweeperAI.knowledge a → Sentence.cells s ≠ ∅) →
  MinesweeperAI.update_knowledge fuel a = Some a' →
  conflict_free (MinesweeperAI.knowledge a')
  ∧ ∀ n, MinesweeperAI.update_knowledge (S n) a' = Some a'.
Proof.
  intros Hne (b & Hb & Hfrom)%update_knowledge_last_round_from.
  assert (∀ s, s ∈ MinesweeperAI.knowledge b → Sentence.cells s ≠ ∅) as Hneb.
  { destruct Hfrom as [->|[b0 ->]]; [done|]. rewrite update_round_closed.
    cbn. intros s [Hs%nonempty_spec _]%list_elem_of_filter. done. }
  pose proof Hb as Hb'. rewrite update_round_closed in Hb'.
  injection Hb' as Ha' Hupd.
  apply round_updated_false in Hupd as (Hs & Hm & Hinf).
  set (kb := MinesweeperAI.knowledge b) in *.
  assert (MinesweeperAI.knowledge a'
          = filter (λ s, MinesweeperAI.nonempty s) kb) as Hk.
  { rewrite <- Ha'. cbn. unfold round_knowledge.
    by rewrite (reduced_no_facts kb Hs Hm), Hinf, app_nil_r. }
  assert (conflict_free (MinesweeperAI.knowledge a')) as Hcf.
  { rewrite Hk. intros s s' [_ Hin]%list_elem_of_filter
      [_ Hin']%list_elem_of_filter Heq Hnes.
    destruct (decide (s = s')) as [|Hns]; [done|]. exfalso.
    assert (derivable s s') as Hd.
    { split_and!; [done|done|by rewrite <- Heq|by rewrite Heq]. }
    pose proof (subset_inference_complete kb s s' Hin Hin' Hd) as Hc.
    rewrite Hinf, app_nil_r in Hc. apply (Hneb _ Hc).
    unfold candidate. cbn [Sentence.cells]. rewrite Heq. set_solver. }
  split; [done|]. intros n.
  by rewrite update_knowledge_S, (update_round_fixed b a' Hb Hcf).
Qed.

Lemma update_knowledge_twice_witness :
  let a := MinesweeperAI.set_knowledge
             [Sentence.mk {[(0, 0); (0, 1); (0, 2)]} 2;
              Sentence.mk {[(0, 0); (0, 1)]} 1] (MinesweeperAI.init 1 3) in
  let a' := MinesweeperAI.mk 1 3 ∅ {[(0, 2)]} ∅
              [Sentence.mk {[(0, 0); (0, 1)]} 1;
               Sentence.mk {[(0, 0); (0, 1)]} 1] in
  (∀ s, s ∈ MinesweeperAI.knowledge a → Sentence.cells s ≠ ∅)
  ∧ MinesweeperAI.update_knowledge 3 a = Some a'
  ∧ ∀ n, MinesweeperAI.update_knowledge (S n) a' = Some a'.
Proof.
  intros a a'.
  assert (∀ s, s ∈ MinesweeperAI.knowledge a → Sentence.cells s ≠ ∅) as Hne.
  { intros s Hs. cbn in Hs.
    apply elem_of_cons in Hs as [->|Hs];
      [|apply list_elem_of_singleton in Hs as ->];
      cbn [Sentence.cells]; intros Hemp;
      (assert ((0, 0) ∈ (∅ : gset (Z * Z))) as Hin
         by (rewrite <- Hemp; set_solver));
      by apply not_elem_of_empty in Hin. }
  assert (MinesweeperAI.update_knowledge 3 a = Some a') as Hrun
    by (vm_compute; reflexivity).
  split; [exact Hne|]. split; [exact Hrun|].
  exact (proj2 (update_knowledge_twice 3 a a' Hne Hrun)).
Defined.

(** X23 -- Under the driver's contract the agent is always at rest: in
    every state reached by the board's answers for unmined cells, a call of
    [update_knowledge] returns after one round and changes nothing. *)
Theorem reachable_at_rest g a :
  reachable g a →
  ∀ n, MinesweeperAI.update_knowledge (S n) a = Some a.
Proof.
  intros Hreach n.
  pose proof (reachable_sound g a Hreach) as (_ & _ & Hk & _).
  pose proof (holds_conflict_free _ _ Hk) as Hcf.
  assert (∀ fuel b, MinesweeperAI.update_knowledge fuel b = Some a →
                    MinesweeperAI.update_knowledge (S n) a = Some a) as Hdone.
  { intros fuel b [b' Hb]%update_knowledge_last_round.
    by rewrite update_knowledge_S, (update_round_fixed b' a Hb Hcf). }
  destruct Hreach as [|b fuel c a Hb Hc Hadd|b fuel a Hb Hupd].
  - rewrite update_knowledge_S, update_round_closed. cbn.
    assert (round_updated [] = false) as -> by (vm_compute; reflexivity).
    unfold MinesweeperAI.init. by rewrite !(left_id_L ∅ (∪)).
  - by eapply Hdone.
  - by eapply Hdone.
Qed.

Lemma reachable_at_rest_witness :
  let g := Minesweeper.mk 2 3 {[(0, 1)]} in
  let a := MinesweeperAI.mk 2 3 {[(0, 0)]} ∅ {[(0, 0)]}
             [Sentence.mk {[(0, 1); (1, 0); (1, 1)]} 1] in
  reachable g a ∧ MinesweeperAI.update_knowledge 1 a = Some a.
Proof.
  intros g a. split; [exact reachable_example|].
  exact (reachable_at_rest g a reachable_example 0%nat).
Defined.

(** ** The printed board *)







